(** * ipv46: parsing, formatting, ordering and ranges of IP addresses

    A shallow embedding of [src/index.ts] and the properties that the
    specification states about it.

    Conventions of the embedding.
    - A JavaScript string is a [list ascii] (one element per code unit; every
      character the code distinguishes is an ASCII one, all others only ever
      fail a character-class test).
    - A JavaScript number that holds an integer is a [Z]; the arrays of the
      program ([_bytes], [_words]) are [list Z] read with [!!] and written
      with [<[i:=x]>].
    - [null] is [None]; a thrown exception is the [Throw] case of
      [completion].
    - A regular expression is a term of [regex], matched by [run] the way a
      backtracking matcher does: alternatives in their order, repetition
      greedy.
    - The memo field [_string] of the two address classes is a cache of a
      pure function of the array and is left out. *)

From Stdlib Require Import ZArith Ascii String List Bool Lia.
From stdpp Require Import base list.
Import ListNotations.

Local Open Scope Z_scope.

Abbreviation jstr := (list ascii).

(** A string literal as a JavaScript string. *)
Definition js (s : string) : jstr := list_ascii_of_string s.

(** ** Completions: a value or a thrown error *)

Inductive error := TypeError (msg : string).

Inductive completion (A : Type) :=
| Normal (a : A)
| Throw (e : error).
Arguments Normal {A} a.
Arguments Throw {A} e.

#[global] Instance completion_ret : MRet completion := fun A a => Normal a.

#[global] Instance completion_fmap : FMap completion := fun A B f c =>
  match c with
  | Normal a => Normal (f a)
  | Throw e => Throw e
  end.

#[global] Instance completion_bind : MBind completion := fun A B k c =>
  match c with
  | Normal a => k a
  | Throw e => Throw e
  end.

(** ** String and array primitives *)

Definition len {A} (s : list A) : Z := Z.of_nat (length s).

Fixpoint starts_with (pat s : jstr) : bool :=
  match pat, s with
  | [], _ => true
  | p :: pat', c :: s' => Ascii.eqb p c && starts_with pat' s'
  | _ :: _, [] => false
  end.

(** [index_from pat s pos]: the first position of [pat] in [s], counted from
    [pos] at the head of [s]; [-1] when there is none. *)
Fixpoint index_from (pat s : jstr) (pos : Z) : Z :=
  if starts_with pat s then pos
  else match s with
       | [] => -1
       | _ :: s' => index_from pat s' (pos + 1)
       end.

(** [s.indexOf(pat, from)] *)
Definition indexOf (s pat : jstr) (from : Z) : Z :=
  let k := Z.min (Z.max from 0) (len s) in
  index_from pat (drop (Z.to_nat k) s) k.

Fixpoint last_index_from (pat s : jstr) (pos found : Z) : Z :=
  let found := if starts_with pat s then pos else found in
  match s with
  | [] => found
  | _ :: s' => last_index_from pat s' (pos + 1) found
  end.

(** [s.lastIndexOf(pat)] *)
Definition lastIndexOf (s pat : jstr) : Z := last_index_from pat s 0 (-1).

(** [s.slice(start, end)] of strings and arrays; [end] is optional. *)
Definition slice {A} (s : list A) (start : Z) (end_ : option Z) : list A :=
  let from := if start <? 0 then Z.max (len s + start) 0 else Z.min start (len s) in
  let e := default (len s) end_ in
  let to := if e <? 0 then Z.max (len s + e) 0 else Z.min e (len s) in
  take (Z.to_nat (to - from)) (drop (Z.to_nat from) s).

(** [s.split(sep)] for a separator of one character. *)
Fixpoint split (sep : ascii) (s : jstr) : list jstr :=
  match s with
  | [] => [[]]
  | c :: s' =>
      if Ascii.eqb c sep then [] :: split sep s'
      else match split sep s' with
           | w :: ws => (c :: w) :: ws
           | [] => [[c]]
           end
  end.

(** [l.join(sep)] of an array of strings. *)
Fixpoint join (sep : jstr) (l : list jstr) : jstr :=
  match l with
  | [] => []
  | [x] => x
  | x :: l' => x ++ sep ++ join sep l'
  end.

(** ** Characters, digits and numbers *)

Definition in_range (lo hi c : ascii) : bool := ((lo <=? c) && (c <=? hi))%char.

Definition is_digit : ascii -> bool := in_range "0" "9".

Definition code (c : ascii) : Z := Z.of_N (N_of_ascii c).

Definition digit_value (c : ascii) : option Z :=
  if is_digit c then Some (code c - 48) else None.

Definition hex_value (c : ascii) : option Z :=
  if is_digit c then Some (code c - 48)
  else if in_range "a" "f" c then Some (code c - 87)
  else if in_range "A" "F" c then Some (code c - 55)
  else None.

(** [Number(s)] where [s] is a non-empty string of decimal digits, which is
    all this program converts: the groups of [IPV4_REGEX] and the [\d+] of a
    CIDR suffix. [None] stands for every other argument. The value is exact;
    the program compares it with 32 and 128 and otherwise uses it only when
    it is at most 255. *)
Fixpoint Number_loop (acc : Z) (s : jstr) : option Z :=
  match s with
  | [] => Some acc
  | c :: s' => d ← digit_value c; Number_loop (acc * 10 + d) s'
  end.

Definition Number (s : jstr) : option Z :=
  match s with
  | [] => None
  | _ => Number_loop 0 s
  end.

(** [parseInt(s, 16)] reads the longest prefix of hexadecimal digits and is
    [NaN], here [None], when that prefix is empty. (Leading white space, a
    sign and a [0x] prefix are not modelled: the strings parsed here have
    passed [IPV6_REGEX].) *)
Fixpoint parseInt16_loop (acc : Z) (s : jstr) : Z :=
  match s with
  | [] => acc
  | c :: s' =>
      match hex_value c with
      | Some d => parseInt16_loop (acc * 16 + d) s'
      | None => acc
      end
  end.

Definition parseInt16 (s : jstr) : option Z :=
  match s with
  | [] => None
  | c :: _ =>
      match hex_value c with
      | Some _ => Some (parseInt16_loop 0 s)
      | None => None
      end
  end.

Definition hex_char (d : Z) : ascii :=
  ascii_of_N (Z.to_N (if d <? 10 then 48 + d else 87 + d)).

(** [n.toString(16)] of a non-negative integer: [fuel] bounds the number of
    digits. *)
Fixpoint toString16_loop (fuel : nat) (n : Z) : jstr :=
  match fuel with
  | O => []
  | S fuel' =>
      if n <? 16 then [hex_char n]
      else toString16_loop fuel' (n / 16) ++ [hex_char (n mod 16)]
  end.

Definition toString16 (n : Z) : jstr :=
  toString16_loop (S (Z.to_nat (Z.log2 n))) n.

Definition to_lower (c : ascii) : ascii :=
  if in_range "A" "Z" c then ascii_of_N (N_of_ascii c + 32) else c.

Definition to_upper (c : ascii) : ascii :=
  if in_range "a" "z" c then ascii_of_N (N_of_ascii c - 32) else c.

(** [s.toLowerCase()] *)
Definition toLowerCase (s : jstr) : jstr := to_lower <$> s.

(** ** Regular expressions

    The fragment the program uses: character classes, concatenation, ordered
    alternation, capturing groups that are not nested, and greedy bounded
    repetition of a class. [run r s caps] lists, in the order in which a
    backtracking matcher tries them, the ways [r] can match a prefix of [s]:
    the rest of the input and the captures so far. *)

Inductive regex :=
| Cls (p : ascii -> bool)
| Cat (r1 r2 : regex)
| Alt (r1 r2 : regex)
| Group (r : regex)
| Rep (p : ascii -> bool) (lo : nat) (hi : option nat).

(** The length of the longest prefix of [s] in class [p], at most [hi]. *)
Fixpoint span (p : ascii -> bool) (hi : option nat) (s : jstr) : nat :=
  match hi, s with
  | Some O, _ => O
  | _, [] => O
  | _, c :: s' => if p c then S (span p (pred <$> hi) s') else O
  end.

Fixpoint run (r : regex) (s : jstr) (caps : list jstr) : list (jstr * list jstr) :=
  match r with
  | Cls p =>
      match s with
      | c :: s' => if p c then [(s', caps)] else []
      | [] => []
      end
  | Cat r1 r2 => x ← run r1 s caps; run r2 x.1 x.2
  | Alt r1 r2 => run r1 s caps ++ run r2 s caps
  | Group r =>
      (fun x => (x.1, x.2 ++ [take (length s - length x.1)%nat s])) <$> run r s caps
  | Rep p lo hi =>
      (fun n => (drop n s, caps)) <$> reverse (seq lo (S (span p hi s) - lo))
  end.

(** [s.match(/^r$/)]: the captures of the first way to match all of [s]. *)
Definition match_anchored (r : regex) (s : jstr) : option (list jstr) :=
  snd <$> find (fun x => bool_decide (x.1 = [])) (run r s []).

Definition chr (c : ascii) : regex := Cls (Ascii.eqb c).
Definition rng (lo hi : ascii) : regex := Cls (in_range lo hi).
Definition digit : regex := Cls is_digit.

(** A class under the [i] flag: a character matches when its canonical
    (upper-case) form is that of a member. *)
Definition class_i (members : jstr) (c : ascii) : bool :=
  existsb (fun m => Ascii.eqb (to_upper m) (to_upper c)) members.

(** ** [cmpSameLengthArrays]

    The loop runs over the indices of [left]. Past the end of [right] the
    read [right[i]] is [undefined]: [left[i] !== undefined] holds and
    [left[i] < undefined] does not, so the result is [1]. *)

Fixpoint cmpSameLengthArrays (left right : list Z) : Z :=
  match left, right with
  | [], _ => 0
  | l :: left', r :: right' =>
      if negb (l =? r) then (if l <? r then -1 else 1)
      else cmpSameLengthArrays left' right'
  | _ :: _, [] => 1
  end.

(** ** The address classes *)

Record IPv4 := mkIPv4 { _bytes : list Z }.
Record IPv6 := mkIPv6 { _words : list Z }.

(** [type IP = IPv4 | IPv6] *)
Inductive IP :=
| V4 (a : IPv4)
| V6 (a : IPv6).

Definition IP_version (a : IP) : Z :=
  match a with
  | V4 _ => 4
  | V6 _ => 6
  end.

(** The program only builds addresses by parsing, masking and [_next]; those
    have 4 components below 256, respectively 8 below 65536. *)
Definition items_ok (n : nat) (top : Z) (a : list Z) : bool :=
  (length a =? n)%nat && forallb (fun x => (0 <=? x) && (x <=? top)) a.

Definition wf4 (a : IPv4) : Prop := items_ok 4 255 (_bytes a) = true.
Definition wf6 (a : IPv6) : Prop := items_ok 8 65535 (_words a) = true.

Definition wf (a : IP) : Prop :=
  match a with
  | V4 a => wf4 a
  | V6 a => wf6 a
  end.

Definition items (a : IP) : list Z :=
  match a with
  | V4 a => _bytes a
  | V6 a => _words a
  end.

(** ** [_next]

    Both classes run the same loop, with [255] respectively [65535] as the
    largest item. [next_loop top n a] is the loop about to test [i >= 0] with
    [i = n - 1]; at [n = 0] the loop is over and the array is returned.
    [a[i - 1]++] at [i = 0] writes the property [-1] of the array object,
    which is none of its elements. *)

Definition item (a : list Z) (i : nat) : Z := default 0 (a !! i).

Fixpoint next_loop (top : Z) (n : nat) (a : list Z) : option (list Z) :=
  match n with
  | O => Some a
  | S i =>
      let b := item a i in
      if (b =? top) && (Z.of_nat i =? 0) then None
      else if b <? top then Some (<[i := item a i + 1]> a)
      else
        let a := <[i := 0]> a in
        let a :=
          match i with
          | O => a
          | S j => <[j := item a j + 1]> a
          end in
        next_loop top i a
  end.

Definition IPv4_next (a : IPv4) : option IPv4 :=
  mkIPv4 <$> next_loop 255 (length (_bytes a)) (_bytes a).

Definition IPv6_next (a : IPv6) : option IPv6 :=
  mkIPv6 <$> next_loop 65535 (length (_words a)) (_words a).

Definition IP_next (a : IP) : option IP :=
  match a with
  | V4 a => V4 <$> IPv4_next a
  | V6 a => V6 <$> IPv6_next a
  end.

(** The big-endian value of an array of items of [w] bits. *)
Definition be_value (w : Z) (a : list Z) : Z :=
  fold_left (fun acc x => acc * 2 ^ w + x) a 0.

Definition value (a : IP) : Z :=
  match a with
  | V4 a => be_value 8 (_bytes a)
  | V6 a => be_value 16 (_words a)
  end.


(** ** Comparison *)

Definition IPv4_cmp (a b : IPv4) : Z := cmpSameLengthArrays (_bytes a) (_bytes b).
Definition IPv6_cmp (a b : IPv6) : Z := cmpSameLengthArrays (_words a) (_words b).

Definition IP_cmp (a b : IP) : completion Z :=
  match a, b with
  | V6 a, V6 b => Normal (IPv6_cmp a b)
  | V4 a, V4 b => Normal (IPv4_cmp a b)
  | _, _ =>
      if negb (IP_version a =? IP_version b)
      then Normal (if IP_version a <? IP_version b then -1 else 1)
      else Throw (TypeError "type mismatch")
  end.

(** ** 32-bit integer operators

    [<<], [&] and [|] convert their operands to signed 32-bit integers, the
    shift count is taken modulo 32, and the result is again a signed 32-bit
    integer. *)

Definition ToInt32 (x : Z) : Z := (x + 2 ^ 31) mod 2 ^ 32 - 2 ^ 31.

Definition js_shl (a b : Z) : Z := ToInt32 (Z.shiftl (ToInt32 a) (b mod 32)).
Definition js_and (a b : Z) : Z := Z.land (ToInt32 a) (ToInt32 b).
Definition js_or (a b : Z) : Z := Z.lor (ToInt32 a) (ToInt32 b).

(** ** [mask]

    Iteration [i] of the loop reads and writes [copy[i]] only. [bits] is an
    integer here. *)

Definition leftBits (bits bitsPerItem : Z) (i : nat) : Z :=
  Z.min (Z.max 0 ((Z.of_nat i + 1) * bitsPerItem - bits)) bitsPerItem.

Definition mask (array : list Z) (bits bitsPerItem bitValue : Z) : list Z :=
  let itemMask := js_shl 1 bitsPerItem - 1 in
  imap (fun i x =>
          let lb := leftBits bits bitsPerItem i in
          let x := js_and x (js_and (js_shl itemMask lb) itemMask) in
          js_or x (bitValue * (js_shl 1 lb - 1)))
       array.

(** ** [IPRange]: constructor and [cidr] *)

Record IPRange := mkIPRange {
  IPRange_first : IP;
  IPRange_last : IP;
  IPRange_version : Z
}.

Definition IPRange_new (first last : IP) : completion IPRange :=
  if negb (IP_version first =? IP_version last)
  then Throw (TypeError "incompatible IP versions")
  else
    c ← IP_cmp first last;
    if c >? 0
    then Normal (mkIPRange last first (IP_version first))
    else Normal (mkIPRange first last (IP_version first)).

Definition IPv4_cidr (a : IPv4) (bits : Z) : completion IPRange :=
  let first := mkIPv4 (mask (_bytes a) bits 8 0) in
  let last := mkIPv4 (mask (_bytes a) bits 8 1) in
  IPRange_new (V4 first) (V4 last).

Definition IPv6_cidr (a : IPv6) (bits : Z) : completion IPRange :=
  let first := mkIPv6 (mask (_words a) bits 16 0) in
  let last := mkIPv6 (mask (_words a) bits 16 1) in
  IPRange_new (V6 first) (V6 last).

Definition IP_cidr (a : IP) (bits : Z) : completion IPRange :=
  match a with
  | V4 a => IPv4_cidr a bits
  | V6 a => IPv6_cidr a bits
  end.


(** ** IPv4 parsing and formatting *)

(** [(25[0-5]|2[0-4]\d|1\d\d|[1-9]\d|\d)] *)
Definition octet : regex :=
  Group (Alt (Cat (chr "2") (Cat (chr "5") (rng "0" "5")))
        (Alt (Cat (chr "2") (Cat (rng "0" "4") digit))
        (Alt (Cat (chr "1") (Cat digit digit))
        (Alt (Cat (rng "1" "9") digit)
             digit)))).

Definition IPV4_REGEX : regex :=
  Cat octet (Cat (chr ".") (Cat octet (Cat (chr ".") (Cat octet (Cat (chr ".") octet))))).

(** [ipv4.slice(1, 5)] are the four groups; the match result starts with the
    whole match. *)
Definition parseIPv4Bytes (ipStr : jstr) : option (list Z) :=
  match match_anchored IPV4_REGEX ipStr with
  | None => None
  | Some groups => mapM Number (slice (ipStr :: groups) 1 (Some 5))
  end.

Definition IPv4_parse (string : jstr) : option IPv4 :=
  if indexOf string (js ".") 0 <? 0 then None
  else match parseIPv4Bytes string with
       | None => None
       | Some bytes => Some (mkIPv4 bytes)
       end.

(** [n.toString()] in base 10 of a non-negative integer. *)
Fixpoint toString10_loop (fuel : nat) (n : Z) : jstr :=
  match fuel with
  | O => []
  | S fuel' =>
      if n <? 10 then [hex_char n]
      else toString10_loop fuel' (n / 10) ++ [hex_char (n mod 10)]
  end.

Definition toString10 (n : Z) : jstr :=
  toString10_loop (S (Z.to_nat (Z.log2 n))) n.

Definition IPv4_toString (a : IPv4) : jstr :=
  join (js ".") (toString10 <$> _bytes a).

(** ** IPv6 parsing and formatting *)

(** [/^[a-f0-9:]{2,39}$/i] *)
Definition IPV6_REGEX : regex :=
  Rep (class_i (js "abcdef0123456789:")) 2 (Some 39%nat).

Definition IPV6_ZEROS : list Z := [0; 0; 0; 0; 0; 0; 0; 0].

(** [parseInt] is [NaN] only on a [str] that does not start with a
    hexadecimal digit; [parseIPv6Words] passes none (lemma
    [parseHexWords_loop_hex] below), and the loop gives [None] there. *)
Fixpoint parseHexWords_loop (split : list jstr) : option (list Z) :=
  match split with
  | [] => Some []
  | str :: split' =>
      if bool_decide (str = []) || (len str >? 4) then None
      else w ← parseInt16 str; words ← parseHexWords_loop split'; Some (w :: words)
  end.

Definition parseHexWords (ipStr : jstr) : option (list Z) :=
  if bool_decide (ipStr = []) then Some []
  else parseHexWords_loop (split ":" ipStr).

Definition formatHexWords (words : list Z) (start end_ : option Z) : jstr :=
  join (js ":") (toString16 <$> slice words (default 0 start) end_).

Definition parseIPv6Words (ipStr : jstr) : option (list Z) :=
  if negb (bool_decide (is_Some (match_anchored IPV6_REGEX ipStr))) then None
  else
    let idx := indexOf ipStr (js "::") 0 in
    if (idx >=? 0) && (indexOf ipStr (js "::") (idx + 1) >=? 0) then None
    else
      let head := if idx >=? 0 then parseHexWords (slice ipStr 0 (Some idx))
                  else parseHexWords ipStr in
      let tail := if idx >=? 0 then parseHexWords (slice ipStr (idx + 2) None)
                  else Some [] in
      match head, tail with
      | Some head, Some tail =>
          if (idx <? 0) && negb (len head =? 8) then None
          else if (idx >=? 0) && (len head + len tail >? 7) then None
          else Some (head ++ slice IPV6_ZEROS 0 (Some (8 - len head - len tail)) ++ tail)
      | _, _ => None
      end.

(** The state of the loop of [formatIPv6]. *)
Record runs := mkRuns {
  currentRun : Z;
  longestRun : Z;
  start : option Z
}.

Definition formatIPv6_step (words : list Z) (st : runs) (i : nat) : runs :=
  if bool_decide (words !! i = Some 0) then
    let currentRun := currentRun st + 1 in
    if (currentRun >? 1) && (currentRun >? longestRun st)
    then mkRuns currentRun currentRun (Some (Z.of_nat i - currentRun + 1))
    else mkRuns currentRun (longestRun st) (start st)
  else mkRuns 0 (longestRun st) (start st).

Definition formatIPv6_loop (words : list Z) : runs :=
  fold_left (formatIPv6_step words) (seq 0 8) (mkRuns 0 0 None).

Definition formatIPv6 (words : list Z) : jstr :=
  let st := formatIPv6_loop words in
  match start st with
  | None => formatHexWords words None None
  | Some start =>
      formatHexWords words (Some 0) (Some start) ++ js "::" ++
      formatHexWords words (Some (start + longestRun st)) None
  end.

(** [words] has 8 elements when [parseIPv6Words] returns it, so the two
    assignments replace elements 6 and 7. *)
Definition IPv6_parse (string : jstr) : option IPv6 :=
  let index := lastIndexOf string (js ":") in
  if index <? 0 then None
  else
    match parseIPv4Bytes (slice string (index + 1) None) with
    | None =>
        match parseIPv6Words string with
        | None => None
        | Some words => Some (mkIPv6 words)
        end
    | Some bytes =>
        match parseIPv6Words (slice string 0 (Some (index + 1)) ++ js "0:0") with
        | None => None
        | Some words =>
            let words := <[6%nat := item bytes 0 * 256 + item bytes 1]> words in
            let words := <[7%nat := item bytes 2 * 256 + item bytes 3]> words in
            Some (mkIPv6 words)
        end
    end.

Definition IPv6_toString (a : IPv6) : jstr := toLowerCase (formatIPv6 (_words a)).

(** ** The facade [IP] *)

Definition IP_parse (string : jstr) : option IP :=
  match IPv4_parse string with
  | Some a => Some (V4 a)
  | None => V6 <$> IPv6_parse string
  end.

Definition IP_toString (a : IP) : jstr :=
  match a with
  | V4 a => IPv4_toString a
  | V6 a => IPv6_toString a
  end.

(** ** [IPRange.parse] *)

(** [/^([^/]+)\/(\d+)$/]. Its second group is a non-empty string of digits,
    so [Number] of it is a number and the [None] case below is not taken. *)
Definition CIDR_REGEX : regex :=
  Cat (Group (Rep (fun c => negb (Ascii.eqb c "/")) 1 None))
      (Cat (chr "/") (Group (Rep is_digit 1 None))).

Definition IPRange_parse (string : jstr) : completion (option IPRange) :=
  if indexOf string (js "/") 0 >=? 0 then
    match match_anchored CIDR_REGEX string with
    | None => Normal None
    | Some groups =>
        let match_ := string :: groups in
        match IP_parse (default [] (match_ !! 1%nat)) with
        | None => Normal None
        | Some ip =>
            match Number (default [] (match_ !! 2%nat)) with
            | None => Normal None
            | Some bits =>
                if (IP_version ip =? 4) && (bits >? 32) || (IP_version ip =? 6) && (bits >? 128)
                then Normal None
                else Some <$> IP_cidr ip bits
            end
        end
    end
  else if indexOf string (js "-") 0 >=? 0 then
    let pieces := split "-" string in
    if len pieces >? 2 then Normal None
    else
      match IP_parse (default [] (pieces !! 0%nat)), IP_parse (default [] (pieces !! 1%nat)) with
      | Some (V4 first), Some (V4 last) => Some <$> IPRange_new (V4 first) (V4 last)
      | Some (V6 first), Some (V6 last) => Some <$> IPRange_new (V6 first) (V6 last)
      | _, _ => Normal None
      end
  else
    match IP_parse string with
    | Some (V4 ip) => Some <$> IPRange_new (V4 ip) (V4 ip)
    | Some (V6 ip) => Some <$> IPRange_new (V6 ip) (V6 ip)
    | None => Normal None
    end.

(** ** [IPRange.ips]

    The generator's state is its local variable [ip]. A pull either yields an
    address and moves on, or finds the loop condition false and is done. *)

Definition ips_start (r : IPRange) : option IP := Some (IPRange_first r).

Definition ips_pull (r : IPRange) (ip : option IP) : completion (option (IP * option IP)) :=
  match ip with
  | None => Normal None
  | Some a =>
      c ← IP_cmp a (IPRange_last r);
      if c <=? 0 then Normal (Some (a, IP_next a)) else Normal None
  end.

(** The first [n] addresses of the enumeration. *)
Fixpoint ips_take (n : nat) (r : IPRange) (ip : option IP) : completion (list IP) :=
  match n with
  | O => Normal []
  | S n' =>
      x ← ips_pull r ip;
      match x with
      | None => Normal []
      | Some (a, ip') => l ← ips_take n' r ip'; Normal (a :: l)
      end
  end.

(** The whole enumeration, if it ends within [fuel] pulls. *)
Fixpoint ips_all (fuel : nat) (r : IPRange) (ip : option IP) : completion (option (list IP)) :=
  match fuel with
  | O => Normal None
  | S fuel' =>
      x ← ips_pull r ip;
      match x with
      | None => Normal (Some [])
      | Some (a, ip') => l ← ips_all fuel' r ip'; Normal (option_map (cons a) l)
      end
  end.

Definition ips (fuel : nat) (r : IPRange) : completion (option (list IP)) :=
  ips_all fuel r (ips_start r).

(** * Notions of the specification *)

(** Component-wise numeric order: the first component that differs is the
    smaller one on the left. *)
Definition lex_lt (l r : list Z) : Prop :=
  exists (i : nat) (a b : Z),
    take i l = take i r /\ l !! i = Some a /\ r !! i = Some b /\ a < b.

(** The value that [IP_cmp] returns; [2] stands for a throw, which
    [IP_cmp_total] excludes. *)
Definition cmp_value (a b : IP) : Z :=
  match IP_cmp a b with
  | Normal c => c
  | Throw _ => 2
  end.

(** [clamp x lo hi] is [x] brought into the interval from [lo] to [hi]. *)
Definition clamp (x lo hi : Z) : Z := Z.max lo (Z.min x hi).

(** The width [W] of an item and the number [N] of items of an address. *)
Definition item_width (a : IP) : Z := if IP_version a =? 4 then 8 else 16.
Definition item_count (a : IP) : Z := if IP_version a =? 4 then 4 else 8.

(** An address of the version of [a] with the items [l]. *)
Definition with_items (a : IP) (l : list Z) : IP :=
  match a with
  | V4 _ => V4 (mkIPv4 l)
  | V6 _ => V6 (mkIPv6 l)
  end.

(** The words of [ws] at the [n] indices from [s] on are all zero. *)
Definition zero_run (ws : list Z) (s n : nat) : Prop :=
  forall i : nat, (s <= i < s + n)%nat -> ws !! i = Some 0.

(** The run from [s] of length [n] is the longest run of at least two zero
    words, and the leftmost of those of its length. *)
Definition leftmost_longest_run (ws : list Z) (s n : nat) : Prop :=
  zero_run ws s n /\ (2 <= n)%nat /\
  forall s' n' : nat, zero_run ws s' n' -> (n' < n)%nat \/ (n' = n /\ (s <= s')%nat).

(** Lower-case hexadecimal digits, and the characters of a canonical IPv6
    text. *)
Definition lower_hex (c : ascii) : bool := is_digit c || in_range "a" "f" c.
Definition lower_hex_or_colon (c : ascii) : bool := lower_hex c || Ascii.eqb c ":".

(** A numeral without leading zeros. *)
Definition no_leading_zero (s : jstr) : Prop :=
  s = js "0" \/ exists c t, s = c :: t /\ c <> "0"%char.

(** What the loop of [formatIPv6] has established once the words below index
    [k] are read. *)
Definition runs_invariant (ws : list Z) (k : nat) (st : runs) : Prop :=
  (exists c : nat,
      currentRun st = Z.of_nat c /\ (c <= k)%nat /\ zero_run ws (k - c) c /\
      forall s' n' : nat, (s' + n' = k)%nat -> zero_run ws s' n' -> (n' <= c)%nat) /\
  match start st with
  | None =>
      longestRun st = 0 /\
      forall s' n' : nat, (s' + n' <= k)%nat -> zero_run ws s' n' -> (n' < 2)%nat
  | Some s =>
      exists sn n : nat,
        s = Z.of_nat sn /\ longestRun st = Z.of_nat n /\ (2 <= n)%nat /\
        (sn + n <= k)%nat /\ zero_run ws sn n /\
        forall s' n' : nat, (s' + n' <= k)%nat -> zero_run ws s' n' ->
                            (n' < n)%nat \/ (n' = n /\ (sn <= s')%nat)
  end.

(** The number of positions of [s] at which [pat] occurs. *)
Fixpoint occurrences (pat s : jstr) : nat :=
  ((if starts_with pat s then 1 else 0) +
   match s with
   | [] => 0
   | _ :: s' => occurrences pat s'
   end)%nat.

(** The final colon-separated segment of [s], and [s] up to and including
    its final colon. *)
Definition final_segment (s : jstr) : jstr := default [] (last (split ":" s)).

Definition up_to_final_colon (s : jstr) : jstr :=
  take (length s - length (final_segment s)) s.

(** The number that a string of decimal digits denotes. *)
Definition decimal (g : jstr) : Z :=
  fold_left (fun acc c => acc * 10 + (code c - 48)) g 0.

(** A decimal group of an IPv4 literal: one to three digits, at most 255,
    and no leading zero unless the group is the single digit 0. *)
Definition octet_text (g : jstr) : bool :=
  forallb is_digit g && (1 <=? len g) && (len g <=? 3) && (decimal g <=? 255) &&
  match g with
  | c :: _ :: _ => negb (Ascii.eqb c "0")
  | _ => true
  end.

(** The five alternatives of a group. *)
Definition octet_alternatives (g : jstr) : Prop :=
  (exists c3, g = ["2"; "5"; c3]%char /\ in_range "0" "5" c3 = true) \/
  (exists c2 c3, g = ["2"%char; c2; c3] /\ in_range "0" "4" c2 = true /\ is_digit c3 = true) \/
  (exists c2 c3, g = ["1"%char; c2; c3] /\ is_digit c2 = true /\ is_digit c3 = true) \/
  (exists c1 c2, g = [c1; c2] /\ in_range "1" "9" c1 = true /\ is_digit c2 = true) \/
  (exists c, g = [c] /\ is_digit c = true).

(** [s] consists of four dot-separated decimal groups. *)
Definition is_dotted_quad (s : jstr) : bool :=
  (length (split "." s) =? 4)%nat && forallb octet_text (split "." s).

(** Hexadecimal digits of either case, and the characters of an IPv6
    literal. *)
Definition hex_digit (c : ascii) : bool :=
  is_digit c || in_range "a" "f" c || in_range "A" "F" c.

Definition hex_or_colon (c : ascii) : bool := hex_digit c || Ascii.eqb c ":".

(** A word of an IPv6 literal: one to four hexadecimal digits. *)
Definition hex_word (w : jstr) : bool :=
  forallb hex_digit w && (1 <=? len w) && (len w <=? 4).

(** The number that a string of hexadecimal digits denotes. *)
Definition hex_number (w : jstr) : Z :=
  fold_left (fun acc c => acc * 16 + default 0 (hex_value c)) w 0.

(** The colon-separated words of the text before or after a [::]; the empty
    text has none. *)
Definition words (x : jstr) : list jstr :=
  match x with
  | [] => []
  | _ => split ":" x
  end.

(** What the specification says of [successor]: absence at the maximum of
    the family, and otherwise the address whose value is one more. *)
Definition successor_spec (a : IP) : option Z :=
  if value a =? 2 ^ (item_width a * item_count a) - 1 then None else Some (value a + 1).

(** Every colon of [s] is followed by a character that is not a colon. *)
Fixpoint colons_separate (s : jstr) : bool :=
  match s with
  | [] => true
  | c :: s' =>
      (negb (Ascii.eqb c ":") ||
       match s' with
       | [] => false
       | c' :: _ => negb (Ascii.eqb c' ":")
       end) && colons_separate s'
  end.


(** The characters of address literals: hexadecimal digits, the colon and
    the dot. *)
Definition address_char (c : ascii) : bool :=
  hex_digit c || Ascii.eqb c ":" || Ascii.eqb c ".".

(** The invariant of a range: two well-formed addresses of the version of
    the range, the first not above the last. *)
Definition range_ok (r : IPRange) : Prop :=
  wf (IPRange_first r) /\ wf (IPRange_last r) /\
  IP_version (IPRange_first r) = IPRange_version r /\
  IP_version (IPRange_last r) = IPRange_version r /\
  cmp_value (IPRange_first r) (IPRange_last r) <= 0.
(** * Properties *)

Lemma items_ok_spec n top a :
  items_ok n top a = true <-> length a = n /\ Forall (fun x => 0 <= x <= top) a.
Proof.
  unfold items_ok. rewrite andb_true_iff, Nat.eqb_eq, forallb_forall, Forall_forall.
  split; intros [Hl Ha]; split; auto; intros x Hx.
  - apply list_elem_of_In, Ha in Hx. lia.
  - apply list_elem_of_In, Ha in Hx. lia.
Qed.

Lemma wf_length a : wf a -> length (items a) = if IP_version a =? 4 then 4%nat else 8%nat.
Proof. destruct a as [a|a]; intros H; apply items_ok_spec in H; simpl; tauto. Qed.

(** ** The ordinal comparator *)

Section Comparator.

Implicit Types l r : list Z.

Lemma cmp_refl l : cmpSameLengthArrays l l = 0.
Proof. induction l as [|x l IH]; simpl; [|rewrite Z.eqb_refl]; auto. Qed.

Lemma cmp_range l r :
  cmpSameLengthArrays l r = -1 \/ cmpSameLengthArrays l r = 0 \/ cmpSameLengthArrays l r = 1.
Proof.
  revert r; induction l as [|x l IH]; intros [|y r]; simpl; auto.
  destruct (x =? y); simpl; auto. destruct (x <? y); auto.
Qed.

Lemma cmp_zero_eq l r :
  length l = length r -> cmpSameLengthArrays l r = 0 -> l = r.
Proof.
  revert r; induction l as [|x l IH]; intros [|y r] Hlen; simpl in *; try discriminate; auto.
  destruct (Z.eqb_spec x y) as [->|Hne]; simpl.
  - intros H. f_equal. apply IH; auto.
  - destruct (x <? y); discriminate.
Qed.

Lemma cmp_flip l r :
  length l = length r -> cmpSameLengthArrays r l = - cmpSameLengthArrays l r.
Proof.
  revert r; induction l as [|x l IH]; intros [|y r] Hlen; simpl in *; try discriminate; auto.
  destruct (Z.eqb_spec x y) as [->|Hne]; simpl.
  - rewrite Z.eqb_refl. simpl. apply IH. auto.
  - destruct (Z.eqb_spec y x) as [->|_]; [congruence|]. simpl.
    destruct (Z.ltb_spec x y), (Z.ltb_spec y x); lia.
Qed.

Lemma cmp_trans l r t :
  length l = length r -> length r = length t ->
  cmpSameLengthArrays l r <= 0 -> cmpSameLengthArrays r t <= 0 ->
  cmpSameLengthArrays l t <= 0 /\
  (cmpSameLengthArrays l r < 0 \/ cmpSameLengthArrays r t < 0 ->
   cmpSameLengthArrays l t < 0).
Proof.
  revert r t; induction l as [|x l IH]; intros [|y r] [|z t] H1 H2;
    simpl in *; try discriminate; try lia.
  destruct (Z.eqb_spec x y) as [->|Hxy]; simpl.
  - destruct (Z.eqb_spec y z) as [->|Hyz]; simpl.
    + apply IH; auto.
    + destruct (Z.ltb_spec y z); lia.
  - destruct (Z.ltb_spec x y); [|lia]. intros _.
    destruct (Z.eqb_spec y z) as [->|Hyz]; simpl.
    + destruct (Z.eqb_spec x z); [lia|]. simpl. destruct (Z.ltb_spec x z); lia.
    + destruct (Z.ltb_spec y z); [|lia]. intros _.
      destruct (Z.eqb_spec x z); [lia|]. simpl. destruct (Z.ltb_spec x z); lia.
Qed.

Lemma cmp_lex_lt l r :
  length l = length r -> (cmpSameLengthArrays l r = -1 <-> lex_lt l r).
Proof.
  revert r; induction l as [|x l IH]; intros [|y r] Hlen; simpl in *; try discriminate.
  - split; [discriminate|]. intros (i & a & b & _ & H & _). destruct i; discriminate.
  - destruct (Z.eqb_spec x y) as [->|Hxy]; simpl.
    + rewrite IH by lia. split.
      * intros (i & a & b & Ht & Hl & Hr & Hab). exists (S i), a, b. simpl.
        rewrite Ht. auto.
      * intros (i & a & b & Ht & Hl & Hr & Hab). destruct i as [|i]; simpl in *.
        { inversion Hl; inversion Hr; lia. }
        exists i, a, b. inversion Ht. auto.
    + destruct (Z.ltb_spec x y).
      * split; auto. intros _. exists 0%nat, x, y. simpl. auto.
      * split; [discriminate|]. intros (i & a & b & Ht & Hl & Hr & Hab).
        destruct i as [|i]; simpl in *.
        { inversion Hl; inversion Hr; lia. }
        inversion Ht. congruence.
Qed.

Lemma cmp_pointwise_le l r :
  Forall2 Z.le l r -> cmpSameLengthArrays l r <= 0.
Proof.
  induction 1 as [|x y l r Hxy _ IH]; simpl; [lia|].
  destruct (Z.eqb_spec x y); simpl; auto. destruct (Z.ltb_spec x y); lia.
Qed.

End Comparator.

Lemma IP_cmp_same_version a b :
  IP_version a = IP_version b ->
  IP_cmp a b = Normal (cmpSameLengthArrays (items a) (items b)).
Proof. destruct a, b; simpl; intros H; try discriminate; reflexivity. Qed.

Lemma IP_cmp_4_6 a b : IP_version a = 4 -> IP_version b = 6 -> IP_cmp a b = Normal (-1).
Proof. destruct a, b; simpl; intros; try discriminate; reflexivity. Qed.

Lemma IP_cmp_6_4 a b : IP_version a = 6 -> IP_version b = 4 -> IP_cmp a b = Normal 1.
Proof. destruct a, b; simpl; intros; try discriminate; reflexivity. Qed.

Lemma IP_cmp_total a b : exists c, IP_cmp a b = Normal c /\ (c = -1 \/ c = 0 \/ c = 1).
Proof.
  destruct a as [a|a], b as [b|b]; simpl; eexists; split; eauto;
    try apply cmp_range.
Qed.

Lemma items_inj a b : IP_version a = IP_version b -> items a = items b -> a = b.
Proof.
  destruct a as [[a]|[a]], b as [[b]|[b]]; simpl; intros Hv H;
    try discriminate; congruence.
Qed.

Lemma IP_version_cases a : IP_version a = 4 \/ IP_version a = 6.
Proof. destruct a; simpl; auto. Qed.

Lemma cmp_value_eq a b : IP_cmp a b = Normal (cmp_value a b).
Proof. unfold cmp_value. destruct (IP_cmp_total a b) as (c & -> & _). reflexivity. Qed.

Lemma cmp_value_flip a b : wf a -> wf b -> cmp_value b a = - cmp_value a b.
Proof.
  intros Ha Hb.
  pose proof (wf_length a Ha) as La. pose proof (wf_length b Hb) as Lb.
  destruct a as [a|a], b as [b|b]; unfold cmp_value; simpl in *;
    try reflexivity; apply cmp_flip; congruence.
Qed.

Lemma cmp_value_zero a b : wf a -> wf b -> cmp_value a b = 0 -> a = b.
Proof.
  intros Ha Hb.
  pose proof (wf_length a Ha) as La. pose proof (wf_length b Hb) as Lb.
  destruct a as [a|a], b as [b|b]; unfold cmp_value; simpl in *;
    try discriminate; intros H; apply items_inj; try reflexivity;
    apply cmp_zero_eq; auto; simpl; congruence.
Qed.

Lemma cmp_value_trans a b c :
  wf a -> wf b -> wf c ->
  cmp_value a b <= 0 -> cmp_value b c <= 0 ->
  cmp_value a c <= 0 /\ (cmp_value a b < 0 \/ cmp_value b c < 0 -> cmp_value a c < 0).
Proof.
  intros Ha Hb Hc.
  pose proof (wf_length a Ha) as La. pose proof (wf_length b Hb) as Lb.
  pose proof (wf_length c Hc) as Lc.
  destruct a as [a|a], b as [b|b], c as [c|c]; unfold cmp_value; simpl in *;
    try lia; apply cmp_trans; congruence.
Qed.

(** C8: [compareAddress] ([IP.cmp]) is a strict total order on well-formed
    addresses. It never throws and returns -1, 0 or 1; an address compares
    equal to itself; swapping the arguments negates the result; the result is
    0 only for equal addresses; it is transitive; within one version it is
    the component-wise numeric order; every IPv4 address is below every IPv6
    address; and 9.0.0.0 is below 10.0.0.0. *)
Theorem compareAddress_strict_total_order (x y z : IP) :
  wf x -> wf y -> wf z ->
  IP_cmp x x = Normal 0 /\
  (exists c, IP_cmp x y = Normal c /\ IP_cmp y x = Normal (- c) /\
             (c = -1 \/ c = 0 \/ c = 1) /\ (c = 0 <-> x = y)) /\
  (forall c1 c2, IP_cmp x y = Normal c1 -> IP_cmp y z = Normal c2 ->
                 c1 <= 0 -> c2 <= 0 ->
                 exists c3, IP_cmp x z = Normal c3 /\ c3 <= 0 /\
                            (c1 < 0 \/ c2 < 0 -> c3 < 0)) /\
  (IP_version x = IP_version y ->
   (IP_cmp x y = Normal (-1) <-> lex_lt (items x) (items y))) /\
  (IP_version x = 4 -> IP_version y = 6 ->
   IP_cmp x y = Normal (-1) /\ IP_cmp y x = Normal 1) /\
  (a ← IP_parse (js "9.0.0.0"); b ← IP_parse (js "10.0.0.0"); Some (IP_cmp a b))
  = Some (Normal (-1)).
Proof.
  intros Hx Hy Hz.
  pose proof (wf_length x Hx) as Lx. pose proof (wf_length y Hy) as Ly.
  split; [|split; [|split; [|split; [|split]]]].
  - rewrite IP_cmp_same_version by reflexivity. f_equal. apply cmp_refl.
  - exists (cmp_value x y). split; [apply cmp_value_eq|]. split.
    + rewrite <- cmp_value_flip by assumption. apply cmp_value_eq.
    + split.
      * destruct (IP_cmp_total x y) as (c & Hc & Hr). unfold cmp_value. rewrite Hc. exact Hr.
      * split; [apply cmp_value_zero; assumption|]. intros <-.
        unfold cmp_value. rewrite IP_cmp_same_version by reflexivity. apply cmp_refl.
  - intros c1 c2 H1 H2 Hc1 Hc2. exists (cmp_value x z). split; [apply cmp_value_eq|].
    assert (c1 = cmp_value x y) as -> by (unfold cmp_value; rewrite H1; reflexivity).
    assert (c2 = cmp_value y z) as -> by (unfold cmp_value; rewrite H2; reflexivity).
    apply cmp_value_trans; assumption.
  - intros E. rewrite IP_cmp_same_version by assumption.
    rewrite <- cmp_lex_lt by (rewrite Lx, Ly, E; reflexivity).
    split; [congruence|]. intros ->. reflexivity.
  - intros V4x V6y. split; [apply IP_cmp_4_6|apply IP_cmp_6_4]; assumption.
  - vm_compute. reflexivity.
Qed.

Lemma compareAddress_strict_total_order_witness :
  wf (V4 (mkIPv4 [9; 0; 0; 0])) /\ wf (V4 (mkIPv4 [10; 0; 0; 0])) /\
  wf (V6 (mkIPv6 [0; 0; 0; 0; 0; 0; 0; 1])) /\
  IP_cmp (V4 (mkIPv4 [9; 0; 0; 0])) (V4 (mkIPv4 [9; 0; 0; 0])) = Normal 0.
Proof.
  split; [reflexivity|]. split; [reflexivity|]. split; [reflexivity|].
  apply (compareAddress_strict_total_order
           (V4 (mkIPv4 [9; 0; 0; 0])) (V4 (mkIPv4 [10; 0; 0; 0]))
           (V6 (mkIPv6 [0; 0; 0; 0; 0; 0; 0; 1]))); reflexivity.
Defined.

(** ** The constructor of [IPRange] *)

Lemma IPRange_new_throws a b :
  (exists e, IPRange_new a b = Throw e) <-> IP_version a <> IP_version b.
Proof.
  unfold IPRange_new. destruct (Z.eqb_spec (IP_version a) (IP_version b)) as [E|E]; simpl.
  - rewrite cmp_value_eq. simpl. split; [|tauto].
    intros [e He]. destruct (cmp_value a b >? 0); discriminate.
  - split; eauto.
Qed.

Lemma IPRange_new_same_version a b :
  IP_version a = IP_version b ->
  IPRange_new a b =
    Normal (if cmp_value a b >? 0 then mkIPRange b a (IP_version a)
            else mkIPRange a b (IP_version a)).
Proof.
  intros E. unfold IPRange_new. rewrite E, Z.eqb_refl, cmp_value_eq. simpl.
  destruct (cmp_value a b >? 0); reflexivity.
Qed.

(** C10: the constructor of [IPRange] throws exactly when the versions of the
    two addresses differ; for two well-formed addresses of one version the
    range has [first <= last] under [IP.cmp] and both of that version, the
    two being swapped when given in descending order; and
    [parseRange("2.2.3.4-1.2.3.4")] is the range from 1.2.3.4 to 2.2.3.4. *)
Theorem IPRange_constructor_orders (a b : IP) :
  wf a -> wf b ->
  ((exists e, IPRange_new a b = Throw e) <-> IP_version a <> IP_version b) /\
  (IP_version a = IP_version b ->
   exists r c, IPRange_new a b = Normal r /\
     IP_cmp (IPRange_first r) (IPRange_last r) = Normal c /\ c <= 0 /\
     IP_version (IPRange_first r) = IP_version (IPRange_last r) /\
     IPRange_version r = IP_version (IPRange_first r) /\
     (forall d, IP_cmp a b = Normal d ->
                if d >? 0 then IPRange_first r = b /\ IPRange_last r = a
                else IPRange_first r = a /\ IPRange_last r = b)) /\
  (exists r, IPRange_parse (js "2.2.3.4-1.2.3.4") = Normal (Some r) /\
     IP_toString (IPRange_first r) = js "1.2.3.4" /\
     IP_toString (IPRange_last r) = js "2.2.3.4" /\
     Some (IPRange_first r) = IP_parse (js "1.2.3.4") /\
     Some (IPRange_last r) = IP_parse (js "2.2.3.4")).
Proof.
  intros Ha Hb. split; [apply IPRange_new_throws|]. split.
  - intros E. rewrite IPRange_new_same_version by assumption.
    pose proof (cmp_value_flip a b Ha Hb) as Hflip.
    destruct (Z.gtb_spec (cmp_value a b) 0) as [Hgt|Hle].
    + exists (mkIPRange b a (IP_version a)), (cmp_value b a). simpl.
      split; [reflexivity|]. split; [apply cmp_value_eq|]. split; [lia|].
      split; [congruence|]. split; [congruence|].
      intros d Hd. rewrite cmp_value_eq in Hd. inversion Hd; subst d.
      destruct (Z.gtb_spec (cmp_value a b) 0); [auto|lia].
    + exists (mkIPRange a b (IP_version a)), (cmp_value a b). simpl.
      split; [reflexivity|]. split; [apply cmp_value_eq|]. split; [lia|].
      split; [congruence|]. split; [congruence|].
      intros d Hd. rewrite cmp_value_eq in Hd. inversion Hd; subst d.
      destruct (Z.gtb_spec (cmp_value a b) 0); [lia|auto].
  - eexists. split; [vm_compute; reflexivity|]. vm_compute. auto.
Qed.

Lemma IPRange_constructor_orders_witness :
  wf (V4 (mkIPv4 [2; 2; 3; 4])) /\ wf (V4 (mkIPv4 [1; 2; 3; 4])) /\
  ((exists e, IPRange_new (V4 (mkIPv4 [2; 2; 3; 4])) (V4 (mkIPv4 [1; 2; 3; 4])) = Throw e)
   <-> 4 <> 4).
Proof.
  split; [reflexivity|]. split; [reflexivity|].
  apply (IPRange_constructor_orders (V4 (mkIPv4 [2; 2; 3; 4])) (V4 (mkIPv4 [1; 2; 3; 4])));
    reflexivity.
Defined.

(** ** [_next] and [ips] *)

Lemma be_value_snoc w l x : be_value w (l ++ [x]) = be_value w l * 2 ^ w + x.
Proof. unfold be_value. rewrite fold_left_app. reflexivity. Qed.

Lemma item_snoc (l : list Z) x : item (l ++ [x]) (length l) = x.
Proof. unfold item. rewrite lookup_app_r by lia. rewrite Nat.sub_diag. reflexivity. Qed.

Lemma insert_snoc (l : list Z) x y : <[length l := y]> (l ++ [x]) = l ++ [y].
Proof.
  rewrite insert_app_r_alt by lia. rewrite Nat.sub_diag. reflexivity.
Qed.

(** Without a carry the loop adds one to the last item. *)
Lemma next_loop_no_carry top l x :
  x < top -> next_loop top (length (l ++ [x])) (l ++ [x]) = Some (l ++ [x + 1]).
Proof.
  intros Hx. rewrite length_app, Nat.add_1_r. simpl.
  rewrite item_snoc.
  destruct (Z.eqb_spec x top) as [E|_]; [lia|]. simpl.
  destruct (Z.ltb_spec x top) as [_|E]; [|lia].
  rewrite insert_snoc. reflexivity.
Qed.

Lemma successor_without_carry (a : IP) (l : list Z) (x : Z) :
  items a = l ++ [x] ->
  x < (if IP_version a =? 4 then 255 else 65535) ->
  exists a', IP_next a = Some a' /\ IP_version a' = IP_version a /\
             items a' = l ++ [x + 1] /\ value a' = value a + 1.
Proof.
  destruct a as [[a]|[a]]; simpl; intros -> Hx.
  - exists (V4 (mkIPv4 (l ++ [x + 1]))). unfold IPv4_next. simpl.
    rewrite next_loop_no_carry by assumption. simpl.
    rewrite !be_value_snoc. repeat split; lia.
  - exists (V6 (mkIPv6 (l ++ [x + 1]))). unfold IPv6_next. simpl.
    rewrite next_loop_no_carry by assumption. simpl.
    rewrite !be_value_snoc. repeat split; lia.
Qed.


(** ** [mask] and [cidr] *)

Lemma ToInt32_small x : - 2 ^ 31 <= x < 2 ^ 31 -> ToInt32 x = x.
Proof. intros H. unfold ToInt32. rewrite Z.mod_small; lia. Qed.

Section Mask.

Variable W : Z.
Hypothesis HW : W = 8 \/ W = 16.

Lemma item_mask_value : js_shl 1 W - 1 = 2 ^ W - 1.
Proof. destruct HW as [-> | ->]; reflexivity. Qed.

Lemma small_cases lb : 0 <= lb <= W ->
  lb = 0 \/ lb = 1 \/ lb = 2 \/ lb = 3 \/ lb = 4 \/ lb = 5 \/ lb = 6 \/ lb = 7 \/ lb = 8 \/
  lb = 9 \/ lb = 10 \/ lb = 11 \/ lb = 12 \/ lb = 13 \/ lb = 14 \/ lb = 15 \/ lb = 16.
Proof. lia. Qed.

Lemma keep_mask_value lb :
  0 <= lb <= W ->
  js_and (js_shl (2 ^ W - 1) lb) (2 ^ W - 1) = Z.shiftl (Z.ones (W - lb)) lb.
Proof.
  intros Hlb. pose proof (small_cases lb Hlb) as Hc.
  destruct HW as [-> | ->];
    repeat (destruct Hc as [-> | Hc]; [first [reflexivity | lia]|]);
    subst lb; first [reflexivity | lia].
Qed.

Lemma fill_mask_value lb : 0 <= lb <= W -> js_shl 1 lb - 1 = Z.ones lb.
Proof.
  intros Hlb. pose proof (small_cases lb Hlb) as Hc.
  repeat (destruct Hc as [-> | Hc]; [reflexivity|]). subst lb. reflexivity.
Qed.

Lemma leftBits_clamp bits i :
  leftBits bits W i = clamp ((Z.of_nat i + 1) * W - bits) 0 W.
Proof. unfold leftBits, clamp. lia. Qed.

Lemma leftBits_range bits i : 0 <= leftBits bits W i <= W.
Proof. unfold leftBits. lia. Qed.

(** What one iteration of the loop of [mask] makes of the item [x]. *)
Lemma mask_lookup a bits v i :
  mask a bits W v !! i =
    (fun x =>
       js_or (js_and x (js_and (js_shl (2 ^ W - 1) (leftBits bits W i)) (2 ^ W - 1)))
             (v * (js_shl 1 (leftBits bits W i) - 1))) <$> a !! i.
Proof. unfold mask. rewrite list_lookup_imap, item_mask_value. reflexivity. Qed.

Lemma clear_low_bits x lb :
  0 <= lb <= W -> 0 <= x < 2 ^ W ->
  Z.land x (Z.shiftl (Z.ones (W - lb)) lb) = x - x mod 2 ^ lb.
Proof.
  intros Hlb Hx.
  assert (x - x mod 2 ^ lb = Z.shiftl (Z.shiftr x lb) lb) as ->.
  { rewrite Z.shiftl_mul_pow2, Z.shiftr_div_pow2 by lia.
    pose proof (Z.div_mod x (2 ^ lb)). lia. }
  apply Z.bits_inj'. intros j Hj.
  rewrite Z.land_spec, !Z.shiftl_spec by lia.
  destruct (Z.ltb_spec j lb) as [Hlt|Hge].
  - rewrite !(Z.testbit_neg_r _ (j - lb)) by lia. apply andb_false_r.
  - rewrite Z.shiftr_spec by lia. replace (j - lb + lb) with j by lia.
    rewrite Z.testbit_ones by lia.
    destruct (Z.ltb_spec (j - lb) (W - lb)) as [Hlt|Hge'].
    + destruct (Z.leb_spec 0 (j - lb)); [|lia]. apply andb_true_r.
    + rewrite andb_false_r, andb_false_r. symmetry.
      destruct (Z.eq_dec x 0) as [->|Hx0]; [apply Z.testbit_0_l|].
      apply Z.bits_above_log2; [lia|]. apply Z.log2_lt_pow2; [lia|].
      apply Z.lt_le_trans with (2 ^ W); [lia|]. apply Z.pow_le_mono_r; lia.
Qed.

Lemma set_low_bits y lb :
  0 <= lb -> y mod 2 ^ lb = 0 -> Z.lor y (Z.ones lb) = y + (2 ^ lb - 1).
Proof.
  intros Hlb Hy. pose proof (Z.add_lor_land y (Z.ones lb)) as H.
  rewrite Z.land_ones, Hy in H by lia. rewrite Z.ones_equiv in *. lia.
Qed.

Lemma pow2_le_W lb : 0 <= lb <= W -> 0 < 2 ^ lb <= 2 ^ W.
Proof. intros H. split; [lia|]. apply Z.pow_le_mono_r; lia. Qed.

Lemma W_small : 2 ^ W <= 2 ^ 16.
Proof. destruct HW as [-> | ->]; lia. Qed.

Lemma cleared_range x lb :
  0 <= lb <= W -> 0 <= x < 2 ^ W ->
  0 <= x - x mod 2 ^ lb /\ x - x mod 2 ^ lb + (2 ^ lb - 1) < 2 ^ W /\
  (x - x mod 2 ^ lb) mod 2 ^ lb = 0.
Proof.
  intros Hlb Hx. pose proof (pow2_le_W lb Hlb) as Hp.
  pose proof (Z.mod_pos_bound x (2 ^ lb) ltac:(lia)) as Hm.
  pose proof (Z.div_mod x (2 ^ lb) ltac:(lia)) as Hd.
  assert (x - x mod 2 ^ lb = 2 ^ lb * (x / 2 ^ lb)) as E by lia.
  pose proof (Z.mod_le x (2 ^ lb) ltac:(lia) ltac:(lia)) as Hle.
  split; [lia|]. split.
  - assert (2 ^ W = 2 ^ lb * 2 ^ (W - lb)) as EW.
    { rewrite <- Z.pow_add_r by lia. f_equal. lia. }
    assert (x / 2 ^ lb < 2 ^ (W - lb)).
    { apply Z.div_lt_upper_bound; lia. }
    rewrite E, EW. nia.
  - rewrite E, Z.mul_comm. apply Z.mod_mul. lia.
Qed.

(** The two results of the loop body on an item in range. *)
Lemma mask_item_first x lb :
  0 <= lb <= W -> 0 <= x < 2 ^ W ->
  js_or (js_and x (js_and (js_shl (2 ^ W - 1) lb) (2 ^ W - 1))) (0 * (js_shl 1 lb - 1))
  = x - x mod 2 ^ lb.
Proof.
  intros Hlb Hx. pose proof W_small as HWs.
  destruct (cleared_range x lb Hlb Hx) as (H0 & H1 & _).
  pose proof (pow2_le_W lb Hlb) as Hp.
  rewrite keep_mask_value, Z.mul_0_l by assumption. unfold js_and, js_or.
  rewrite (ToInt32_small 0), Z.lor_0_r by lia.
  rewrite (ToInt32_small x) by lia.
  assert (0 <= Z.shiftl (Z.ones (W - lb)) lb < 2 ^ W) as Hm.
  { rewrite Z.shiftl_mul_pow2, Z.ones_equiv by lia.
    assert (2 ^ W = 2 ^ (W - lb) * 2 ^ lb) as EW.
    { rewrite <- Z.pow_add_r by lia. f_equal. lia. }
    assert (0 < 2 ^ (W - lb)) by (apply Z.pow_pos_nonneg; lia). nia. }
  rewrite (ToInt32_small (Z.shiftl _ _)) by lia.
  rewrite clear_low_bits by assumption.
  apply ToInt32_small. lia.
Qed.

Lemma mask_item_last x lb :
  0 <= lb <= W -> 0 <= x < 2 ^ W ->
  js_or (js_and x (js_and (js_shl (2 ^ W - 1) lb) (2 ^ W - 1))) (1 * (js_shl 1 lb - 1))
  = x - x mod 2 ^ lb + (2 ^ lb - 1).
Proof.
  intros Hlb Hx. pose proof W_small as HWs.
  destruct (cleared_range x lb Hlb Hx) as (H0 & H1 & H2).
  pose proof (pow2_le_W lb Hlb) as Hp.
  pose proof (mask_item_first x lb Hlb Hx) as Hf.
  unfold js_or in *. rewrite Z.mul_0_l, (ToInt32_small 0), Z.lor_0_r in Hf by lia.
  rewrite Hf, Z.mul_1_l, fill_mask_value by assumption.
  rewrite (ToInt32_small (Z.ones lb)) by (rewrite Z.ones_equiv; lia).
  apply set_low_bits; [lia|assumption].
Qed.

Lemma cleared_bits x lb j :
  0 <= lb -> 0 <= j ->
  Z.testbit (x - x mod 2 ^ lb) j = Z.testbit x j && (lb <=? j).
Proof.
  intros Hlb Hj.
  assert (x - x mod 2 ^ lb = Z.shiftl (Z.shiftr x lb) lb) as ->.
  { rewrite Z.shiftl_mul_pow2, Z.shiftr_div_pow2 by lia.
    pose proof (Z.div_mod x (2 ^ lb)). lia. }
  rewrite Z.shiftl_spec by lia. destruct (Z.leb_spec lb j).
  - rewrite Z.shiftr_spec by lia. replace (j - lb + lb) with j by lia.
    symmetry. apply andb_true_r.
  - rewrite Z.testbit_neg_r by lia. symmetry. apply andb_false_r.
Qed.

Lemma filled_bits x lb j :
  0 <= lb -> 0 <= j ->
  Z.testbit (x - x mod 2 ^ lb + (2 ^ lb - 1)) j = Z.testbit x j || (j <? lb).
Proof.
  intros Hlb Hj.
  assert (0 < 2 ^ lb) as Hp by (apply Z.pow_pos_nonneg; lia).
  assert ((x - x mod 2 ^ lb) mod 2 ^ lb = 0) as Hm.
  { pose proof (Z.div_mod x (2 ^ lb) ltac:(lia)).
    replace (x - x mod 2 ^ lb) with (x / 2 ^ lb * 2 ^ lb) by lia. apply Z.mod_mul. lia. }
  rewrite <- set_low_bits by assumption.
  rewrite Z.lor_spec, cleared_bits, Z.testbit_ones by lia.
  destruct (Z.leb_spec lb j), (Z.ltb_spec j lb), (Z.leb_spec 0 j); try lia;
    destruct (Z.testbit x j); reflexivity.
Qed.

Lemma mask_spec a bits i x :
  Forall (fun x => 0 <= x <= 2 ^ W - 1) a -> a !! i = Some x ->
  let lb := clamp ((Z.of_nat i + 1) * W - bits) 0 W in
  mask a bits W 0 !! i = Some (x - x mod 2 ^ lb) /\
  mask a bits W 1 !! i = Some (x - x mod 2 ^ lb + (2 ^ lb - 1)).
Proof.
  intros Ha Hi lb. rewrite Forall_lookup in Ha. specialize (Ha i x Hi).
  rewrite !mask_lookup, Hi. simpl. unfold lb. rewrite <- leftBits_clamp.
  pose proof (leftBits_range bits i).
  rewrite mask_item_first, mask_item_last by lia. auto.
Qed.

Lemma mask_length a bits v : length (mask a bits W v) = length a.
Proof. unfold mask. apply length_imap. Qed.

Lemma mask_in_range a bits :
  Forall (fun x => 0 <= x <= 2 ^ W - 1) a ->
  Forall (fun x => 0 <= x <= 2 ^ W - 1) (mask a bits W 0) /\
  Forall (fun x => 0 <= x <= 2 ^ W - 1) (mask a bits W 1) /\
  Forall2 Z.le (mask a bits W 0) (mask a bits W 1).
Proof.
  intros Ha.
  assert (forall i y, mask a bits W 0 !! i = Some y ->
            exists x z, a !! i = Some x /\ mask a bits W 1 !! i = Some z /\
                        0 <= y /\ y <= z /\ z <= 2 ^ W - 1) as Hall.
  { intros i y Hy. destruct (a !! i) as [x|] eqn:Hi.
    - destruct (mask_spec a bits i x Ha Hi) as [H0 H1]. rewrite H0 in Hy.
      inversion Hy; subst y. eexists _, _. split; [reflexivity|]. split; [exact H1|].
      rewrite Forall_lookup in Ha. specialize (Ha i x Hi).
      set (lb := clamp _ _ _). assert (0 <= lb <= W) by (unfold lb, clamp; lia).
      destruct (cleared_range x lb) as (? & ? & ?); [lia..|].
      pose proof (pow2_le_W lb). lia.
    - rewrite mask_lookup, Hi in Hy. discriminate. }
  split; [|split].
  - apply Forall_lookup. intros i y Hy. destruct (Hall i y Hy) as (x & z & _ & _ & ? & ? & ?). lia.
  - apply Forall_lookup. intros i z Hz.
    destruct (mask a bits W 0 !! i) as [y|] eqn:Hy.
    + destruct (Hall i y Hy) as (x & z' & _ & Hz' & ? & ? & ?). rewrite Hz in Hz'.
      inversion Hz'; subst. lia.
    + apply lookup_ge_None in Hy. rewrite mask_length in Hy.
      apply lookup_lt_Some in Hz. rewrite mask_length in Hz. lia.
  - apply Forall2_same_length_lookup. split; [rewrite !mask_length; reflexivity|].
    intros i y z Hy Hz. destruct (Hall i y Hy) as (x & z' & _ & Hz' & ? & ? & ?).
    rewrite Hz in Hz'. inversion Hz'; subst. lia.
Qed.

End Mask.

Lemma item_width_cases a : item_width a = 8 \/ item_width a = 16.
Proof. destruct a; simpl; auto. Qed.

Lemma wf_items a :
  wf a <-> length (items a) = Z.to_nat (item_count a) /\
           Forall (fun x => 0 <= x <= 2 ^ item_width a - 1) (items a).
Proof. destruct a as [a|a]; simpl; unfold wf4, wf6; rewrite items_ok_spec; reflexivity. Qed.

Lemma wf_with_items a l :
  length l = Z.to_nat (item_count a) ->
  Forall (fun x => 0 <= x <= 2 ^ item_width a - 1) l ->
  wf (with_items a l).
Proof. intros Hl Hr. apply wf_items. destruct a; simpl in *; auto. Qed.

Lemma IP_cidr_value a bits :
  wf a ->
  IP_cidr a bits =
    Normal (mkIPRange (with_items a (mask (items a) bits (item_width a) 0))
                      (with_items a (mask (items a) bits (item_width a) 1))
                      (IP_version a)).
Proof.
  intros Ha. apply wf_items in Ha as [Hl Hr].
  destruct (mask_in_range _ (item_width_cases a) (items a) bits Hr) as (_ & _ & Hle).
  apply cmp_pointwise_le in Hle.
  destruct a as [a|a]; unfold item_width in *; simpl in *; unfold IPv4_cidr, IPv6_cidr;
    rewrite IPRange_new_same_version by reflexivity; unfold cmp_value; simpl;
    unfold IPv4_cmp, IPv6_cmp; simpl;
    match goal with |- context [ ?c >? 0 ] => destruct (Z.gtb_spec c 0) end;
    first [lia | reflexivity].
Qed.

(** C7: for a well-formed address and a prefix length from 0 to [W * N],
    [cidr] returns the range whose first address has, in each item [i], the
    low [clamp ((i + 1) * W - bits) 0 W] bits cleared and whose last address
    has them set, all other bits being those of the address; and the /49 of
    1:2:3:ffff:5:6:7:8 goes from 1:2:3:8000:: to
    1:2:3:ffff:ffff:ffff:ffff:ffff. *)
Theorem cidr_clears_and_sets_host_bits (a : IP) (bits : Z) :
  wf a -> 0 <= bits <= item_width a * item_count a ->
  (exists first last,
      IP_cidr a bits = Normal (mkIPRange first last (IP_version a)) /\
      wf first /\ wf last /\
      IP_version first = IP_version a /\ IP_version last = IP_version a /\
      forall (i : nat) (x : Z), items a !! i = Some x ->
        let lb := clamp ((Z.of_nat i + 1) * item_width a - bits) 0 (item_width a) in
        exists f l,
          items first !! i = Some f /\ items last !! i = Some l /\
          f = x - x mod 2 ^ lb /\ l = f + (2 ^ lb - 1) /\
          forall j, 0 <= j ->
            Z.testbit f j = Z.testbit x j && (lb <=? j) /\
            Z.testbit l j = Z.testbit x j || (j <? lb)) /\
  (a ← IP_parse (js "1:2:3:ffff:5:6:7:8");
   Some ((fun r => (IP_toString (IPRange_first r), IP_toString (IPRange_last r)))
           <$> IP_cidr a 49))
  = Some (Normal (js "1:2:3:8000::", js "1:2:3:ffff:ffff:ffff:ffff:ffff")).
Proof.
  intros Ha Hbits. split; [|vm_compute; reflexivity].
  rewrite IP_cidr_value by assumption. eexists _, _. split; [reflexivity|].
  pose proof Ha as Ha'. apply wf_items in Ha' as [Hl Hr].
  pose proof (item_width_cases a) as HW.
  destruct (mask_in_range _ HW (items a) bits Hr) as (H0 & H1 & _).
  split; [apply wf_with_items; [rewrite mask_length|]; assumption|].
  split; [apply wf_with_items; [rewrite mask_length|]; assumption|].
  split; [destruct a; reflexivity|]. split; [destruct a; reflexivity|].
  intros i x Hi lb.
  destruct (mask_spec _ HW (items a) bits i x Hr Hi) as [Hf Hlast]. fold lb in Hf, Hlast.
  assert (0 <= lb) by (unfold lb, clamp; lia).
  exists (x - x mod 2 ^ lb), (x - x mod 2 ^ lb + (2 ^ lb - 1)).
  split; [destruct a; exact Hf|]. split; [destruct a; exact Hlast|].
  split; [reflexivity|]. split; [reflexivity|].
  intros j Hj. split; [apply cleared_bits|apply filled_bits]; assumption.
Qed.

Lemma cidr_clears_and_sets_host_bits_witness :
  wf (V4 (mkIPv4 [1; 2; 3; 255])) /\ 0 <= 25 <= 8 * 4 /\
  exists first last,
    IP_cidr (V4 (mkIPv4 [1; 2; 3; 255])) 25 = Normal (mkIPRange first last 4) /\
    items first = [1; 2; 3; 128] /\ items last = [1; 2; 3; 255].
Proof.
  split; [reflexivity|]. split; [lia|].
  destruct (cidr_clears_and_sets_host_bits (V4 (mkIPv4 [1; 2; 3; 255])) 25) as [H _];
    [reflexivity | unfold item_width, item_count; simpl; lia |].
  destruct H as (first & last & Hc & _). exists first, last.
  split; [exact Hc|]. vm_compute in Hc. inversion Hc. split; reflexivity.
Defined.

(** ** [_next] with a carry *)

Lemma next_loop_S top i a :
  next_loop top (S i) a =
    if (item a i =? top) && (Z.of_nat i =? 0) then None
    else if item a i <? top then Some (<[i := item a i + 1]> a)
         else next_loop top i
                (match i with
                 | O => <[i := 0]> a
                 | S j => <[j := item (<[i := 0]> a) j + 1]> (<[i := 0]> a)
                 end).
Proof. reflexivity. Qed.

Section Carry.

Variable w : Z.
Hypothesis Hw : 0 <= w.

Local Abbreviation B := (2 ^ w).
Local Abbreviation T := (2 ^ w - 1).

Lemma B_pos : 1 <= B.
Proof. pose proof (Z.pow_pos_nonneg 2 w). lia. Qed.

Lemma fold_value_acc (r : list Z) acc :
  fold_left (fun acc x => acc * 2 ^ w + x) r acc
  = acc * B ^ Z.of_nat (length r) + be_value w r.
Proof.
  unfold be_value. revert acc; induction r as [|x r IH]; intros acc.
  - simpl. lia.
  - simpl fold_left. rewrite IH, (IH (0 * 2 ^ w + x)).
    rewrite length_cons, Nat2Z.inj_succ, Z.pow_succ_r by lia. lia.
Qed.

Lemma be_value_app (l r : list Z) :
  be_value w (l ++ r) = be_value w l * B ^ Z.of_nat (length r) + be_value w r.
Proof. unfold be_value at 1. rewrite fold_left_app. apply fold_value_acc. Qed.

Lemma be_value_zeros k : be_value w (replicate k 0) = 0.
Proof.
  induction k as [|k IH]; [reflexivity|].
  change (replicate (S k) 0) with ([0] ++ replicate k 0). rewrite be_value_app, IH.
  unfold be_value. simpl. lia.
Qed.

Lemma be_value_mid (l : list Z) y k :
  be_value w (l ++ y :: replicate k 0) = (be_value w l * B + y) * B ^ Z.of_nat k.
Proof.
  change (y :: replicate k 0) with ([y] ++ replicate k 0).
  rewrite (app_assoc l [y]), be_value_app, be_value_zeros, length_replicate, be_value_snoc.
  lia.
Qed.

Lemma be_value_range (l : list Z) :
  Forall (fun x => 0 <= x <= T) l -> 0 <= be_value w l <= B ^ Z.of_nat (length l) - 1.
Proof.
  pose proof B_pos. induction l as [|x l IH] using rev_ind; intros Hl.
  - unfold be_value. simpl. lia.
  - apply Forall_app in Hl as [Hl Hx]. apply Forall_cons in Hx as [Hx _].
    specialize (IH Hl). rewrite be_value_snoc, length_app, Nat.add_1_r, Nat2Z.inj_succ,
      Z.pow_succ_r by lia. nia.
Qed.

(** The loop after a carry into index [length pre]: the item there is
    already one more than it was, and the [k] items to its right are zero.
    Either the loop returns null although an item to the left was below its
    maximum, or the array it returns is zero or exceeds the successor. *)
Lemma carry_phase (pre : list Z) (y : Z) (k : nat) :
  1 <= y <= T + 1 -> Forall (fun x => 0 <= x <= T) pre ->
  match next_loop T (S (length pre)) (pre ++ y :: replicate k 0) with
  | None => be_value w (pre ++ [y - 1]) < B ^ Z.of_nat (S (length pre)) - 1
  | Some a' =>
      be_value w a' = 0 \/
      (be_value w (pre ++ [y - 1]) + 2) * B ^ Z.of_nat k <= be_value w a'
  end.
Proof.
  pose proof B_pos as HB.
  revert y k; induction pre as [|x pre IH] using rev_ind; intros y k Hy Hpre.
  - simpl length. rewrite next_loop_S. unfold item. simpl lookup. simpl default.
    change (Z.of_nat 0 =? 0) with true. rewrite andb_true_r.
    destruct (Z.eqb_spec y T) as [->|Hne].
    + rewrite be_value_snoc. unfold be_value. simpl. rewrite Z.pow_1_r. lia.
    + destruct (Z.ltb_spec y T) as [Hlt|Hge].
      * right. pose proof (be_value_mid [] (y + 1) k) as Hm. simpl app in Hm.
        simpl. rewrite Hm. unfold be_value. simpl. lia.
      * left. simpl. apply (be_value_zeros (S k)).
  - apply Forall_app in Hpre as [Hpre Hx]. apply Forall_cons in Hx as [Hx _].
    rewrite length_app, Nat.add_1_r. rewrite next_loop_S.
    assert (item ((pre ++ [x]) ++ y :: replicate k 0) (S (length pre)) = y) as Ey.
    { unfold item. rewrite lookup_app_r by (rewrite length_app; simpl; lia).
      rewrite length_app, Nat.add_1_r, Nat.sub_diag. reflexivity. }
    rewrite Ey.
    replace (Z.of_nat (S (length pre)) =? 0) with false by (symmetry; apply Z.eqb_neq; lia).
    rewrite andb_false_r.
    assert (length (pre ++ [x]) = S (length pre)) as El by (rewrite length_app; simpl; lia).
    destruct (Z.ltb_spec y T) as [Hlt|Hge].
    + right. rewrite insert_app_r_alt by lia. rewrite El, Nat.sub_diag. simpl insert.
      rewrite be_value_mid, !(be_value_snoc w (pre ++ [x])). lia.
    + assert (<[S (length pre) := 0]> ((pre ++ [x]) ++ y :: replicate k 0)
              = pre ++ x :: 0 :: replicate k 0) as ->.
      { rewrite insert_app_r_alt by lia. rewrite El, Nat.sub_diag. simpl.
        rewrite <- app_assoc. reflexivity. }
      assert (item (pre ++ x :: 0 :: replicate k 0) (length pre) = x) as ->.
      { unfold item. rewrite lookup_app_r by lia. rewrite Nat.sub_diag. reflexivity. }
      assert (<[length pre := x + 1]> (pre ++ x :: 0 :: replicate k 0)
              = pre ++ x + 1 :: 0 :: replicate k 0) as ->.
      { rewrite insert_app_r_alt by lia. rewrite Nat.sub_diag. reflexivity. }
      specialize (IH (x + 1) (S k) ltac:(lia) Hpre). simpl replicate in IH.
      replace (x + 1 - 1) with x in IH by lia.
      rewrite !(be_value_snoc w (pre ++ [x])).
      assert (Forall (fun x => 0 <= x <= T) (pre ++ [x])) as Hpx.
      { apply Forall_app. split; [exact Hpre|]. constructor; [exact Hx|constructor]. }
      pose proof (be_value_range (pre ++ [x]) Hpx) as Hr.
      rewrite El in Hr.
      destruct (next_loop T (S (length pre)) (pre ++ x + 1 :: 0 :: replicate k 0)) as [a'|].
      * destruct IH as [IH|IH]; [left; exact IH|right].
        rewrite Nat2Z.inj_succ, Z.pow_succ_r in IH by lia.
        assert (0 < B ^ Z.of_nat k) by (apply Z.pow_pos_nonneg; lia). nia.
      * rewrite (Nat2Z.inj_succ (S (length pre))), Z.pow_succ_r by lia.
        nia.
Qed.

(** With the last item at its maximum the loop never gives the successor. *)
Lemma next_loop_carry (l : list Z) (x : Z) :
  Forall (fun x => 0 <= x <= T) (l ++ [x]) ->
  match next_loop T (length (l ++ [x; T])) (l ++ [x; T]) with
  | None => be_value w (l ++ [x; T]) <> B ^ Z.of_nat (length (l ++ [x; T])) - 1
  | Some a' => be_value w a' <> be_value w (l ++ [x; T]) + 1
  end.
Proof.
  pose proof B_pos as HB. intros Ha. pose proof (be_value_range _ Ha) as Hr.
  pose proof Ha as Ha'. apply Forall_app in Ha' as [Hl Hx]. apply Forall_cons in Hx as [Hx _].
  rewrite length_app. simpl length. replace (length l + 2)%nat with (S (S (length l))) by lia.
  rewrite next_loop_S.
  assert (item (l ++ [x; T]) (S (length l)) = T) as ET.
  { unfold item. rewrite lookup_app_r by lia.
    replace (S (length l) - length l)%nat with 1%nat by lia. reflexivity. }
  rewrite ET, Z.eqb_refl.
  replace (Z.of_nat (S (length l)) =? 0) with false by (symmetry; apply Z.eqb_neq; lia).
  cbn [andb]. rewrite Z.ltb_irrefl.
  assert (<[S (length l) := 0]> (l ++ [x; T]) = l ++ [x; 0]) as ->.
  { rewrite insert_app_r_alt by lia.
    replace (S (length l) - length l)%nat with 1%nat by lia. reflexivity. }
  assert (item (l ++ [x; 0]) (length l) = x) as ->.
  { unfold item. rewrite lookup_app_r by lia. rewrite Nat.sub_diag. reflexivity. }
  assert (<[length l := x + 1]> (l ++ [x; 0]) = l ++ [x + 1; 0]) as ->.
  { rewrite insert_app_r_alt by lia. rewrite Nat.sub_diag. reflexivity. }
  pose proof (carry_phase l (x + 1) 1 ltac:(lia) Hl) as Hc. simpl replicate in Hc.
  replace (x + 1 - 1) with x in Hc by lia.
  change (l ++ [x; T]) with (l ++ [x] ++ [T]). rewrite app_assoc, !be_value_snoc.
  rewrite length_app, Nat.add_1_r in Hr. rewrite be_value_snoc in Hr, Hc.
  destruct (next_loop T (S (length l)) (l ++ [x + 1; 0])) as [a'|].
  - rewrite Z.pow_1_r in Hc. destruct Hc as [Hc|Hc]; nia.
  - rewrite (Nat2Z.inj_succ (S (length l))), Z.pow_succ_r by lia. nia.
Qed.

End Carry.

(** The loop gives the successor exactly when the last item is below its
    maximum. *)
Lemma next_loop_correct_iff w (l : list Z) (x z : Z) :
  0 <= w -> Forall (fun x => 0 <= x <= 2 ^ w - 1) (l ++ [x; z]) ->
  (be_value w <$> next_loop (2 ^ w - 1) (length (l ++ [x; z])) (l ++ [x; z])
   = if be_value w (l ++ [x; z]) =? (2 ^ w) ^ Z.of_nat (length (l ++ [x; z])) - 1
     then None else Some (be_value w (l ++ [x; z]) + 1))
  <-> z < 2 ^ w - 1.
Proof.
  intros Hw Ha. pose proof (B_pos w Hw) as HB.
  change (l ++ [x; z]) with (l ++ [x] ++ [z]) in *. rewrite app_assoc in *.
  pose proof Ha as Ha'. apply Forall_app in Ha' as [Hlx Hz]. apply Forall_cons in Hz as [Hz _].
  pose proof (be_value_range w Hw _ Hlx) as Hr.
  destruct (Z.eq_dec z (2 ^ w - 1)) as [->|Hne].
  - split; [|lia]. intros E. exfalso. rewrite <- app_assoc in E.
    pose proof (next_loop_carry w Hw l x Hlx) as Hc. simpl app in E.
    destruct (next_loop _ _ _) as [a'|]; simpl in E.
    + destruct (_ =? _); [discriminate E|]. inversion E. lia.
    + destruct (Z.eqb_spec (be_value w (l ++ [x; 2 ^ w - 1]))
                  ((2 ^ w) ^ Z.of_nat (length (l ++ [x; 2 ^ w - 1])) - 1));
        [contradiction|discriminate E].
  - split; [lia|]. intros _. rewrite next_loop_no_carry by lia. simpl.
    rewrite !(be_value_snoc w (l ++ [x])). rewrite (length_app _ [z]), Nat.add_1_r, Nat2Z.inj_succ,
      Z.pow_succ_r by lia.
    destruct (Z.eqb_spec (be_value w (l ++ [x]) * 2 ^ w + z)
                (2 ^ w * (2 ^ w) ^ Z.of_nat (length (l ++ [x])) - 1)) as [E|_].
    + assert (be_value w (l ++ [x]) * 2 ^ w
              <= ((2 ^ w) ^ Z.of_nat (length (l ++ [x])) - 1) * 2 ^ w)
        by (apply Z.mul_le_mono_nonneg_r; lia).
      lia.
    + f_equal. lia.
Qed.

(** Whether [_next] gives what the specification says of [successor]. *)
Lemma successor_correct_iff (a : IP) :
  wf a ->
  (value <$> IP_next a = successor_spec a) <->
  item (items a) (length (items a) - 1) < 2 ^ item_width a - 1.
Proof.
  intros Ha. apply wf_items in Ha as [Hl Hr]. unfold successor_spec.
  destruct a as [[a]|[a]]; unfold item_width, item_count in *; simpl in Hl, Hr.
  - destruct a as [|b0 [|b1 [|b2 [|b3 [|]]]]]; try discriminate Hl.
    pose proof (next_loop_correct_iff 8 [b0; b1] b2 b3 ltac:(lia) Hr) as H.
    change ((2 ^ 8) ^ Z.of_nat (length ([b0; b1] ++ [b2; b3]))) with (2 ^ (8 * 4)) in H.
    change (2 ^ 8 - 1) with 255 in H. change ([b0; b1] ++ [b2; b3]) with [b0; b1; b2; b3] in H.
    unfold IP_next, IPv4_next. cbn [IP_version items value _bytes Z.eqb].
    change (2 ^ 8 - 1) with 255.
    destruct (next_loop 255 _ _) as [r|]; exact H.
  - destruct a as [|w0 [|w1 [|w2 [|w3 [|w4 [|w5 [|w6 [|w7 [|]]]]]]]]]; try discriminate Hl.
    pose proof (next_loop_correct_iff 16 [w0; w1; w2; w3; w4; w5] w6 w7 ltac:(lia) Hr) as H.
    change ((2 ^ 16) ^ Z.of_nat (length ([w0; w1; w2; w3; w4; w5] ++ [w6; w7])))
      with (2 ^ (16 * 8)) in H.
    change (2 ^ 16 - 1) with 65535 in H.
    change ([w0; w1; w2; w3; w4; w5] ++ [w6; w7]) with [w0; w1; w2; w3; w4; w5; w6; w7] in H.
    unfold IP_next, IPv6_next. cbn [IP_version items value _words Z.eqb].
    change (2 ^ 16 - 1) with 65535.
    destruct (next_loop 65535 _ _) as [r|]; exact H.
Qed.

(** C1 (the code departs from the specification): when the last item is at
    its maximum, the loop of [_next] adds the carry to the item on the left
    and then, in the next iteration, increments that item once more. The
    successor of 1.2.3.255 is 1.2.5.0 and not 1.2.4.0; that of
    254.255.255.255 is null although the address is not the maximum; that of
    255.255.255.255 is 0.0.0.0; and the same holds of the IPv6 loop. *)
Theorem successor_carries_twice :
  (a ← IP_parse (js "1.2.3.255"); Some (IP_toString <$> IP_next a))
    = Some (Some (js "1.2.5.0")) /\
  (a ← IP_parse (js "1.2.3.255"); b ← IP_parse (js "1.2.5.0"); Some (value b - value a))
    = Some 257 /\
  (a ← IP_parse (js "254.255.255.255"); Some (IP_next a)) = Some None /\
  (a ← IP_parse (js "255.255.255.255"); Some (IP_toString <$> IP_next a))
    = Some (Some (js "0.0.0.0")) /\
  (a ← IP_parse (js "::ffff"); Some (IP_toString <$> IP_next a))
    = Some (Some (js "::2:0")) /\
  (a ← IP_parse (js "fffe:ffff:ffff:ffff:ffff:ffff:ffff:ffff"); Some (IP_next a))
    = Some None /\
  (a ← IP_parse (js "ffff:ffff:ffff:ffff:ffff:ffff:ffff:ffff");
   Some (IP_toString <$> IP_next a)) = Some (Some (js "::")).
Proof. vm_compute. repeat split; reflexivity. Qed.

(** C2 (the code departs from the specification): the enumeration follows
    [_next], so a carry skips addresses. The range 1.2.3.254-1.2.4.1 yields 1.2.3.254
    and 1.2.3.255 and ends, without 1.2.4.0 and 1.2.4.1, which lie in it;
    the one-address range 1.2.3.4-1.2.3.4 yields that address alone, but the
    one-address range 255.255.255.255 goes on with 0.0.0.0 and 0.0.0.1. *)
Theorem ips_follows_faulty_successor :
  (exists r x,
      IPRange_parse (js "1.2.3.254-1.2.4.1") = Normal (Some r) /\
      (IP_toString (IPRange_first r), IP_toString (IPRange_last r))
        = (js "1.2.3.254", js "1.2.4.1") /\
      ips 5 r = Normal (Some [V4 (mkIPv4 [1; 2; 3; 254]); V4 (mkIPv4 [1; 2; 3; 255])]) /\
      IP_parse (js "1.2.4.0") = Some x /\
      IP_cmp (IPRange_first r) x = Normal (-1) /\
      IP_cmp x (IPRange_last r) = Normal (-1)) /\
  (exists r,
      IPRange_parse (js "1.2.3.4-1.2.3.4") = Normal (Some r) /\
      ips 5 r = Normal (Some [V4 (mkIPv4 [1; 2; 3; 4])])) /\
  (exists r,
      IPRange_parse (js "255.255.255.255") = Normal (Some r) /\
      IPRange_first r = IPRange_last r /\
      ips_take 3 r (ips_start r) =
        Normal [V4 (mkIPv4 [255; 255; 255; 255]); V4 (mkIPv4 [0; 0; 0; 0]);
                V4 (mkIPv4 [0; 0; 0; 1])]).
Proof.
  split; [|split].
  - eexists _, _. split; [vm_compute; reflexivity|]. vm_compute. repeat split; reflexivity.
  - eexists. split; [vm_compute; reflexivity|]. vm_compute. reflexivity.
  - eexists. split; [vm_compute; reflexivity|]. vm_compute. split; reflexivity.
Qed.

(** ** Slices *)

Lemma len_nonneg {A} (l : list A) : 0 <= len l.
Proof. unfold len. lia. Qed.

Lemma slice_prefix {A} (l : list A) e :
  0 <= e -> slice l 0 (Some e) = take (Z.to_nat e) l.
Proof.
  intros He. unfold slice. simpl. pose proof (len_nonneg l).
  destruct (Z.ltb_spec e 0); [lia|]. rewrite (Z.min_l 0) by lia. simpl.
  rewrite Z.sub_0_r. unfold len.
  destruct (Z.le_ge_cases e (Z.of_nat (length l))).
  - rewrite Z.min_l by lia. reflexivity.
  - rewrite Z.min_r, Nat2Z.id by lia. rewrite !take_ge; auto; lia.
Qed.

Lemma slice_suffix {A} (l : list A) s :
  0 <= s -> slice l s None = drop (Z.to_nat s) l.
Proof.
  intros Hs. unfold slice. simpl. pose proof (len_nonneg l). unfold len in *.
  destruct (Z.ltb_spec s 0); [lia|]. destruct (Z.ltb_spec (Z.of_nat (length l)) 0); [lia|].
  rewrite (Z.min_l (Z.of_nat (length l))) by lia.
  destruct (Z.le_ge_cases s (Z.of_nat (length l))).
  - rewrite Z.min_l by lia. apply take_ge. rewrite length_drop. lia.
  - rewrite Z.min_r, Nat2Z.id by lia. rewrite !drop_ge by lia. apply take_nil.
Qed.

Lemma slice_all {A} (l : list A) : slice l 0 None = l.
Proof. rewrite slice_suffix by lia. reflexivity. Qed.

(** ** Hexadecimal numerals *)

Lemma hex_digit_cases d : 0 <= d < 16 ->
  d = 0 \/ d = 1 \/ d = 2 \/ d = 3 \/ d = 4 \/ d = 5 \/ d = 6 \/ d = 7 \/ d = 8 \/
  d = 9 \/ d = 10 \/ d = 11 \/ d = 12 \/ d = 13 \/ d = 14 \/ d = 15.
Proof. lia. Qed.

Ltac hex_digit_cases d H :=
  let Hc := fresh in
  pose proof (hex_digit_cases d H) as Hc;
  repeat (destruct Hc as [-> | Hc]; [|]); [..|subst d].

Lemma hex_char_value d : 0 <= d < 16 -> hex_value (hex_char d) = Some d.
Proof. intros H. hex_digit_cases d H; reflexivity. Qed.

Lemma hex_char_lower d : 0 <= d < 16 -> lower_hex (hex_char d) = true.
Proof. intros H. hex_digit_cases d H; reflexivity. Qed.

Lemma hex_char_zero d : 0 <= d < 16 -> hex_char d = "0"%char -> d = 0.
Proof. intros H. hex_digit_cases d H; intros E; first [reflexivity | discriminate E]. Qed.

Lemma toString16_loop_lower fuel n :
  0 <= n -> Forall (fun c => lower_hex c = true) (toString16_loop fuel n).
Proof.
  revert n; induction fuel as [|fuel IH]; intros n Hn; simpl; [constructor|].
  destruct (Z.ltb_spec n 16).
  - repeat constructor. apply hex_char_lower. lia.
  - apply Forall_app. split.
    + apply IH. apply Z.div_pos; lia.
    + repeat constructor. apply hex_char_lower. apply Z.mod_pos_bound. lia.
Qed.

Lemma lower_hex_value c : lower_hex c = true -> exists d, hex_value c = Some d /\ 0 <= d < 16.
Proof.
  unfold lower_hex, hex_value, is_digit, in_range, code, Ascii.leb.
  destruct c as [[] [] [] [] [] [] [] []]; simpl; intros H; try discriminate H;
    eexists; (split; [reflexivity|lia]).
Qed.

Lemma parseInt16_loop_snoc acc s c d :
  Forall (fun c => lower_hex c = true) s -> hex_value c = Some d ->
  parseInt16_loop acc (s ++ [c]) = parseInt16_loop acc s * 16 + d.
Proof.
  intros Hs Hc. revert acc; induction Hs as [|x s Hx _ IH]; intros acc; simpl.
  - rewrite Hc. reflexivity.
  - destruct (lower_hex_value x Hx) as (dx & -> & _). apply IH.
Qed.

Lemma toString16_loop_value fuel n :
  0 <= n < 16 ^ Z.of_nat fuel -> parseInt16_loop 0 (toString16_loop fuel n) = n.
Proof.
  revert n; induction fuel as [|fuel IH]; intros n Hn.
  - simpl in *. lia.
  - simpl toString16_loop. destruct (Z.ltb_spec n 16).
    + simpl. rewrite hex_char_value by lia. lia.
    + rewrite parseInt16_loop_snoc with (d := n mod 16).
      * rewrite IH; [pose proof (Z.div_mod n 16); lia|].
        split; [apply Z.div_pos; lia|]. apply Z.div_lt_upper_bound; [lia|].
        rewrite Nat2Z.inj_succ, Z.pow_succ_r in Hn by lia. lia.
      * apply toString16_loop_lower. apply Z.div_pos; lia.
      * apply hex_char_value. apply Z.mod_pos_bound. lia.
Qed.

Lemma toString16_loop_head fuel n :
  0 <= n < 16 ^ Z.of_nat (S fuel) ->
  exists c t, toString16_loop (S fuel) n = c :: t /\ (0 < n -> c <> "0"%char) /\
              (n = 0 -> c = "0"%char /\ t = []).
Proof.
  revert n; induction fuel as [|fuel IH]; intros n Hn.
  - simpl in *. destruct (Z.ltb_spec n 16); [|lia].
    eexists _, _. split; [reflexivity|]. split.
    + intros Hpos E. apply hex_char_zero in E; lia.
    + intros ->. split; reflexivity.
  - remember (S fuel) as f. simpl. destruct (Z.ltb_spec n 16).
    + eexists _, _. split; [reflexivity|]. split.
      * intros Hpos E. apply hex_char_zero in E; lia.
      * intros ->. split; reflexivity.
    + subst f. destruct (IH (n / 16)) as (c & t & E & Hc & _).
      { split; [apply Z.div_pos; lia|]. apply Z.div_lt_upper_bound; [lia|].
        rewrite (Nat2Z.inj_succ (S fuel)), Z.pow_succ_r in Hn by lia. lia. }
      rewrite E. eexists _, _. split; [reflexivity|]. split; [|lia].
      intros _. apply Hc. apply Z.div_str_pos. lia.
Qed.

Lemma toString16_fuel n : 0 <= n -> n < 16 ^ Z.of_nat (S (Z.to_nat (Z.log2 n))).
Proof.
  intros Hn. rewrite Nat2Z.inj_succ, Z2Nat.id by apply Z.log2_nonneg.
  destruct (Z.eq_dec n 0) as [->|Hne]; [simpl; lia|].
  pose proof (Z.log2_spec n ltac:(lia)) as [_ Hlt].
  apply Z.lt_le_trans with (1 := Hlt).
  apply Z.pow_le_mono_l. lia.
Qed.

(** [toString(16)] writes [n] in lower-case digits, without leading zeros. *)
Lemma toString16_spec n :
  0 <= n ->
  parseInt16 (toString16 n) = Some n /\ no_leading_zero (toString16 n) /\
  Forall (fun c => lower_hex c = true) (toString16 n).
Proof.
  intros Hn. unfold toString16. pose proof (toString16_fuel n Hn) as Hf.
  destruct (toString16_loop_head _ n (conj Hn Hf)) as (c & t & E & Hpos & Hzero).
  pose proof (toString16_loop_lower (S (Z.to_nat (Z.log2 n))) n Hn) as Hl.
  pose proof (toString16_loop_value _ n (conj Hn Hf)) as Hv.
  split; [|split; [|exact Hl]].
  - unfold parseInt16. rewrite E in *. pose proof Hl as Hl'.
    apply Forall_cons in Hl' as [Hc _].
    destruct (lower_hex_value c Hc) as (d & -> & _). rewrite Hv. reflexivity.
  - unfold no_leading_zero. rewrite E. destruct (Z.eq_dec n 0) as [E0|Hne].
    + destruct (Hzero E0) as [-> ->]. left. reflexivity.
    + right. exists c, t. split; [reflexivity|]. apply Hpos. lia.
Qed.
(** ** The loop of [formatIPv6] *)

Lemma zero_run_shrink ws s n : zero_run ws s (S n) -> zero_run ws s n.
Proof. intros H i Hi. apply H. lia. Qed.

Lemma zero_run_last ws s n : zero_run ws s (S n) -> ws !! (s + n)%nat = Some 0.
Proof. intros H. apply H. lia. Qed.

Lemma zero_run_extend ws s n :
  zero_run ws s n -> ws !! (s + n)%nat = Some 0 -> zero_run ws s (S n).
Proof.
  intros H Hl i Hi. destruct (Nat.eq_dec i (s + n)%nat) as [->|Hne]; [exact Hl|].
  apply H. lia.
Qed.

Lemma zero_run_empty ws s : zero_run ws s 0.
Proof. intros i Hi. lia. Qed.

Lemma runs_invariant_init ws : runs_invariant ws 0 (mkRuns 0 0 None).
Proof.
  split.
  - exists 0%nat. simpl. split; [reflexivity|]. split; [lia|]. split; [apply zero_run_empty|].
    intros; lia.
  - simpl. split; [reflexivity|]. intros; lia.
Qed.

Lemma runs_invariant_step ws k st :
  runs_invariant ws k st -> runs_invariant ws (S k) (formatIPv6_step ws st k).
Proof.
  intros [(c & Hcur & Hck & Hrun & Hmax) Hbest]. unfold formatIPv6_step.
  destruct (bool_decide_reflect (ws !! k = Some 0)) as [Hk|Hk].
  - (* a zero word: the current run grows *)
    assert (zero_run ws (S k - S c) (S c)) as Hrun'.
    { simpl. apply zero_run_extend; [exact Hrun|].
      replace (k - c + c)%nat with k by lia. exact Hk. }
    assert (forall s' n' : nat, (s' + n' = S k)%nat -> zero_run ws s' n' -> (n' <= S c)%nat)
      as Hmax'.
    { intros s' [|n'] Hs Hz; [lia|]. apply zero_run_shrink in Hz.
      apply Hmax in Hz; lia. }
    assert (forall s' n' : nat, (s' + n' <= S k)%nat -> zero_run ws s' n' ->
              (s' + n' <= k)%nat \/ ((n' <= S c)%nat /\ s' = (S k - n')%nat)) as Hsplit.
    { intros s' n' Hs Hz. destruct (Nat.eq_dec (s' + n')%nat (S k)) as [E|NE]; [|lia].
      right. split; [eapply Hmax'; eassumption|lia]. }
    rewrite Hcur.
    destruct (Z.gtb_spec (Z.of_nat c + 1) 1) as [Hc1|Hc1]; simpl.
    + destruct (Z.gtb_spec (Z.of_nat c + 1) (longestRun st)) as [Hlong|Hlong]; simpl.
      * (* a new longest run *)
        split.
        { exists (S c). simpl. repeat split; try lia; assumption. }
        simpl. exists (k - c)%nat, (S c).
        split; [lia|]. split; [lia|]. split; [lia|]. split; [lia|].
        split; [exact Hrun'|].
        intros s' n' Hs Hz. destruct (Hsplit s' n' Hs Hz) as [Hin|[Hle Hs']].
        -- left. destruct (start st) as [s0|].
           ++ destruct Hbest as (sn & n & _ & Hn & _ & _ & _ & Hb).
              destruct (Hb s' n' Hin Hz); lia.
           ++ destruct Hbest as [_ Hb]. specialize (Hb s' n' Hin Hz). lia.
        -- lia.
      * (* not longer than the longest so far *)
        split.
        { exists (S c). simpl. repeat split; try lia; assumption. }
        simpl. destruct (start st) as [s0|].
        -- destruct Hbest as (sn & n & Es & Hn & Hn2 & Hsn & Hz0 & Hb).
           exists sn, n. repeat split; try assumption; try lia.
           intros s' n' Hs Hz. destruct (Hsplit s' n' Hs Hz) as [Hin|[Hle Hs']].
           ++ eapply Hb; eassumption.
           ++ lia.
        -- destruct Hbest as [Hl _]. lia.
    + (* a run of one word *)
      split.
      { exists (S c). simpl. repeat split; try lia; assumption. }
      simpl. destruct (start st) as [s0|].
      * destruct Hbest as (sn & n & Es & Hn & Hn2 & Hsn & Hz0 & Hb).
        exists sn, n. repeat split; try assumption; try lia.
        intros s' n' Hs Hz. destruct (Hsplit s' n' Hs Hz) as [Hin|[Hle Hs']].
        -- eapply Hb; eassumption.
        -- lia.
      * destruct Hbest as [Hl Hb]. split; [exact Hl|].
        intros s' n' Hs Hz. destruct (Hsplit s' n' Hs Hz) as [Hin|[Hle Hs']].
        -- eapply Hb; eassumption.
        -- lia.
  - (* a non-zero word: the current run ends *)
    assert (forall s' n' : nat, (s' + n' <= S k)%nat -> zero_run ws s' n' ->
              (s' + n' <= k)%nat \/ n' = 0%nat) as Hsplit.
    { intros s' [|n'] Hs Hz; [auto|]. left.
      destruct (Nat.eq_dec (s' + S n')%nat (S k)) as [E|NE]; [|lia].
      exfalso. apply Hk. replace k with (s' + n')%nat by lia.
      apply zero_run_last. exact Hz. }
    split.
    + exists 0%nat. simpl. split; [reflexivity|]. split; [lia|].
      split; [apply zero_run_empty|].
      intros s' n' Hs Hz. destruct (Hsplit s' n' ltac:(lia) Hz); lia.
    + simpl. destruct (start st) as [s0|].
      * destruct Hbest as (sn & n & Es & Hn & Hn2 & Hsn & Hz0 & Hb).
        exists sn, n. repeat split; try assumption; try lia.
        intros s' n' Hs Hz. destruct (Hsplit s' n' Hs Hz) as [Hin| ->].
        -- eapply Hb; eassumption.
        -- lia.
      * destruct Hbest as [Hl Hb]. split; [exact Hl|].
        intros s' n' Hs Hz. destruct (Hsplit s' n' Hs Hz) as [Hin| ->].
        -- eapply Hb; eassumption.
        -- lia.
Qed.

Lemma runs_invariant_loop ws k :
  runs_invariant ws k (fold_left (formatIPv6_step ws) (seq 0 k) (mkRuns 0 0 None)).
Proof.
  induction k as [|k IH]; [apply runs_invariant_init|].
  rewrite seq_S, fold_left_app. simpl. apply runs_invariant_step. exact IH.
Qed.

Lemma zero_run_bound ws s n : zero_run ws s n -> (n = 0 \/ s + n <= length ws)%nat.
Proof.
  destruct n as [|n]; [auto|]. intros H. right.
  apply zero_run_last, lookup_lt_Some in H. lia.
Qed.

(** The outcome of the loop on eight words. *)
Lemma formatIPv6_loop_spec ws :
  length ws = 8%nat ->
  match start (formatIPv6_loop ws) with
  | None => forall s, ~ zero_run ws s 2
  | Some s =>
      exists sn n : nat,
        s = Z.of_nat sn /\ longestRun (formatIPv6_loop ws) = Z.of_nat n /\
        (sn + n <= 8)%nat /\ leftmost_longest_run ws sn n
  end.
Proof.
  intros Hlen. unfold formatIPv6_loop.
  destruct (runs_invariant_loop ws 8) as [_ Hbest].
  destruct (start _) as [s|].
  - destruct Hbest as (sn & n & Es & Hn & Hn2 & Hsn & Hz0 & Hb).
    exists sn, n. repeat split; try assumption.
    intros s' n' Hz. destruct (zero_run_bound ws s' n' Hz) as [-> | Hle]; [lia|].
    apply Hb; [lia|assumption].
  - destruct Hbest as [_ Hb]. intros s Hz.
    destruct (zero_run_bound ws s 2 Hz) as [? | Hle]; [lia|].
    specialize (Hb s 2%nat ltac:(lia) Hz). lia.
Qed.
(** ** [formatIPv6] and [toString] *)

Lemma to_lower_id c : lower_hex_or_colon c = true -> to_lower c = c.
Proof.
  destruct c as [[] [] [] [] [] [] [] []]; intros H; try discriminate H; reflexivity.
Qed.

Lemma toLowerCase_id s :
  Forall (fun c => lower_hex_or_colon c = true) s -> toLowerCase s = s.
Proof.
  induction 1 as [|c s Hc _ IH]; [reflexivity|].
  unfold toLowerCase in *. rewrite fmap_cons, IH, to_lower_id by assumption. reflexivity.
Qed.

Lemma lower_hex_colon c : lower_hex c = true -> lower_hex_or_colon c = true.
Proof. unfold lower_hex_or_colon. intros ->. reflexivity. Qed.

Lemma join_chars (P : ascii -> Prop) sep l :
  Forall P sep -> Forall (Forall P) l -> Forall P (join sep l).
Proof.
  intros Hsep. induction 1 as [|x l Hx Hl IH]; [constructor|].
  simpl. destruct l as [|y l]; [exact Hx|].
  apply Forall_app. split; [exact Hx|]. apply Forall_app. split; assumption.
Qed.

Lemma formatHexWords_chars ws start end_ :
  Forall (fun x => 0 <= x) ws ->
  Forall (fun c => lower_hex_or_colon c = true) (formatHexWords (slice ws start end_) None None).
Proof.
  intros Hws. unfold formatHexWords. rewrite slice_all. apply join_chars.
  - repeat constructor.
  - apply Forall_fmap. unfold slice.
    eapply Forall_impl; [apply Forall_take, Forall_drop; exact Hws|].
    intros x Hx. simpl. eapply Forall_impl; [apply toString16_spec; exact Hx|].
    apply lower_hex_colon.
Qed.

Lemma formatHexWords_slice ws start end_ :
  formatHexWords ws start end_ = formatHexWords (slice ws (default 0 start) end_) None None.
Proof. unfold formatHexWords. rewrite slice_all. reflexivity. Qed.

Lemma formatIPv6_chars ws :
  Forall (fun x => 0 <= x) ws ->
  Forall (fun c => lower_hex_or_colon c = true) (formatIPv6 ws).
Proof.
  intros Hws. unfold formatIPv6. destruct (start _) as [s|].
  - rewrite (formatHexWords_slice ws (Some 0)), (formatHexWords_slice ws (Some _)).
    apply Forall_app. split; [apply formatHexWords_chars; exact Hws|].
    apply Forall_app. split; [repeat constructor|apply formatHexWords_chars; exact Hws].
  - rewrite formatHexWords_slice. apply formatHexWords_chars. exact Hws.
Qed.

(** [formatIPv6] in terms of the run that the loop finds. *)
Lemma formatIPv6_spec ws :
  length ws = 8%nat ->
  ((forall s, ~ zero_run ws s 2) /\
   formatIPv6 ws = join (js ":") (toString16 <$> ws)) \/
  (exists s n : nat,
      leftmost_longest_run ws s n /\
      formatIPv6 ws = join (js ":") (toString16 <$> take s ws) ++ js "::" ++
                      join (js ":") (toString16 <$> drop (s + n) ws)).
Proof.
  intros Hlen. pose proof (formatIPv6_loop_spec ws Hlen) as H. unfold formatIPv6.
  destruct (start _) as [s|].
  - right. destruct H as (sn & n & -> & -> & Hle & Hbest). exists sn, n.
    split; [exact Hbest|]. unfold formatHexWords. simpl.
    rewrite slice_prefix, slice_suffix by lia.
    rewrite Nat2Z.id, <- Nat2Z.inj_add, Nat2Z.id. reflexivity.
  - left. split; [exact H|]. unfold formatHexWords. simpl. rewrite slice_all. reflexivity.
Qed.

(** C6: [toString] of a well-formed IPv6 address consists of lower-case
    hexadecimal digits and colons; each word is written by [toString(16)],
    which denotes the word and has no leading zeros; the longest run of at
    least two zero words, the leftmost such when several are as long, is
    replaced by [::], and without such a run the eight words are joined by
    colons; the zero address is [::], and 1:0:0:0:5:0:0:0 is written
    1::5:0:0:0. *)
Theorem IPv6_toString_canonical (a : IPv6) :
  wf6 a ->
  forallb lower_hex_or_colon (IPv6_toString a) = true /\
  (forall w, w ∈ _words a ->
             parseInt16 (toString16 w) = Some w /\ no_leading_zero (toString16 w)) /\
  (((forall s, ~ zero_run (_words a) s 2) /\
    IPv6_toString a = join (js ":") (toString16 <$> _words a)) \/
   (exists s n : nat,
       leftmost_longest_run (_words a) s n /\
       IPv6_toString a =
         join (js ":") (toString16 <$> take s (_words a)) ++ js "::" ++
         join (js ":") (toString16 <$> drop (s + n) (_words a)))) /\
  IPv6_toString (mkIPv6 [0; 0; 0; 0; 0; 0; 0; 0]) = js "::" /\
  IPv6_toString <$> IPv6_parse (js "1:0:0:0:5:0:0:0") = Some (js "1::5:0:0:0").
Proof.
  intros Ha. apply items_ok_spec in Ha as [Hlen Hr].
  assert (Forall (fun x => 0 <= x) (_words a)) as Hpos.
  { eapply Forall_impl; [exact Hr|]. simpl. intros; lia. }
  pose proof (formatIPv6_chars _ Hpos) as Hchars.
  assert (IPv6_toString a = formatIPv6 (_words a)) as E.
  { apply toLowerCase_id. exact Hchars. }
  split; [|split; [|split; [|split]]].
  - rewrite E. apply forallb_forall. intros c Hc.
    rewrite Forall_forall in Hchars. apply Hchars, list_elem_of_In, Hc.
  - intros w Hw. rewrite Forall_forall in Hpos. specialize (Hpos w Hw).
    destruct (toString16_spec w Hpos) as (H1 & H2 & _). auto.
  - rewrite E. apply formatIPv6_spec. exact Hlen.
  - vm_compute. reflexivity.
  - vm_compute. reflexivity.
Qed.

Lemma IPv6_toString_canonical_witness :
  wf6 (mkIPv6 [1; 0; 0; 0; 5; 0; 0; 0]) /\
  forallb lower_hex_or_colon (IPv6_toString (mkIPv6 [1; 0; 0; 0; 5; 0; 0; 0])) = true.
Proof.
  split; [reflexivity|].
  apply (IPv6_toString_canonical (mkIPv6 [1; 0; 0; 0; 5; 0; 0; 0])). reflexivity.
Defined.
(** ** Searching and splitting strings *)

Lemma starts_with_spec pat s : starts_with pat s = true <-> exists r, s = pat ++ r.
Proof.
  revert s; induction pat as [|p pat IH]; intros s; simpl.
  - split; eauto.
  - destruct s as [|c s].
    + split; [discriminate|]. intros [r Hr]. discriminate.
    + rewrite andb_true_iff, Ascii.eqb_eq, IH. split.
      * intros [-> [r ->]]. eauto.
      * intros [r Hr]. inversion Hr. eauto.
Qed.

Lemma starts_with_app pat r : starts_with pat (pat ++ r) = true.
Proof. apply starts_with_spec. eauto. Qed.

Lemma starts_with_nil pat : pat <> [] -> starts_with pat [] = false.
Proof. destruct pat; [congruence|reflexivity]. Qed.

Lemma occurrences_drop pat s i :
  starts_with pat (drop i s) = true -> pat <> [] -> (1 <= occurrences pat s)%nat.
Proof.
  revert s; induction i as [|i IH]; intros s H Hp.
  - rewrite drop_0 in H. destruct s; simpl; rewrite H; lia.
  - destruct s as [|c s]; simpl in *.
    + rewrite starts_with_nil in H by assumption. discriminate.
    + specialize (IH s H Hp). lia.
Qed.

(** The search from the left finds the first occurrence. *)
Lemma index_from_cases pat s pos :
  pat <> [] ->
  (index_from pat s pos = -1 /\ occurrences pat s = 0%nat) \/
  (exists k : nat,
      index_from pat s pos = pos + Z.of_nat k /\ (k < length s)%nat /\
      starts_with pat (drop k s) = true /\
      (forall i : nat, (i < k)%nat -> starts_with pat (drop i s) = false) /\
      occurrences pat s = S (occurrences pat (drop (S k) s))).
Proof.
  intros Hp. revert pos; induction s as [|c s IH]; intros pos.
  - left. simpl. rewrite starts_with_nil by assumption. auto.
  - simpl. destruct (starts_with pat (c :: s)) eqn:E.
    + right. exists 0%nat. simpl. rewrite drop_0.
      split; [lia|]. split; [lia|]. split; [exact E|]. split; [intros; lia|reflexivity].
    + destruct (IH (pos + 1)) as [[H1 H2]|(k & H1 & H2 & H3 & H4 & H5)].
      * left. split; [exact H1|]. lia.
      * right. exists (S k). split; [lia|]. split; [lia|]. split; [exact H3|].
        split; [|simpl; lia].
        intros [|i] Hi; [exact E|]. simpl. apply H4. lia.
Qed.

Lemma indexOf_0 s pat : indexOf s pat 0 = index_from pat s 0.
Proof.
  unfold indexOf. pose proof (len_nonneg s).
  rewrite Z.max_r, Z.min_l by lia. reflexivity.
Qed.

Lemma indexOf_from s pat (k : nat) :
  (k <= length s)%nat ->
  indexOf s pat (Z.of_nat k) = index_from pat (drop k s) (Z.of_nat k).
Proof.
  intros Hk. unfold indexOf, len.
  rewrite Z.max_l, Z.min_l, Nat2Z.id by lia. reflexivity.
Qed.

(** The three cases of the first test of [parseIPv6Words]. *)
Lemma indexOf_occurrences s pat :
  pat <> [] ->
  let idx := indexOf s pat 0 in
  match occurrences pat s with
  | O => idx = -1
  | S n =>
      0 <= idx < len s /\ starts_with pat (drop (Z.to_nat idx) s) = true /\
      (forall i : nat, (i < Z.to_nat idx)%nat -> starts_with pat (drop i s) = false) /\
      (n = 0%nat <-> indexOf s pat (idx + 1) = -1) /\ -1 <= indexOf s pat (idx + 1)
  end.
Proof.
  intros Hp idx. unfold idx. rewrite indexOf_0.
  destruct (index_from_cases pat s 0 Hp) as [[H1 H2]|(k & H1 & H2 & H3 & H4 & H5)].
  - rewrite H2. exact H1.
  - rewrite H5, H1. replace (0 + Z.of_nat k) with (Z.of_nat k) by lia.
    rewrite Nat2Z.id. unfold len. split; [lia|]. split; [exact H3|]. split; [exact H4|].
    replace (Z.of_nat k + 1) with (Z.of_nat (S k)) by lia.
    rewrite indexOf_from by lia.
    destruct (index_from_cases pat (drop (S k) s) (Z.of_nat (S k)) Hp)
      as [[G1 G2]|(j & G1 & G2 & G3 & G4 & G5)].
    + rewrite G1, G2. split; [tauto|lia].
    + rewrite G1, G5. split; [|lia]. split; [discriminate|lia].
Qed.

(** The search from the right. *)
Lemma last_index_from_absent (c : ascii) (s : jstr) pos found :
  c ∉ s -> last_index_from [c] s pos found = found.
Proof.
  revert pos; induction s as [|x s IH]; intros pos Hc; [reflexivity|].
  apply not_elem_of_cons in Hc as [Hne Hc]. simpl.
  destruct (Ascii.eqb_spec c x) as [->|_]; [congruence|]. simpl. apply IH. exact Hc.
Qed.

Lemma last_index_from_app (c : ascii) (p seg : jstr) pos found :
  c ∉ seg -> last_index_from [c] (p ++ c :: seg) pos found = pos + len p.
Proof.
  intros Hc. revert pos found; induction p as [|x p IH]; intros pos found.
  - simpl. rewrite Ascii.eqb_refl. simpl.
    rewrite last_index_from_absent by assumption. unfold len. simpl. lia.
  - simpl. rewrite IH. unfold len. simpl length. lia.
Qed.

Lemma last_occurrence (c : ascii) (s : jstr) :
  c ∉ s \/ exists p seg, s = p ++ c :: seg /\ c ∉ seg.
Proof.
  induction s as [|x s IH]; [left; apply not_elem_of_nil|].
  destruct IH as [Hc|(p & seg & -> & Hc)].
  - destruct (Ascii.ascii_dec x c) as [->|Hne].
    + right. exists [], s. auto.
    + left. apply not_elem_of_cons. auto.
  - right. exists (x :: p), seg. auto.
Qed.

Lemma split_absent (c : ascii) (s : jstr) : c ∉ s -> split c s = [s].
Proof.
  induction s as [|x s IH]; intros Hc; [reflexivity|].
  apply not_elem_of_cons in Hc as [Hne Hc]. simpl.
  destruct (Ascii.eqb_spec x c) as [->|_]; [congruence|]. rewrite IH by assumption.
  reflexivity.
Qed.

Lemma split_app (c : ascii) (g r : jstr) : c ∉ g -> split c (g ++ c :: r) = g :: split c r.
Proof.
  induction g as [|x g IH]; intros Hc; simpl.
  - rewrite Ascii.eqb_refl. reflexivity.
  - apply not_elem_of_cons in Hc as [Hne Hc].
    destruct (Ascii.eqb_spec x c) as [->|_]; [congruence|]. rewrite IH by assumption.
    reflexivity.
Qed.

Lemma split_not_nil c s : split c s <> [].
Proof.
  destruct s as [|x s]; simpl; [discriminate|].
  destruct (Ascii.eqb x c); [discriminate|]. destruct (split c s); discriminate.
Qed.

Lemma split_cons_sep c s : split c (c :: s) = [] :: split c s.
Proof. simpl. rewrite Ascii.eqb_refl. reflexivity. Qed.

Lemma split_cons_other c x s :
  x <> c -> exists w ws, split c s = w :: ws /\ split c (x :: s) = (x :: w) :: ws.
Proof.
  intros Hne. simpl. destruct (Ascii.eqb_spec x c) as [->|_]; [congruence|].
  destruct (split c s) as [|w ws] eqn:E; [destruct (split_not_nil c s E)|]. eauto.
Qed.

Lemma split_pieces (c : ascii) (s : jstr) : Forall (fun w : jstr => c ∉ w) (split c s).
Proof.
  induction s as [|x s IH]; simpl.
  - repeat constructor. apply not_elem_of_nil.
  - destruct (Ascii.eqb_spec x c) as [->|Hne].
    + constructor; [apply not_elem_of_nil|exact IH].
    + destruct (split c s) as [|w ws]; [repeat constructor|].
      * apply not_elem_of_cons. split; [auto|apply not_elem_of_nil].
      * apply Forall_cons in IH as [Hw Hws]. constructor; [|exact Hws].
        apply not_elem_of_cons. auto.
Qed.

Lemma join_split c s : join [c] (split c s) = s.
Proof.
  induction s as [|x s IH]; [reflexivity|]. simpl.
  destruct (Ascii.eqb_spec x c) as [->|Hne].
  - simpl. destruct (split c s) as [|w ws] eqn:E; [destruct (split_not_nil c s E)|].
    rewrite IH. reflexivity.
  - destruct (split c s) as [|w ws] eqn:E; [destruct (split_not_nil c s E)|].
    rewrite <- IH. destruct ws; reflexivity.
Qed.

Lemma split_join (c : ascii) (ws : list jstr) :
  ws <> [] -> Forall (fun w : jstr => c ∉ w) ws -> split c (join [c] ws) = ws.
Proof.
  intros Hne Hws. induction Hws as [|w ws Hw Hws IH]; [congruence|].
  destruct ws as [|w' ws].
  - simpl. apply split_absent. exact Hw.
  - change (join [c] (w :: w' :: ws)) with (w ++ c :: join [c] (w' :: ws)).
    rewrite split_app by assumption. rewrite IH by discriminate. reflexivity.
Qed.

Lemma split_snoc (c : ascii) (p seg : jstr) :
  c ∉ seg -> split c (p ++ c :: seg) = split c p ++ [seg].
Proof.
  intros Hc. induction p as [|x p IH].
  - simpl. rewrite Ascii.eqb_refl, split_absent by assumption. reflexivity.
  - simpl. destruct (Ascii.eqb x c).
    + rewrite IH. reflexivity.
    + rewrite IH. destruct (split c p) as [|w ws] eqn:E; [destruct (split_not_nil c p E)|].
      reflexivity.
Qed.

Lemma last_split_app (c : ascii) (p seg : jstr) :
  c ∉ seg -> last (split c (p ++ c :: seg)) = Some seg.
Proof. intros Hc. rewrite split_snoc by assumption. apply last_snoc. Qed.

(** The last colon of a string, as [IPv6.parse] finds it. *)
Lemma lastIndexOf_colon s :
  (((":"%char : ascii) ∉ s) /\ lastIndexOf s (js ":") = -1 /\
   final_segment s = s /\ up_to_final_colon s = []) \/
  (exists p seg,
      s = p ++ ":"%char :: seg /\ ((":"%char : ascii) ∉ seg) /\ lastIndexOf s (js ":") = len p /\
      final_segment s = seg /\ up_to_final_colon s = p ++ js ":").
Proof.
  destruct (last_occurrence ":" s) as [Hc|(p & seg & -> & Hc)].
  - left. split; [exact Hc|]. split.
    + unfold lastIndexOf. apply (last_index_from_absent ":"). exact Hc.
    + unfold up_to_final_colon, final_segment. rewrite split_absent by assumption. simpl.
      rewrite Nat.sub_diag. auto.
  - right. exists p, seg. split; [reflexivity|]. split; [exact Hc|]. split.
    + unfold lastIndexOf. rewrite (last_index_from_app ":") by assumption. lia.
    + unfold up_to_final_colon, final_segment. rewrite last_split_app by assumption.
      simpl. split; [reflexivity|].
      rewrite length_app. simpl length.
      replace (length p + S (length seg) - length seg)%nat with (length (p ++ js ":")).
      * change (p ++ ":"%char :: seg) with (p ++ js ":" ++ seg).
        rewrite app_assoc. apply take_app_length.
      * rewrite length_app. simpl. lia.
Qed.
(** ** Characters *)

Lemma in_range_code lo hi c :
  in_range lo hi c = true <-> code lo <= code c <= code hi.
Proof.
  unfold in_range, Ascii.leb, Ascii.compare, code. rewrite andb_true_iff.
  destruct (N.compare_spec (N_of_ascii lo) (N_of_ascii c)),
    (N.compare_spec (N_of_ascii c) (N_of_ascii hi)); split; intros; try lia;
    intuition discriminate.
Qed.

Lemma code_inj c c' : code c = code c' -> c = c'.
Proof.
  unfold code. intros H. apply N2Z.inj in H.
  rewrite <- (ascii_N_embedding c), <- (ascii_N_embedding c'), H. reflexivity.
Qed.

Lemma is_digit_code c : is_digit c = true <-> 48 <= code c <= 57.
Proof. unfold is_digit. rewrite in_range_code. reflexivity. Qed.

Lemma eqb_code c c' : Ascii.eqb c c' = true <-> code c = code c'.
Proof. rewrite Ascii.eqb_eq. split; [intros ->; reflexivity|apply code_inj]. Qed.

Lemma eqb_code_false c c' : Ascii.eqb c c' = false <-> code c <> code c'.
Proof.
  rewrite <- eqb_code. destruct (Ascii.eqb c c'); split; congruence.
Qed.

(** ** Regular expressions *)

Lemma run_Cls_elem p s caps x :
  x ∈ run (Cls p) s caps <-> exists c s', s = c :: s' /\ p c = true /\ x = (s', caps).
Proof.
  simpl. destruct s as [|c s].
  - split; [intros H; inversion H|]. intros (c & s' & H & _). discriminate.
  - destruct (p c) eqn:E.
    + rewrite list_elem_of_singleton. split.
      * intros ->. eauto.
      * intros (c' & s' & H & _ & ->). inversion H. reflexivity.
    + split; [intros H; inversion H|]. intros (c' & s' & H & Hp & _).
      inversion H; subst. congruence.
Qed.

Lemma run_Cat_elem r1 r2 s caps x :
  x ∈ run (Cat r1 r2) s caps <-> exists y, y ∈ run r1 s caps /\ x ∈ run r2 y.1 y.2.
Proof. simpl. rewrite list_elem_of_bind. split; intros (y & H1 & H2); eauto. Qed.

Lemma run_Alt_elem r1 r2 s caps x :
  x ∈ run (Alt r1 r2) s caps <-> x ∈ run r1 s caps \/ x ∈ run r2 s caps.
Proof. simpl. apply elem_of_app. Qed.

Lemma run_Group_elem r s caps x :
  x ∈ run (Group r) s caps <->
  exists y, y ∈ run r s caps /\ x = (y.1, y.2 ++ [take (length s - length y.1) s]).
Proof. simpl. rewrite list_elem_of_fmap. split; intros (y & H1 & H2); eauto. Qed.

Lemma run_seq2_elem p1 p2 s caps x :
  x ∈ run (Cat (Cls p1) (Cls p2)) s caps <->
  exists c1 c2 rest, s = c1 :: c2 :: rest /\ p1 c1 = true /\ p2 c2 = true /\ x = (rest, caps).
Proof.
  rewrite run_Cat_elem. split.
  - intros (y & H1 & H2). apply run_Cls_elem in H1 as (c1 & s1 & -> & Hp1 & ->).
    apply run_Cls_elem in H2 as (c2 & s2 & E & Hp2 & ->). simpl in E. subst s1.
    eexists _, _, _. eauto.
  - intros (c1 & c2 & rest & -> & Hp1 & Hp2 & ->). exists (c2 :: rest, caps). split.
    + apply run_Cls_elem. eauto.
    + apply run_Cls_elem. simpl. eauto.
Qed.

Lemma run_seq3_elem p1 p2 p3 s caps x :
  x ∈ run (Cat (Cls p1) (Cat (Cls p2) (Cls p3))) s caps <->
  exists c1 c2 c3 rest,
    s = c1 :: c2 :: c3 :: rest /\ p1 c1 = true /\ p2 c2 = true /\ p3 c3 = true /\
    x = (rest, caps).
Proof.
  rewrite run_Cat_elem. split.
  - intros (y & H1 & H2). apply run_Cls_elem in H1 as (c1 & s1 & -> & Hp1 & ->).
    apply run_seq2_elem in H2 as (c2 & c3 & rest & E & Hp2 & Hp3 & ->). simpl in E. subst s1.
    eexists _, _, _, _. eauto 6.
  - intros (c1 & c2 & c3 & rest & -> & Hp1 & Hp2 & Hp3 & ->).
    exists (c2 :: c3 :: rest, caps). split.
    + apply run_Cls_elem. eauto.
    + apply run_seq2_elem. simpl. eauto 7.
Qed.

(** ** The groups of [IPV4_REGEX] *)

Lemma decimal_snoc g c : decimal (g ++ [c]) = decimal g * 10 + (code c - 48).
Proof. unfold decimal. rewrite fold_left_app. reflexivity. Qed.

Ltac char_facts :=
  repeat match goal with
    | H : in_range _ _ _ = true |- _ => apply in_range_code in H; vm_compute (code "0") in H;
        vm_compute (code "1") in H; vm_compute (code "4") in H;
        vm_compute (code "5") in H; vm_compute (code "9") in H
    | H : is_digit _ = true |- _ => apply is_digit_code in H
    | H : Ascii.eqb _ _ = true |- _ => apply eqb_code in H
    | H : Ascii.eqb _ _ = false |- _ => apply eqb_code_false in H
    | H : negb _ = true |- _ => apply negb_true_iff in H
    end.

Lemma octet_text_alternatives g : octet_text g = true <-> octet_alternatives g.
Proof.
  unfold octet_text, octet_alternatives. split.
  - rewrite !andb_true_iff. intros [[[[Hd H1] H3] Hv] Hz].
    apply Z.leb_le in H1, H3, Hv. unfold len in *.
    destruct g as [|c1 [|c2 [|c3 [|c4 g]]]]; simpl in H1, H3; try lia.
    + right; right; right; right. exists c1. simpl in Hd.
      rewrite andb_true_r in Hd. auto.
    + right; right; right; left. simpl in Hd. rewrite andb_true_r in Hd.
      apply andb_true_iff in Hd as [Hd1 Hd2]. exists c1, c2.
      split; [reflexivity|]. split; [|exact Hd2]. char_facts.
      apply in_range_code. vm_compute (code "1"). vm_compute (code "9").
      vm_compute (code "0") in Hz. lia.
    + simpl in Hd. rewrite andb_true_r in Hd.
      apply andb_true_iff in Hd as [Hd1 Hd]. apply andb_true_iff in Hd as [Hd2 Hd3].
      unfold decimal in Hv. simpl in Hv. pose proof (conj Hd2 Hd3) as Hdig.
      char_facts. vm_compute (code "0") in Hz.
      assert (code c1 = 49 \/ code c1 = 50) as [E|E] by lia.
      * right; right; left. apply (code_inj c1 "1") in E. subst c1.
        exists c2, c3. split; [reflexivity|exact Hdig].
      * apply (code_inj c1 "2") in E. subst c1. vm_compute (code "2") in Hv.
        assert (code c2 <= 52 \/ code c2 = 53) as [E|E] by lia.
        -- right; left. exists c2, c3. split; [reflexivity|]. split; [|apply Hdig].
           apply in_range_code. vm_compute (code "0"). vm_compute (code "4"). lia.
        -- left. apply (code_inj c2 "5") in E. subst c2. exists c3.
           split; [reflexivity|].
           apply in_range_code. vm_compute (code "0"). vm_compute (code "5").
           vm_compute (code "5") in Hv. lia.
  - intros [(c3 & -> & H3)|[(c2 & c3 & -> & H2 & H3)|[(c2 & c3 & -> & H2 & H3)|
            [(c1 & c2 & -> & H1 & H2)|(c & -> & H)]]]];
      rewrite !andb_true_iff; unfold decimal, len; simpl;
      rewrite ?andb_true_r, ?andb_true_iff, ?negb_true_iff, ?Z.leb_le,
        ?is_digit_code, ?eqb_code_false; char_facts;
      vm_compute (code "0"); vm_compute (code "1"); vm_compute (code "2");
      vm_compute (code "5"); repeat split; lia.
Qed.

Lemma octet_text_digits g : octet_text g = true -> Forall (fun c => is_digit c = true) g.
Proof.
  unfold octet_text. rewrite !andb_true_iff. intros [[[[Hd _] _] _] _].
  apply Forall_forall. intros c Hc. rewrite forallb_forall in Hd.
  apply Hd, list_elem_of_In, Hc.
Qed.

Lemma digits_exclude (c : ascii) (g : jstr) :
  is_digit c = false -> Forall (fun c => is_digit c = true) g -> c ∉ g.
Proof.
  intros Hc Hg Hin. rewrite Forall_forall in Hg. apply Hg in Hin. congruence.
Qed.

Lemma octet_text_range g : octet_text g = true -> 0 <= decimal g <= 255.
Proof.
  intros H. pose proof (octet_text_digits g H) as Hd.
  unfold octet_text in H. rewrite !andb_true_iff in H. destruct H as [[[_ _] Hv] _].
  apply Z.leb_le in Hv. split; [|exact Hv]. clear Hv.
  induction g as [|c g IH] using rev_ind; [reflexivity|].
  apply Forall_app in Hd as [Hg Hc]. apply Forall_cons in Hc as [Hc _].
  rewrite decimal_snoc. apply is_digit_code in Hc. specialize (IH Hg). lia.
Qed.

(** The ways in which a group matches: exactly the prefixes that are decimal
    groups. *)
Lemma run_octet_elem s caps x :
  x ∈ run octet s caps <->
  exists g, octet_text g = true /\ s = g ++ x.1 /\ x.2 = caps ++ [g].
Proof.
  unfold octet, chr, rng, digit. rewrite run_Group_elem. split.
  - intros (y & Hy & ->). simpl.
    assert (exists g, octet_alternatives g /\ s = g ++ y.1 /\ y.2 = caps) as (g & Hg & -> & ->).
    { unfold octet_alternatives.
      repeat (apply run_Alt_elem in Hy as [Hy|Hy]).
      - apply run_seq3_elem in Hy as (c1 & c2 & c3 & rest & -> & H1 & H2 & H3 & ->).
        apply Ascii.eqb_eq in H1, H2. subst c1 c2. exists ["2"; "5"; c3]%char.
        split; [|split; reflexivity]. left. eauto.
      - apply run_seq3_elem in Hy as (c1 & c2 & c3 & rest & -> & H1 & H2 & H3 & ->).
        apply Ascii.eqb_eq in H1. subst c1. exists ["2"%char; c2; c3].
        split; [|split; reflexivity]. right; left. eauto.
      - apply run_seq3_elem in Hy as (c1 & c2 & c3 & rest & -> & H1 & H2 & H3 & ->).
        apply Ascii.eqb_eq in H1. subst c1. exists ["1"%char; c2; c3].
        split; [|split; reflexivity]. right; right; left. eauto.
      - apply run_seq2_elem in Hy as (c1 & c2 & rest & -> & H1 & H2 & ->).
        exists [c1; c2]. split; [|split; reflexivity]. right; right; right; left. eauto.
      - apply run_Cls_elem in Hy as (c & rest & -> & H & ->). exists [c].
        split; [|split; reflexivity]. right; right; right; right. eauto. }
    exists g. split; [apply octet_text_alternatives; exact Hg|]. split; [reflexivity|].
    rewrite length_app. replace (length g + length y.1 - length y.1)%nat with (length g) by lia.
    rewrite take_app_length. reflexivity.
  - intros (g & Hg & -> & Hx). exists (x.1, caps). split.
    + apply octet_text_alternatives in Hg.
      destruct Hg as [(c3 & -> & H3)|[(c2 & c3 & -> & H2 & H3)|[(c2 & c3 & -> & H2 & H3)|
            [(c1 & c2 & -> & H1 & H2)|(c & -> & H)]]]].
      * apply run_Alt_elem. left. apply run_seq3_elem.
        eexists _, _, _, _. split; [reflexivity|]. auto.
      * apply run_Alt_elem. right. apply run_Alt_elem. left. apply run_seq3_elem.
        eexists _, _, _, _. split; [reflexivity|]. auto.
      * do 2 (apply run_Alt_elem; right). apply run_Alt_elem. left. apply run_seq3_elem.
        eexists _, _, _, _. split; [reflexivity|]. auto.
      * do 3 (apply run_Alt_elem; right). apply run_Alt_elem. left. apply run_seq2_elem.
        eexists _, _, _. split; [reflexivity|]. auto.
      * do 4 (apply run_Alt_elem; right). apply run_Cls_elem.
        eexists _, _. split; [reflexivity|]. auto.
    + destruct x as [rest caps']. cbn [fst snd] in *. subst caps'. f_equal. f_equal. f_equal.
      rewrite length_app. replace (length g + length rest - length rest)%nat with (length g) by lia.
      rewrite take_app_length. reflexivity.
Qed.
(** ** Anchored matches *)

Lemma match_anchored_Some r s caps :
  match_anchored r s = Some caps -> ([], caps) ∈ run r s [].
Proof.
  unfold match_anchored. destruct (find _ _) as [x|] eqn:E; [|discriminate].
  simpl. intros H. inversion H; subst caps. apply find_some in E as [Hin Hx].
  apply bool_decide_eq_true in Hx. apply list_elem_of_In in Hin.
  destruct x as [rest caps]. simpl in *. subst rest. exact Hin.
Qed.

Lemma match_anchored_unique r s caps :
  ([], caps) ∈ run r s [] ->
  (forall caps', ([], caps') ∈ run r s [] -> caps' = caps) ->
  match_anchored r s = Some caps.
Proof.
  intros Hin Huniq. destruct (match_anchored r s) as [caps'|] eqn:E.
  - apply match_anchored_Some in E. f_equal. apply Huniq. exact E.
  - unfold match_anchored in E. destruct (find _ _) as [x|] eqn:F; [discriminate|].
    apply list_elem_of_In in Hin. eapply find_none in F; [|exact Hin].
    simpl in F. discriminate F.
Qed.

Lemma match_anchored_None r s :
  (forall caps, ([], caps) ∉ run r s []) -> match_anchored r s = None.
Proof.
  intros H. destruct (match_anchored r s) as [caps|] eqn:E; [|reflexivity].
  apply match_anchored_Some in E. destruct (H caps E).
Qed.

(** ** [IPV4_REGEX] *)

Lemma run_octet_dot r s caps x :
  x ∈ run (Cat octet (Cat (chr ".") r)) s caps <->
  exists g s', octet_text g = true /\ s = g ++ "."%char :: s' /\ x ∈ run r s' (caps ++ [g]).
Proof.
  rewrite run_Cat_elem. split.
  - intros (y & Hy & Hx). apply run_octet_elem in Hy as (g & Hg & -> & Hc).
    apply run_Cat_elem in Hx as (z & Hz & Hx).
    apply run_Cls_elem in Hz as (c & s' & E & Hdot & ->).
    apply Ascii.eqb_eq in Hdot. subst c. simpl in Hx. rewrite Hc in Hx. rewrite E.
    eauto.
  - intros (g & s' & Hg & -> & Hx). exists ("."%char :: s', caps ++ [g]). split.
    + apply run_octet_elem. exists g. auto.
    + apply run_Cat_elem. exists (s', caps ++ [g]). split; [|exact Hx].
      apply run_Cls_elem. exists "."%char, s'. auto.
Qed.

Lemma run_IPV4_REGEX_elem s x :
  x ∈ run IPV4_REGEX s [] <->
  exists g1 g2 g3 g4,
    octet_text g1 = true /\ octet_text g2 = true /\ octet_text g3 = true /\
    octet_text g4 = true /\
    s = g1 ++ "."%char :: g2 ++ "."%char :: g3 ++ "."%char :: g4 ++ x.1 /\
    x.2 = [g1; g2; g3; g4].
Proof.
  unfold IPV4_REGEX. split.
  - intros H. apply run_octet_dot in H as (g1 & s1 & H1 & -> & H).
    apply run_octet_dot in H as (g2 & s2 & H2 & -> & H).
    apply run_octet_dot in H as (g3 & s3 & H3 & -> & H).
    apply run_octet_elem in H as (g4 & H4 & -> & H).
    exists g1, g2, g3, g4. auto 10.
  - intros (g1 & g2 & g3 & g4 & H1 & H2 & H3 & H4 & -> & Hx).
    apply run_octet_dot. eexists g1, _. split; [exact H1|]. split; [reflexivity|].
    apply run_octet_dot. eexists g2, _. split; [exact H2|]. split; [reflexivity|].
    apply run_octet_dot. eexists g3, _. split; [exact H3|]. split; [reflexivity|].
    apply run_octet_elem. exists g4. auto.
Qed.

Lemma octet_text_no_dot g : octet_text g = true -> ("."%char : ascii) ∉ g.
Proof. intros H. apply digits_exclude; [reflexivity|]. apply octet_text_digits, H. Qed.

Lemma octet_text_no_colon g : octet_text g = true -> (":"%char : ascii) ∉ g.
Proof. intros H. apply digits_exclude; [reflexivity|]. apply octet_text_digits, H. Qed.

Lemma split_quad g1 g2 g3 g4 :
  octet_text g1 = true -> octet_text g2 = true -> octet_text g3 = true ->
  octet_text g4 = true ->
  split "." (g1 ++ "."%char :: g2 ++ "."%char :: g3 ++ "."%char :: g4) = [g1; g2; g3; g4].
Proof.
  intros H1 H2 H3 H4. rewrite !split_app, split_absent by (apply octet_text_no_dot; assumption).
  reflexivity.
Qed.

Lemma is_dotted_quad_spec s :
  is_dotted_quad s = true <->
  exists g1 g2 g3 g4,
    octet_text g1 = true /\ octet_text g2 = true /\ octet_text g3 = true /\
    octet_text g4 = true /\
    s = g1 ++ "."%char :: g2 ++ "."%char :: g3 ++ "."%char :: g4.
Proof.
  unfold is_dotted_quad. rewrite andb_true_iff, Nat.eqb_eq. split.
  - intros [Hl Hf]. pose proof (join_split "." s) as Hj.
    destruct (split "." s) as [|g1 [|g2 [|g3 [|g4 [|g5 l]]]]]; try discriminate Hl.
    simpl in Hf. rewrite !andb_true_iff in Hf. destruct Hf as (H1 & H2 & H3 & H4 & _).
    exists g1, g2, g3, g4. simpl in Hj. auto 10.
  - intros (g1 & g2 & g3 & g4 & H1 & H2 & H3 & H4 & ->).
    rewrite split_quad by assumption. simpl. rewrite H1, H2, H3, H4. auto.
Qed.

Lemma match_anchored_IPV4_REGEX s :
  match_anchored IPV4_REGEX s = if is_dotted_quad s then Some (split "." s) else None.
Proof.
  destruct (is_dotted_quad s) eqn:E.
  - apply is_dotted_quad_spec in E as (g1 & g2 & g3 & g4 & H1 & H2 & H3 & H4 & ->).
    rewrite split_quad by assumption. apply match_anchored_unique.
    + apply run_IPV4_REGEX_elem. exists g1, g2, g3, g4. simpl. rewrite app_nil_r. auto 10.
    + intros caps' H.
      apply run_IPV4_REGEX_elem in H as (k1 & k2 & k3 & k4 & K1 & K2 & K3 & K4 & Hs & Hc).
      simpl in Hs, Hc. rewrite app_nil_r in Hs. subst caps'.
      rewrite <- (split_quad k1 k2 k3 k4), <- Hs by assumption.
      apply split_quad; assumption.
  - apply match_anchored_None. intros caps H.
    apply run_IPV4_REGEX_elem in H as (k1 & k2 & k3 & k4 & K1 & K2 & K3 & K4 & Hs & Hc).
    simpl in Hs. rewrite app_nil_r in Hs.
    assert (is_dotted_quad s = true) by (apply is_dotted_quad_spec; eauto 10).
    congruence.
Qed.

(** ** [parseIPv4Bytes] and [IPv4.parse] *)

Lemma Number_loop_digits acc g :
  Forall (fun c => is_digit c = true) g ->
  Number_loop acc g = Some (fold_left (fun acc c => acc * 10 + (code c - 48)) g acc).
Proof.
  intros Hg. revert acc; induction Hg as [|c g Hc _ IH]; intros acc; [reflexivity|].
  simpl. unfold digit_value. rewrite Hc. simpl. apply IH.
Qed.

Lemma Number_octet g : octet_text g = true -> Number g = Some (decimal g).
Proof.
  intros H. pose proof (octet_text_digits g H) as Hd. unfold Number.
  destruct g as [|c g]; [discriminate H|]. apply Number_loop_digits. exact Hd.
Qed.

Lemma parseIPv4Bytes_spec s :
  parseIPv4Bytes s = if is_dotted_quad s then Some (decimal <$> split "." s) else None.
Proof.
  unfold parseIPv4Bytes. rewrite match_anchored_IPV4_REGEX.
  destruct (is_dotted_quad s) eqn:E; [|reflexivity].
  apply is_dotted_quad_spec in E as (g1 & g2 & g3 & g4 & H1 & H2 & H3 & H4 & ->).
  rewrite split_quad by assumption.
  change (slice (_ :: [g1; g2; g3; g4]) 1 (Some 5)) with [g1; g2; g3; g4].
  simpl. rewrite !Number_octet by assumption. reflexivity.
Qed.

Lemma occurrences_absent (c : ascii) (s : jstr) : occurrences [c] s = 0%nat -> c ∉ s.
Proof.
  induction s as [|x s IH]; intros H; [apply not_elem_of_nil|].
  simpl in H. destruct (Ascii.eqb_spec c x) as [->|Hne]; simpl in H; [lia|].
  apply not_elem_of_cons. split; [exact Hne|]. apply IH. lia.
Qed.

Lemma indexOf_char_absent s (c : ascii) : (indexOf s [c] 0 <? 0) = true -> c ∉ s.
Proof.
  intros H. apply Z.ltb_lt in H. rewrite indexOf_0 in H.
  destruct (index_from_cases [c] s 0 ltac:(discriminate)) as [[_ H0]|(k & Hk & _)]; [|lia].
  apply occurrences_absent. exact H0.
Qed.

Lemma IPv4_parse_spec s :
  IPv4_parse s =
    if is_dotted_quad s then Some (mkIPv4 (decimal <$> split "." s)) else None.
Proof.
  unfold IPv4_parse. rewrite parseIPv4Bytes_spec.
  destruct (indexOf s (js ".") 0 <? 0) eqn:E; [|destruct (is_dotted_quad s); reflexivity].
  apply indexOf_char_absent in E. unfold is_dotted_quad.
  rewrite split_absent by assumption. reflexivity.
Qed.

Lemma IPv4_parse_wf s a : IPv4_parse s = Some a -> wf4 a.
Proof.
  rewrite IPv4_parse_spec. destruct (is_dotted_quad s) eqn:E; [|discriminate].
  intros H. inversion H; subst a. clear H. unfold is_dotted_quad in E.
  apply andb_true_iff in E as [Hl Hf]. apply Nat.eqb_eq in Hl.
  apply items_ok_spec. simpl. rewrite length_fmap. split; [exact Hl|].
  apply Forall_fmap, Forall_forall. intros g Hg. simpl.
  apply octet_text_range. rewrite forallb_forall in Hf. apply Hf, list_elem_of_In, Hg.
Qed.

(** C9: [IPv4.parse] returns an address exactly when the string consists of
    four dot-separated groups, each of one to three decimal digits, at most
    255 and without a leading zero other than the single digit 0; the
    components of the address are the values of the groups; every other
    string gives null (the function returns for every string). *)
Theorem IPv4_parse_dotted_quad (s : jstr) :
  IPv4_parse s =
    (if is_dotted_quad s then Some (mkIPv4 (decimal <$> split "." s)) else None) /\
  (is_dotted_quad s = true <->
   exists g1 g2 g3 g4,
     s = g1 ++ js "." ++ g2 ++ js "." ++ g3 ++ js "." ++ g4 /\
     Forall (fun g => octet_text g = true) [g1; g2; g3; g4] /\
     IPv4_parse s = Some (mkIPv4 [decimal g1; decimal g2; decimal g3; decimal g4])) /\
  (forall a, IPv4_parse s = Some a -> wf4 a) /\
  IPv4_parse (js "192.0.2.1") = Some (mkIPv4 [192; 0; 2; 1]) /\
  IPv4_parse <$> [js "1.2.3"; js "1.2.3.4.5"; js "0.0.0.256"; js "01.2.3.4";
                  js "x.y.z.0"; js " 0.0.0.0"; js "0.0.0 .0"; js ""; js "0.0.0.-1"]
  = replicate 9 None.
Proof.
  split; [apply IPv4_parse_spec|]. split; [|split; [apply IPv4_parse_wf|]].
  - rewrite is_dotted_quad_spec. split.
    + intros (g1 & g2 & g3 & g4 & H1 & H2 & H3 & H4 & ->). exists g1, g2, g3, g4.
      split; [reflexivity|]. split; [repeat constructor; assumption|].
      rewrite IPv4_parse_spec.
      assert (is_dotted_quad (g1 ++ "."%char :: g2 ++ "."%char :: g3 ++ "."%char :: g4) = true)
        as E by (apply is_dotted_quad_spec; eauto 10).
      simpl. rewrite E, split_quad by assumption. reflexivity.
    + intros (g1 & g2 & g3 & g4 & -> & Hf & _).
      apply Forall_cons in Hf as [H1 Hf]. apply Forall_cons in Hf as [H2 Hf].
      apply Forall_cons in Hf as [H3 Hf]. apply Forall_cons in Hf as [H4 _].
      exists g1, g2, g3, g4. auto 10.
  - split; vm_compute; reflexivity.
Qed.

Lemma IPv4_parse_dotted_quad_witness :
  is_dotted_quad (js "10.0.0.1") = true /\
  IPv4_parse (js "10.0.0.1") = Some (mkIPv4 [10; 0; 0; 1]).
Proof.
  split; [reflexivity|].
  rewrite (proj1 (IPv4_parse_dotted_quad (js "10.0.0.1"))). reflexivity.
Defined.
(** ** [IPV6_REGEX] *)

Lemma span_le_length p hi s : (span p hi s <= length s)%nat.
Proof.
  revert hi; induction s as [|c s IH]; intros hi.
  - destruct hi as [[|h]|]; simpl; lia.
  - destruct hi as [[|h]|]; simpl; [lia| |]; destruct (p c); simpl;
      try lia; match goal with |- (S (span _ ?h' _) <= _)%nat => specialize (IH h') end; lia.
Qed.

Lemma span_le_hi p h s : (span p (Some h) s <= h)%nat.
Proof.
  revert h; induction s as [|c s IH]; intros [|h]; simpl; try lia.
  destruct (p c); [|lia]. specialize (IH h). simpl. lia.
Qed.

Lemma span_full p h s :
  span p (Some h) s = length s <-> (length s <= h)%nat /\ forallb p s = true.
Proof.
  revert h; induction s as [|c s IH]; intros h.
  - destruct h; simpl; split; auto; lia.
  - destruct h as [|h]; simpl; [split; [discriminate|lia]|].
    destruct (p c); simpl.
    + specialize (IH h). split.
      * intros H. injection H as H. apply IH in H. split; [lia|tauto].
      * intros [Hl Hf]. f_equal. apply IH. split; [lia|exact Hf].
    + split; [discriminate|]. intros [_ H]. discriminate.
Qed.

Lemma run_Rep_end p lo hi s caps caps' :
  ([], caps') ∈ run (Rep p lo hi) s caps <->
  caps' = caps /\ (lo <= length s)%nat /\ span p hi s = length s.
Proof.
  simpl. rewrite list_elem_of_fmap. pose proof (span_le_length p hi s) as Hs. split.
  - intros (n & E & Hn). apply elem_of_reverse, elem_of_seq in Hn.
    inversion E as [[Hd Hc]]. symmetry in Hd. apply drop_nil_inv in Hd.
    split; [reflexivity|]. lia.
  - intros (-> & Hlo & Hsp). exists (length s). rewrite drop_all. split; [reflexivity|].
    apply elem_of_reverse, elem_of_seq. lia.
Qed.

Lemma class_i_hex c : class_i (js "abcdef0123456789:") c = hex_or_colon c.
Proof. destruct c as [[] [] [] [] [] [] [] []]; reflexivity. Qed.

(** The test of [parseIPv6Words]: only hexadecimal digits and colons, and
    from 2 to 39 of them. *)
Lemma IPV6_REGEX_test s :
  bool_decide (is_Some (match_anchored IPV6_REGEX s)) =
    forallb hex_or_colon s && (2 <=? len s) && (len s <=? 39).
Proof.
  assert (forallb (class_i (js "abcdef0123456789:")) s = forallb hex_or_colon s) as Hc.
  { induction s as [|c s IH]; [reflexivity|]. cbn [forallb]. rewrite IH, class_i_hex. reflexivity. }
  unfold IPV6_REGEX, len.
  destruct (forallb hex_or_colon s && (2 <=? Z.of_nat (length s)) &&
            (Z.of_nat (length s) <=? 39)) eqn:E.
  - rewrite !andb_true_iff, !Z.leb_le in E. destruct E as [[Hf H2] H39].
    apply bool_decide_eq_true. exists []. apply match_anchored_unique.
    + apply run_Rep_end. split; [reflexivity|]. split; [lia|].
      apply span_full. rewrite Hc. split; [lia|exact Hf].
    + intros caps' H. apply run_Rep_end in H. tauto.
  - apply bool_decide_eq_false. intros [caps H]. apply match_anchored_Some in H.
    apply run_Rep_end in H as (_ & Hlo & Hsp). apply span_full in Hsp as [Hhi Hf].
    rewrite Hc in Hf. rewrite Hf in E. simpl in E.
    rewrite andb_false_iff, !Z.leb_gt in E. lia.
Qed.

(** ** [parseHexWords] *)

Lemma hex_digit_value c : hex_digit c = true -> exists d, hex_value c = Some d /\ 0 <= d < 16.
Proof.
  unfold hex_digit, hex_value, is_digit, in_range, code, Ascii.leb.
  destruct c as [[] [] [] [] [] [] [] []]; simpl; intros H; try discriminate H;
    eexists; (split; [reflexivity|lia]).
Qed.

Lemma parseInt16_loop_hex acc w :
  forallb hex_digit w = true ->
  parseInt16_loop acc w = fold_left (fun acc c => acc * 16 + default 0 (hex_value c)) w acc.
Proof.
  revert acc; induction w as [|c w IH]; intros acc Hw; [reflexivity|].
  simpl in Hw. apply andb_true_iff in Hw as [Hc Hw]. simpl.
  destruct (hex_digit_value c Hc) as (d & -> & _). simpl. apply IH. exact Hw.
Qed.

Lemma parseInt16_hex_word w : hex_word w = true -> parseInt16 w = Some (hex_number w).
Proof.
  unfold hex_word. rewrite !andb_true_iff. intros [[Hw H1] _]. unfold parseInt16.
  destruct w as [|c w]; [discriminate H1|].
  pose proof Hw as Hw'. simpl in Hw'. apply andb_true_iff in Hw' as [Hc _].
  destruct (hex_digit_value c Hc) as (d & Hd & _). rewrite Hd.
  rewrite parseInt16_loop_hex by exact Hw. reflexivity.
Qed.

Lemma hex_number_range w : hex_word w = true -> 0 <= hex_number w <= 65535.
Proof.
  unfold hex_word, hex_number, len. rewrite !andb_true_iff, !Z.leb_le.
  intros [[Hw _] H4].
  assert (forall (v : jstr) acc, forallb hex_digit v = true -> 0 <= acc ->
            0 <= fold_left (fun acc c => acc * 16 + default 0 (hex_value c)) v acc
              < (acc + 1) * 16 ^ Z.of_nat (length v)) as Hgen.
  { induction v as [|c v IH]; intros acc Hv Hacc; simpl fold_left.
    - simpl. lia.
    - simpl in Hv. apply andb_true_iff in Hv as [Hc Hv].
      destruct (hex_digit_value c Hc) as (d & -> & Hd). simpl default.
      specialize (IH (acc * 16 + d) Hv ltac:(lia)).
      rewrite length_cons, Nat2Z.inj_succ, Z.pow_succ_r by lia. nia. }
  specialize (Hgen w 0 Hw ltac:(lia)).
  assert (16 ^ Z.of_nat (length w) <= 16 ^ 4) by (apply Z.pow_le_mono_r; lia).
  lia.
Qed.

(** The loop of [parseHexWords] on pieces that consist of hexadecimal
    digits. *)
Lemma parseHexWords_loop_hex pieces :
  Forall (fun w => forallb hex_digit w = true) pieces ->
  parseHexWords_loop pieces =
    if forallb hex_word pieces then Some (hex_number <$> pieces) else None.
Proof.
  induction 1 as [|w pieces Hw _ IH]; [reflexivity|].
  simpl. unfold hex_word at 1. rewrite Hw. simpl.
  destruct (bool_decide_reflect (w = [])) as [->|Hne]; [reflexivity|]. simpl.
  assert ((1 <=? len w) = true) as H1.
  { apply Z.leb_le. unfold len. destruct w; [congruence|]. simpl. lia. }
  rewrite H1. simpl. rewrite Z.gtb_ltb.
  destruct (Z.ltb_spec 4 (len w)), (Z.leb_spec (len w) 4); try lia; [reflexivity|].
  simpl. rewrite parseInt16_hex_word.
  - simpl. rewrite IH. destruct (forallb hex_word pieces); reflexivity.
  - unfold hex_word. rewrite Hw, H1. simpl. apply Z.leb_le. lia.
Qed.

Lemma hex_or_colon_pieces s :
  forallb hex_or_colon s = forallb (forallb hex_digit) (split ":" s).
Proof.
  induction s as [|c s IH]; [reflexivity|].
  simpl forallb at 1. rewrite IH. unfold hex_or_colon at 1.
  destruct (Ascii.eqb_spec c ":") as [->|Hne].
  - rewrite split_cons_sep. reflexivity.
  - destruct (split_cons_other ":" c s Hne) as (w & ws & E1 & E2). rewrite E1, E2.
    simpl. rewrite orb_false_r. apply andb_assoc.
Qed.

Lemma hex_or_colon_words x :
  forallb hex_or_colon x = forallb (forallb hex_digit) (words x).
Proof. destruct x as [|c x]; [reflexivity|]. apply hex_or_colon_pieces. Qed.

Lemma forallb_Forall {A} (p : A -> bool) l :
  forallb p l = true <-> Forall (fun x => p x = true) l.
Proof.
  rewrite forallb_forall, Forall_forall. split; intros H x Hx; apply H.
  - apply list_elem_of_In, Hx.
  - apply list_elem_of_In, Hx.
Qed.

Lemma parseHexWords_spec x :
  forallb hex_or_colon x = true ->
  parseHexWords x = if forallb hex_word (words x) then Some (hex_number <$> words x) else None.
Proof.
  intros Hx. unfold parseHexWords. destruct x as [|c x]; [reflexivity|].
  rewrite bool_decide_eq_false_2 by discriminate.
  apply parseHexWords_loop_hex. rewrite hex_or_colon_pieces in Hx.
  apply forallb_Forall. exact Hx.
Qed.
(** ** [parseIPv6Words] *)

Lemma hex_word_digits w : hex_word w = true -> forallb hex_digit w = true.
Proof. unfold hex_word. rewrite !andb_true_iff. tauto. Qed.

Lemma hex_words_digits ws :
  forallb hex_word ws = true -> forallb (forallb hex_digit) ws = true.
Proof.
  rewrite !forallb_Forall. intros H. eapply Forall_impl; [exact H|].
  intros w. apply hex_word_digits.
Qed.

Lemma join_length_bounds ws :
  forallb hex_word ws = true -> ws <> [] ->
  (2 * length ws - 1 <= length (join (js ":") ws) <= 5 * length ws - 1)%nat.
Proof.
  induction ws as [|w ws IH]; [congruence|]. intros Hws _.
  simpl in Hws. apply andb_true_iff in Hws as [Hw Hws].
  unfold hex_word, len in Hw. rewrite !andb_true_iff, !Z.leb_le in Hw.
  destruct ws as [|w' ws].
  - simpl. lia.
  - specialize (IH Hws ltac:(discriminate)).
    change (join (js ":") (w :: w' :: ws)) with (w ++ js ":" ++ join (js ":") (w' :: ws)).
    rewrite !length_app. simpl length in *. lia.
Qed.

Lemma words_length_bounds x :
  forallb hex_word (words x) = true ->
  (length x <= 5 * length (words x))%nat.
Proof.
  destruct x as [|c x]; [simpl; lia|]. unfold words. intros H.
  pose proof (join_length_bounds _ H (split_not_nil _ _)) as Hb.
  change (js ":") with [":"%char] in Hb. rewrite join_split in Hb. lia.
Qed.

Lemma take_zeros (k : Z) :
  0 <= k <= 8 -> slice IPV6_ZEROS 0 (Some k) = replicate (Z.to_nat k) 0.
Proof.
  intros Hk. rewrite slice_prefix by lia.
  assert (k = 0 \/ k = 1 \/ k = 2 \/ k = 3 \/ k = 4 \/ k = 5 \/ k = 6 \/ k = 7 \/ k = 8)
    as Hc by lia.
  repeat (destruct Hc as [-> | Hc]; [reflexivity|]). subst k. reflexivity.
Qed.

(** Without a [::]: eight words. *)
Lemma parseIPv6Words_plain s :
  occurrences (js "::") s = 0%nat ->
  parseIPv6Words s =
    if (length (split ":" s) =? 8)%nat && forallb hex_word (split ":" s)
    then Some (hex_number <$> split ":" s) else None.
Proof.
  intros Hocc. unfold parseIPv6Words. cbv zeta. rewrite IPV6_REGEX_test.
  pose proof (indexOf_occurrences s (js "::") ltac:(discriminate)) as Hidx.
  rewrite Hocc in Hidx. cbv beta iota zeta in Hidx. rewrite Hidx.
  change (-1 >=? 0) with false. change (-1 <? 0) with true. cbn [andb].
  destruct (forallb hex_or_colon s && (2 <=? len s) && (len s <=? 39)) eqn:Hre; cbn [negb].
  - rewrite !andb_true_iff, !Z.leb_le in Hre. destruct Hre as [[Hchars H2] H39].
    rewrite parseHexWords_spec by exact Hchars.
    assert (words s = split ":" s) as ->.
    { destruct s; [unfold len in H2; simpl in H2; lia|reflexivity]. }
    destruct (forallb hex_word (split ":" s)); [|rewrite andb_false_r; reflexivity].
    rewrite andb_true_r. unfold len. rewrite length_fmap.
    destruct (Nat.eqb_spec (length (split ":" s)) 8) as [E|NE].
    + rewrite E. simpl. rewrite ?app_nil_r. reflexivity.
    + destruct (Z.eqb_spec (Z.of_nat (length (split ":" s))) 8); [lia|]. reflexivity.
  - destruct (Nat.eqb_spec (length (split ":" s)) 8) as [E|NE]; [|reflexivity]. cbn [andb].
    destruct (forallb hex_word (split ":" s)) eqn:Hw; [|reflexivity]. exfalso.
    pose proof (join_length_bounds _ Hw (split_not_nil _ _)) as Hb.
    change (js ":") with [":"%char] in Hb. rewrite join_split, E in Hb.
    rewrite hex_or_colon_pieces, (hex_words_digits _ Hw) in Hre. cbn [andb] in Hre.
    rewrite andb_false_iff, !Z.leb_gt in Hre. unfold len in Hre. lia.
Qed.

(** The position of the only [::]. *)
Lemma indexOf_only s h t :
  occurrences (js "::") s = 1%nat -> s = h ++ js "::" ++ t ->
  indexOf s (js "::") 0 = len h /\ indexOf s (js "::") (len h + 1) = -1.
Proof.
  intros Hocc Hs.
  pose proof (index_from_cases (js "::") s 0 ltac:(discriminate)) as Hi.
  pose proof (indexOf_occurrences s (js "::") ltac:(discriminate)) as Hidx.
  rewrite Hocc in Hidx. cbv beta iota zeta in Hidx.
  destruct Hidx as (Hr & Hat & Hbefore & Hnext & _).
  assert (starts_with (js "::") (drop (length h) s) = true) as Hh.
  { rewrite Hs, drop_app_length. apply starts_with_app. }
  assert (Z.to_nat (indexOf s (js "::") 0) = length h) as E.
  { destruct (Nat.lt_trichotomy (length h) (Z.to_nat (indexOf s (js "::") 0)))
      as [Hlt|[Heq|Hgt]]; [|auto|].
    - rewrite Hbefore in Hh by exact Hlt. discriminate.
    - exfalso. destruct Hi as [[_ H0]|(k & Hk & _ & _ & _ & Hsplit)]; [lia|].
      rewrite indexOf_0, Hk in Hgt. rewrite Hocc in Hsplit.
      assert (1 <= occurrences (js "::") (drop (S k) s))%nat; [|lia].
      apply occurrences_drop with (i := (length h - S k)%nat); [|discriminate].
      rewrite drop_drop. replace (S k + (length h - S k))%nat with (length h) by lia.
      exact Hh. }
  assert (indexOf s (js "::") 0 = len h) as E' by (unfold len; lia).
  split; [exact E'|]. rewrite <- E'. apply Hnext. reflexivity.
Qed.

(** With one [::]: the words before it, zero words, the words after it. *)
Lemma parseIPv6Words_compressed s h t :
  occurrences (js "::") s = 1%nat -> s = h ++ js "::" ++ t ->
  parseIPv6Words s =
    if forallb hex_word (words h) && forallb hex_word (words t) &&
       (length (words h) + length (words t) <=? 7)%nat
    then Some ((hex_number <$> words h) ++
               replicate (8 - length (words h) - length (words t)) 0 ++
               (hex_number <$> words t))
    else None.
Proof.
  intros Hocc Hs. destruct (indexOf_only s h t Hocc Hs) as [Hidx Hnext].
  unfold parseIPv6Words. cbv zeta. rewrite IPV6_REGEX_test, Hidx, Hnext.
  pose proof (len_nonneg h) as Hh0.
  assert (slice s 0 (Some (len h)) = h) as Eh.
  { rewrite slice_prefix by lia. unfold len. rewrite Nat2Z.id, Hs. apply take_app_length. }
  assert (slice s (len h + 2) None = t) as Et.
  { rewrite slice_suffix by lia. unfold len.
    replace (Z.to_nat (Z.of_nat (length h) + 2)) with (length (h ++ js "::"))
      by (rewrite length_app; simpl; lia).
    rewrite Hs, app_assoc. apply drop_app_length. }
  assert (forallb hex_or_colon s = forallb hex_or_colon h && forallb hex_or_colon t) as Ec.
  { rewrite Hs, !forallb_app. simpl. reflexivity. }
  assert (len s = len h + 2 + len t) as El.
  { unfold len. rewrite Hs, !length_app. simpl. lia. }
  destruct (Z.geb_spec (len h) 0) as [_|?]; [|lia].
  destruct (Z.ltb_spec (len h) 0) as [?|_]; [lia|].
  destruct (Z.geb_spec (-1) 0) as [?|_]; [lia|]. rewrite Eh, Et. cbn [andb].
  destruct (forallb hex_or_colon s && (2 <=? len s) && (len s <=? 39)) eqn:Hre; cbn [negb].
  - rewrite !andb_true_iff, Ec, andb_true_iff in Hre. destruct Hre as [[[Hch Hct] _] _].
    rewrite !parseHexWords_spec by assumption.
    destruct (forallb hex_word (words h)); [|reflexivity].
    destruct (forallb hex_word (words t)); [|reflexivity]. cbn [andb].
    unfold len. rewrite !length_fmap, Z.gtb_ltb.
    destruct (Z.ltb_spec 7 (Z.of_nat (length (words h)) + Z.of_nat (length (words t)))),
      (Nat.leb_spec (length (words h) + length (words t)) 7); try lia; [reflexivity|].
    rewrite take_zeros by lia.
    replace (Z.to_nat _) with (8 - length (words h) - length (words t))%nat by lia.
    reflexivity.
  - destruct (forallb hex_word (words h)) eqn:Hwh; [|reflexivity].
    destruct (forallb hex_word (words t)) eqn:Hwt; [|reflexivity]. cbn [andb].
    destruct (Nat.leb_spec (length (words h) + length (words t)) 7); [|reflexivity].
    exfalso. pose proof (words_length_bounds h Hwh). pose proof (words_length_bounds t Hwt).
    rewrite Ec, !hex_or_colon_words, (hex_words_digits _ Hwh), (hex_words_digits _ Hwt) in Hre.
    cbn [andb] in Hre. rewrite andb_false_iff, !Z.leb_gt in Hre. unfold len in *. lia.
Qed.

(** With two or more: null. *)
Lemma parseIPv6Words_twice s :
  (2 <= occurrences (js "::") s)%nat -> parseIPv6Words s = None.
Proof.
  intros Hocc. unfold parseIPv6Words. cbv zeta.
  destruct (negb _); [reflexivity|].
  pose proof (indexOf_occurrences s (js "::") ltac:(discriminate)) as Hidx.
  destruct (occurrences (js "::") s) as [|[|n]]; [lia|lia|]. cbv beta iota zeta in Hidx.
  destruct Hidx as (Hr & _ & _ & Hnext & Hlow).
  destruct (Z.geb_spec (indexOf s (js "::") 0) 0); [|lia].
  destruct (Z.geb_spec (indexOf s (js "::") (indexOf s (js "::") 0 + 1)) 0) as [|Hneg];
    [reflexivity|].
  assert (indexOf s (js "::") (indexOf s (js "::") 0 + 1) = -1) as E by lia.
  apply Hnext in E. discriminate.
Qed.

Lemma occurrences_head_absent (c0 : ascii) (pat s : jstr) :
  c0 ∉ s -> occurrences (c0 :: pat) s = 0%nat.
Proof.
  induction s as [|c s IH]; intros Hc; [reflexivity|].
  apply not_elem_of_cons in Hc as [Hne Hc]. cbn [occurrences starts_with].
  destruct (Ascii.eqb_spec c0 c) as [E|_]; [congruence|]. cbn [andb]. apply IH, Hc.
Qed.

Lemma parseIPv6Words_no_colon s : (":"%char : ascii) ∉ s -> parseIPv6Words s = None.
Proof.
  intros Hc.
  rewrite parseIPv6Words_plain by (apply occurrences_head_absent; exact Hc).
  rewrite split_absent by exact Hc. reflexivity.
Qed.

Lemma parseIPv6Words_regex s ws :
  parseIPv6Words s = Some ws ->
  forallb hex_or_colon s = true /\ 2 <= len s <= 39.
Proof.
  unfold parseIPv6Words. rewrite IPV6_REGEX_test.
  destruct (forallb hex_or_colon s && (2 <=? len s) && (len s <=? 39)) eqn:Hre;
    [|discriminate].
  intros _. rewrite !andb_true_iff, !Z.leb_le in Hre. tauto.
Qed.
(** ** [IPv6.parse] *)

(** The two ways of [IPv6.parse], by the final segment of the text. *)
Lemma IPv6_parse_final s :
  IPv6_parse s =
    match parseIPv4Bytes (final_segment s) with
    | None => mkIPv6 <$> parseIPv6Words s
    | Some bytes =>
        (fun ws => mkIPv6 (<[7%nat := item bytes 2 * 256 + item bytes 3]>
                           (<[6%nat := item bytes 0 * 256 + item bytes 1]> ws)))
          <$> parseIPv6Words (up_to_final_colon s ++ js "0:0")
    end.
Proof.
  unfold IPv6_parse. cbv zeta.
  destruct (lastIndexOf_colon s) as [(Hc & -> & -> & ->)|(p & seg & Hs & Hc & -> & -> & ->)].
  - change (-1 <? 0) with true. cbv iota.
    destruct (parseIPv4Bytes s); [reflexivity|].
    rewrite parseIPv6Words_no_colon by exact Hc. reflexivity.
  - pose proof (len_nonneg p) as Hp. destruct (Z.ltb_spec (len p) 0) as [?|_]; [lia|].
    assert (slice s (len p + 1) None = seg) as ->.
    { rewrite slice_suffix by lia. unfold len.
      replace (Z.to_nat (Z.of_nat (length p) + 1)) with (length (p ++ js ":"))
        by (rewrite length_app; simpl; lia).
      rewrite Hs. change (p ++ ":"%char :: seg) with (p ++ js ":" ++ seg).
      rewrite app_assoc. apply drop_app_length. }
    assert (slice s 0 (Some (len p + 1)) = p ++ js ":") as ->.
    { rewrite slice_prefix by lia. unfold len.
      replace (Z.to_nat (Z.of_nat (length p) + 1)) with (length (p ++ js ":"))
        by (rewrite length_app; simpl; lia).
      rewrite Hs. change (p ++ ":"%char :: seg) with (p ++ js ":" ++ seg).
      rewrite app_assoc. apply take_app_length. }
    destruct (parseIPv4Bytes seg); [|destruct (parseIPv6Words s); reflexivity].
    destruct (parseIPv6Words _); reflexivity.
Qed.

Lemma parseIPv6Words_length s ws : parseIPv6Words s = Some ws -> length ws = 8%nat.
Proof.
  unfold parseIPv6Words. cbv zeta. destruct (negb _); [discriminate|].
  destruct (_ && _); [discriminate|].
  destruct (Z.geb_spec (indexOf s (js "::") 0) 0) as [Hge|Hlt].
  - destruct (parseHexWords _) as [head|]; [|discriminate].
    destruct (parseHexWords _) as [tail|]; [|discriminate].
    destruct (Z.ltb_spec (indexOf s (js "::") 0) 0); [lia|]. cbn [andb].
    destruct (Z.gtb_spec (len head + len tail) 7); [discriminate|].
    intros Heq. inversion Heq; subst ws. rewrite !length_app.
    pose proof (len_nonneg head). pose proof (len_nonneg tail).
    rewrite take_zeros, length_replicate by lia. unfold len in *. lia.
  - destruct (parseHexWords _) as [head|]; [|discriminate].
    destruct (Z.ltb_spec (indexOf s (js "::") 0) 0); [|lia]. cbn [andb].
    destruct (Z.eqb_spec (len head) 8) as [E|]; [|discriminate]. cbn [negb].
    intros Heq. inversion Heq; subst ws. rewrite !length_app. unfold len in *.
    simpl length. rewrite E. simpl. lia.
Qed.

(** The text around the first occurrence of a pattern. *)
Lemma first_occurrence pat s :
  pat <> [] -> (1 <= occurrences pat s)%nat -> exists h t, s = h ++ pat ++ t.
Proof.
  intros Hp Hocc. destruct (index_from_cases pat s 0 Hp) as [[_ H0]|(k & _ & _ & Hk & _)]; [lia|].
  apply starts_with_spec in Hk as [t Ht]. exists (take k s), t.
  rewrite <- Ht. symmetry. apply take_drop.
Qed.

Lemma hex_numbers_range ws :
  forallb hex_word ws = true -> Forall (fun x => 0 <= x <= 65535) (hex_number <$> ws).
Proof.
  rewrite forallb_Forall. intros H. apply Forall_fmap. eapply Forall_impl; [exact H|].
  intros w Hw. simpl. apply hex_number_range. exact Hw.
Qed.

Lemma parseIPv6Words_range s ws :
  parseIPv6Words s = Some ws -> Forall (fun x => 0 <= x <= 65535) ws.
Proof.
  intros H. destruct (occurrences (js "::") s) as [|[|n]] eqn:Hocc.
  - rewrite parseIPv6Words_plain in H by exact Hocc.
    destruct (_ =? _)%nat; [|discriminate]. cbn [andb] in H.
    destruct (forallb hex_word _) eqn:Hw; [|discriminate].
    inversion H; subst ws. apply hex_numbers_range. exact Hw.
  - destruct (first_occurrence (js "::") s ltac:(discriminate) ltac:(lia)) as (h & t & Hs).
    rewrite (parseIPv6Words_compressed s h t Hocc Hs) in H.
    destruct (forallb hex_word (words h)) eqn:Hh; [|discriminate].
    destruct (forallb hex_word (words t)) eqn:Ht; [|discriminate].
    destruct (_ <=? _)%nat; [|discriminate]. inversion H; subst ws.
    apply Forall_app. split; [apply hex_numbers_range; exact Hh|].
    apply Forall_app. split; [|apply hex_numbers_range; exact Ht].
    apply Forall_replicate. lia.
  - rewrite parseIPv6Words_twice in H by lia. discriminate.
Qed.

Lemma dotted_quad_bytes seg :
  is_dotted_quad seg = true ->
  exists b0 b1 b2 b3,
    decimal <$> split "." seg = [b0; b1; b2; b3] /\
    0 <= b0 <= 255 /\ 0 <= b1 <= 255 /\ 0 <= b2 <= 255 /\ 0 <= b3 <= 255.
Proof.
  intros H. apply is_dotted_quad_spec in H as (g1 & g2 & g3 & g4 & H1 & H2 & H3 & H4 & ->).
  rewrite split_quad by assumption. eexists _, _, _, _. split; [reflexivity|].
  split; [|split; [|split]]; apply octet_text_range; assumption.
Qed.

Lemma IPv6_parse_wf s a : IPv6_parse s = Some a -> wf6 a.
Proof.
  rewrite IPv6_parse_final, parseIPv4Bytes_spec. intros H. apply items_ok_spec.
  destruct (is_dotted_quad (final_segment s)) eqn:E.
  - destruct (dotted_quad_bytes _ E) as (b0 & b1 & b2 & b3 & Eb & ? & ? & ? & ?).
    rewrite Eb in H.
    destruct (parseIPv6Words _) as [ws|] eqn:Hws; [|discriminate].
    inversion H; subst a. simpl. rewrite !length_insert.
    split; [eapply parseIPv6Words_length; exact Hws|].
    apply parseIPv6Words_range in Hws.
    apply Forall_insert; [apply Forall_insert; [exact Hws|]|]; unfold item; simpl; lia.
  - destruct (parseIPv6Words s) as [ws|] eqn:Hws; [|discriminate].
    inversion H; subst a. simpl.
    split; [eapply parseIPv6Words_length; exact Hws|].
    eapply parseIPv6Words_range; exact Hws.
Qed.

Lemma IP_parse_wf s a : IP_parse s = Some a -> wf a.
Proof.
  unfold IP_parse. destruct (IPv4_parse s) as [a4|] eqn:E4.
  - intros H. inversion H; subst a. eapply IPv4_parse_wf; exact E4.
  - destruct (IPv6_parse s) as [a6|] eqn:E6; [|discriminate].
    intros H. inversion H; subst a. eapply IPv6_parse_wf; exact E6.
Qed.
(** ** The grammar of IPv6 literals *)

(** C3 (as stated it fails): an accepted text may have a dotted-quad tail,
    with dots and up to 45 characters. *)
Lemma IPv6_parse_accepts_dotted_quad_tail :
  let s := js "1111:2222:3333:4444:5555:6666:255.255.255.255" in
  IPv6_parse s = Some (mkIPv6 [4369; 8738; 13107; 17476; 21845; 26214; 65535; 65535]) /\
  forallb hex_or_colon s = false /\ len s = 45.
Proof. vm_compute. repeat split; reflexivity. Qed.

(** C3 (amended): [IPv6.parse] returns null unless the text contains a colon
    and the text that the plain rules read (the text itself, or, when its
    final segment is a dotted quad, the text up to and including the final
    colon followed by [0:0]) consists of hexadecimal digits and colons only
    and has from 2 to 39 characters. *)
Theorem IPv6_parse_requires (s : jstr) (a : IPv6) :
  IPv6_parse s = Some a ->
  (":"%char : ascii) ∈ s /\
  let t := if is_dotted_quad (final_segment s)
           then up_to_final_colon s ++ js "0:0" else s in
  forallb hex_or_colon t = true /\ 2 <= len t <= 39.
Proof.
  intros H. split.
  - destruct (lastIndexOf_colon s) as [(Hc & Hi & _)|(p & seg & -> & _)].
    + unfold IPv6_parse in H. rewrite Hi in H. discriminate H.
    + apply elem_of_app. right. left.
  - rewrite IPv6_parse_final, parseIPv4Bytes_spec in H. cbv zeta.
    destruct (is_dotted_quad (final_segment s)).
    + destruct (parseIPv6Words _) as [ws|] eqn:Hws; [|discriminate].
      eapply parseIPv6Words_regex. exact Hws.
    + destruct (parseIPv6Words s) as [ws|] eqn:Hws; [|discriminate].
      eapply parseIPv6Words_regex. exact Hws.
Qed.

Lemma IPv6_parse_requires_witness :
  IPv6_parse (js "::ffff:192.0.2.1") = Some (mkIPv6 [0; 0; 0; 0; 0; 65535; 49152; 513]) /\
  (":"%char : ascii) ∈ js "::ffff:192.0.2.1".
Proof.
  split; [reflexivity|].
  apply (IPv6_parse_requires (js "::ffff:192.0.2.1")
           (mkIPv6 [0; 0; 0; 0; 0; 65535; 49152; 513])). reflexivity.
Defined.

(** C4: for a text whose final segment is not a dotted quad, [IPv6.parse]
    returns null when [::] occurs twice or more; without a [::] it returns an
    address exactly when the text splits at its colons into eight words of
    one to four hexadecimal digits, and the address has the values of these
    words; with one [::] it returns an address exactly when the words before
    and after it are such words and are at most seven, and the address has
    the values of the words before, then zero words up to eight in all, then
    the values of the words after. *)
Theorem IPv6_parse_words (s : jstr) :
  is_dotted_quad (final_segment s) = false ->
  ((2 <= occurrences (js "::") s)%nat -> IPv6_parse s = None) /\
  (occurrences (js "::") s = 0%nat ->
   IPv6_parse s =
     if (length (split ":" s) =? 8)%nat && forallb hex_word (split ":" s)
     then Some (mkIPv6 (hex_number <$> split ":" s)) else None) /\
  (forall h t,
      occurrences (js "::") s = 1%nat -> s = h ++ js "::" ++ t ->
      IPv6_parse s =
        if forallb hex_word (words h) && forallb hex_word (words t) &&
           (length (words h) + length (words t) <=? 7)%nat
        then Some (mkIPv6 ((hex_number <$> words h) ++
                           replicate (8 - length (words h) - length (words t)) 0 ++
                           (hex_number <$> words t)))
        else None).
Proof.
  intros Hq. rewrite IPv6_parse_final, parseIPv4Bytes_spec, Hq. split; [|split].
  - intros H. rewrite parseIPv6Words_twice by exact H. reflexivity.
  - intros H. rewrite parseIPv6Words_plain by exact H.
    destruct (_ && _); reflexivity.
  - intros h t H Hs. rewrite (parseIPv6Words_compressed s h t H Hs).
    destruct (_ && _); reflexivity.
Qed.

Lemma IPv6_parse_words_witness :
  is_dotted_quad (final_segment (js "1:2::8")) = false /\
  occurrences (js "::") (js "1:2::8") = 1%nat /\
  IPv6_parse (js "1:2::8") = Some (mkIPv6 [1; 2; 0; 0; 0; 0; 0; 8]).
Proof.
  split; [reflexivity|]. split; [reflexivity|].
  destruct (IPv6_parse_words (js "1:2::8")) as (_ & _ & H); [reflexivity|].
  rewrite (H (js "1:2") (js "8")); reflexivity.
Defined.

(** C5: when the final colon-separated segment of the text is a dotted quad
    with bytes [b0] to [b3], [IPv6.parse] succeeds exactly when the text up
    to and including the final colon, followed by [0:0], parses by the plain
    rules, and its result is that parse with word 6 replaced by
    [b0 * 256 + b1] and word 7 by [b2 * 256 + b3]; so ::ffff:192.0.2.1 and
    ::ffff:c000:201 parse to equal addresses; and a final segment that is
    not a dotted quad, such as 255, is read as a hexadecimal word. *)
Theorem IPv6_parse_embedded_IPv4 (s : jstr) :
  (is_dotted_quad (final_segment s) = true ->
   exists b0 b1 b2 b3,
     parseIPv4Bytes (final_segment s) = Some [b0; b1; b2; b3] /\
     [b0; b1; b2; b3] = decimal <$> split "." (final_segment s) /\
     (is_Some (IPv6_parse s) <->
      is_Some (parseIPv6Words (up_to_final_colon s ++ js "0:0"))) /\
     (forall ws, parseIPv6Words (up_to_final_colon s ++ js "0:0") = Some ws ->
                 length ws = 8%nat /\
                 IPv6_parse s =
                   Some (mkIPv6 (<[7%nat := b2 * 256 + b3]>
                                 (<[6%nat := b0 * 256 + b1]> ws))))) /\
  (is_dotted_quad (final_segment s) = false ->
   IPv6_parse s = mkIPv6 <$> parseIPv6Words s) /\
  (a ← IPv6_parse (js "::ffff:192.0.2.1"); b ← IPv6_parse (js "::ffff:c000:201");
   Some (IPv6_cmp a b)) = Some 0 /\
  IPv6_parse (js "2001:db8::255") = Some (mkIPv6 [8193; 3512; 0; 0; 0; 0; 0; 597]) /\
  IPv6_parse (js "2001:db8::192.0.2") = None.
Proof.
  split; [|split; [|vm_compute; repeat split; reflexivity]].
  - intros Hq. destruct (dotted_quad_bytes _ Hq) as (b0 & b1 & b2 & b3 & Eb & _).
    exists b0, b1, b2, b3. rewrite IPv6_parse_final, parseIPv4Bytes_spec, Hq, Eb.
    split; [reflexivity|]. split; [reflexivity|]. split.
    + destruct (parseIPv6Words _) as [ws|]; simpl; split; intros [x Hx];
        first [discriminate Hx | eauto].
    + intros ws Hws. rewrite Hws. split; [|reflexivity].
      eapply parseIPv6Words_length. exact Hws.
  - intros Hq. rewrite IPv6_parse_final, parseIPv4Bytes_spec, Hq. reflexivity.
Qed.

Lemma IPv6_parse_embedded_IPv4_witness :
  is_dotted_quad (final_segment (js "::ffff:192.0.2.1")) = true /\
  exists b0 b1 b2 b3,
    parseIPv4Bytes (final_segment (js "::ffff:192.0.2.1")) = Some [b0; b1; b2; b3].
Proof.
  split; [reflexivity|].
  destruct (IPv6_parse_embedded_IPv4 (js "::ffff:192.0.2.1")) as [H _].
  destruct (H eq_refl) as (b0 & b1 & b2 & b3 & Hb & _). exists b0, b1, b2, b3. exact Hb.
Defined.
(** ** Round trips of IPv4 texts *)

Lemma digit_char_code c : is_digit c = true -> hex_char (code c - 48) = c.
Proof.
  intros H. apply is_digit_code in H. apply code_inj.
  assert (0 <= code c - 48 < 10) as Hd by lia.
  unfold hex_char. destruct (Z.ltb_spec (code c - 48) 10); [|lia].
  unfold code at 1. rewrite N_ascii_embedding.
  - unfold code in *. lia.
  - unfold code in *. lia.
Qed.

Lemma decimal_nonneg g : Forall (fun c => is_digit c = true) g -> 0 <= decimal g.
Proof.
  induction g as [|c g IH] using rev_ind; intros Hg; [reflexivity|].
  apply Forall_app in Hg as [Hg Hc]. apply Forall_cons in Hc as [Hc _].
  rewrite decimal_snoc. apply is_digit_code in Hc. specialize (IH Hg). lia.
Qed.

Lemma decimal_lower c g :
  Forall (fun c => is_digit c = true) (c :: g) ->
  (code c - 48) * 10 ^ Z.of_nat (length g) <= decimal (c :: g).
Proof.
  induction g as [|x g IH] using rev_ind; intros Hg.
  - unfold decimal. simpl. lia.
  - rewrite app_comm_cons in *. apply Forall_app in Hg as [Hg Hx].
    apply Forall_cons in Hx as [Hx _]. apply is_digit_code in Hx.
    rewrite decimal_snoc, length_app, Nat.add_1_r, Nat2Z.inj_succ, Z.pow_succ_r by lia.
    specialize (IH Hg). lia.
Qed.

(** A decimal numeral without leading zeros is what [toString] writes for
    its value, whatever the fuel above its length. *)
Lemma toString10_loop_decimal g fuel :
  Forall (fun c => is_digit c = true) g -> g <> [] ->
  (length g = 1%nat \/ exists c t, g = c :: t /\ c <> "0"%char) ->
  (length g <= fuel)%nat ->
  toString10_loop fuel (decimal g) = g.
Proof.
  revert fuel; induction g as [|x g IH] using rev_ind; intros fuel Hg Hne Hz Hf; [congruence|].
  apply Forall_app in Hg as [Hg Hx]. apply Forall_cons in Hx as [Hx _].
  rewrite length_app, Nat.add_1_r in Hf. destruct fuel as [|fuel]; [lia|].
  rewrite decimal_snoc. pose proof Hx as Hx'. apply is_digit_code in Hx'.
  simpl toString10_loop. destruct g as [|c g].
  - replace (decimal [] * 10 + (code x - 48)) with (code x - 48)
      by (unfold decimal; simpl fold_left; lia).
    simpl app. destruct (Z.ltb_spec (code x - 48) 10); [|lia].
    rewrite digit_char_code by exact Hx. reflexivity.
  - assert (c <> "0"%char) as Hc.
    { destruct Hz as [Hz|(c' & t & E & Hc')]; [simpl in Hz; rewrite length_app in Hz; simpl in Hz; lia|].
      inversion E; subst. exact Hc'. }
    pose proof (decimal_lower c g Hg) as Hlow.
    pose proof Hg as Hg'. apply Forall_cons in Hg' as [Hcd _]. apply is_digit_code in Hcd.
    assert (code c <> 48) as Hc48.
    { intros E. apply Hc. apply code_inj. rewrite E. reflexivity. }
    assert (1 <= 10 ^ Z.of_nat (length g)) by (pose proof (Z.pow_pos_nonneg 10 (Z.of_nat (length g))); lia).
    assert (1 <= decimal (c :: g)) by nia.
    destruct (Z.ltb_spec (decimal (c :: g) * 10 + (code x - 48)) 10); [lia|].
    replace ((decimal (c :: g) * 10 + (code x - 48)) / 10) with (decimal (c :: g))
      by (apply Z.div_unique with (r := code x - 48); lia).
    replace ((decimal (c :: g) * 10 + (code x - 48)) mod 10) with (code x - 48)
      by (apply Z.mod_unique with (q := decimal (c :: g)); lia).
    rewrite (IH fuel Hg ltac:(discriminate) ltac:(right; eauto) ltac:(simpl in *; lia)).
    rewrite digit_char_code by exact Hx. reflexivity.
Qed.

Lemma toString10_octet g : octet_text g = true -> toString10 (decimal g) = g.
Proof.
  intros H. pose proof (octet_text_digits g H) as Hd.
  pose proof (octet_text_range g H) as Hr.
  unfold octet_text in H. rewrite !andb_true_iff, !Z.leb_le in H.
  destruct H as [[[[_ H1] H3] _] Hz]. unfold len in *.
  unfold toString10. apply toString10_loop_decimal; [exact Hd| | |].
  - destruct g; [simpl in H1; lia|discriminate].
  - destruct g as [|c [|c' g]]; [simpl in H1; lia|left; reflexivity|right].
    exists c, (c' :: g). split; [reflexivity|]. apply negb_true_iff in Hz.
    apply Ascii.eqb_neq. exact Hz.
  - destruct g as [|c [|c' g]]; simpl length in *; [lia|lia|].
    (* two or three digits: the value is at least 10 *)
    assert (c <> "0"%char) as Hc by (apply negb_true_iff in Hz; apply Ascii.eqb_neq; exact Hz).
    pose proof (decimal_lower c (c' :: g) Hd) as Hlow.
    pose proof Hd as Hd'. apply Forall_cons in Hd' as [Hcd _]. apply is_digit_code in Hcd.
    assert (code c <> 48) as Hc48.
    { intros E. apply Hc. apply code_inj. rewrite E. reflexivity. }
    simpl length in Hlow. rewrite Nat2Z.inj_succ, Z.pow_succ_r in Hlow by lia.
    assert (1 <= 10 ^ Z.of_nat (length g)) by (pose proof (Z.pow_pos_nonneg 10 (Z.of_nat (length g))); lia).
    assert (8 <= decimal (c :: c' :: g)) by nia.
    assert (3 <= Z.log2 (decimal (c :: c' :: g))).
    { apply Z.log2_le_pow2; [lia|]. simpl. lia. }
    lia.
Qed.

Lemma join_fmap_octets gs :
  Forall (fun g => octet_text g = true) gs ->
  toString10 <$> (decimal <$> gs) = gs.
Proof.
  induction 1 as [|g gs Hg _ IH]; [reflexivity|].
  rewrite !fmap_cons, IH, toString10_octet by exact Hg. reflexivity.
Qed.

(** X1: what [IPv4.parse] accepts, [toString] writes back unchanged. *)
Theorem IPv4_parse_toString (s : jstr) (a : IPv4) :
  IPv4_parse s = Some a -> IPv4_toString a = s.
Proof.
  rewrite IPv4_parse_spec. destruct (is_dotted_quad s) eqn:E; [|discriminate].
  intros H. inversion H; subst a. unfold IPv4_toString. simpl _bytes.
  unfold is_dotted_quad in E. apply andb_true_iff in E as [_ Hf].
  rewrite join_fmap_octets by (apply forallb_Forall; exact Hf).
  apply (join_split "."%char).
Qed.

Lemma IPv4_parse_toString_witness :
  IPv4_parse (js "192.0.2.1") = Some (mkIPv4 [192; 0; 2; 1]) /\
  IPv4_toString (mkIPv4 [192; 0; 2; 1]) = js "192.0.2.1".
Proof.
  split; [reflexivity|].
  apply (IPv4_parse_toString (js "192.0.2.1") (mkIPv4 [192; 0; 2; 1])). reflexivity.
Defined.

Lemma toString10_byte v :
  0 <= v <= 255 -> octet_text (toString10 v) = true /\ decimal (toString10 v) = v.
Proof.
  intros Hv.
  assert (forallb (fun n => octet_text (toString10 (Z.of_nat n)) &&
                            (decimal (toString10 (Z.of_nat n)) =? Z.of_nat n))
                  (seq 0 256) = true) as Hall by (vm_compute; reflexivity).
  rewrite forallb_forall in Hall. specialize (Hall (Z.to_nat v)).
  rewrite Z2Nat.id in Hall by lia.
  apply andb_true_iff in Hall; [|apply in_seq; lia].
  rewrite Z.eqb_eq in Hall. exact Hall.
Qed.

Lemma fmap_fixed {A} (f : A -> A) (l : list A) :
  Forall (fun x => f x = x) l -> f <$> l = l.
Proof. induction 1 as [|x l Hx _ IH]; [reflexivity|]. rewrite fmap_cons, Hx, IH. reflexivity. Qed.

Lemma IPv4_format_parse (a : IPv4) :
  wf4 a -> IPv4_parse (IPv4_toString a) = Some a.
Proof.
  intros Ha. apply items_ok_spec in Ha as [Hl Hr]. destruct a as [bytes]. simpl in *.
  unfold IPv4_toString. simpl _bytes.
  assert (Forall (fun g => octet_text g = true) (toString10 <$> bytes)) as Hoct.
  { apply Forall_fmap. eapply Forall_impl; [exact Hr|]. intros v Hv. simpl.
    apply toString10_byte. exact Hv. }
  assert (split "." (join (js ".") (toString10 <$> bytes)) = toString10 <$> bytes) as Hs.
  { apply (split_join "."%char).
    - destruct bytes; [discriminate Hl|discriminate].
    - eapply Forall_impl; [exact Hoct|]. intros g. apply octet_text_no_dot. }
  rewrite IPv4_parse_spec. unfold is_dotted_quad. rewrite Hs, length_fmap, Hl. simpl.
  rewrite (proj2 (forallb_Forall _ _) Hoct). f_equal. f_equal.
  rewrite <- list_fmap_compose. apply fmap_fixed.
  eapply Forall_impl; [exact Hr|]. intros v Hv. simpl. apply toString10_byte. exact Hv.
Qed.

(** X2: the text that [toString] writes for a well-formed IPv4 address parses
    back to that address. *)
Theorem IPv4_toString_parse (a : IPv4) :
  wf4 a -> IPv4_parse (IPv4_toString a) = Some a.
Proof. exact (IPv4_format_parse a). Qed.

Lemma IPv4_toString_parse_witness :
  wf4 (mkIPv4 [10; 0; 255; 1]) /\
  IPv4_parse (IPv4_toString (mkIPv4 [10; 0; 255; 1])) = Some (mkIPv4 [10; 0; 255; 1]).
Proof.
  split; [reflexivity|]. apply (IPv4_toString_parse (mkIPv4 [10; 0; 255; 1])). reflexivity.
Defined.
(** ** Round trips of IPv6 texts *)

Lemma toString16_loop_length fuel n (k : nat) :
  0 <= n < 16 ^ Z.of_nat k -> (1 <= k)%nat -> (length (toString16_loop fuel n) <= k)%nat.
Proof.
  revert n k; induction fuel as [|fuel IH]; intros n k Hn Hk; simpl; [lia|].
  destruct (Z.ltb_spec n 16); [simpl; lia|].
  rewrite length_app. simpl. destruct k as [|[|k]]; [lia| |].
  - simpl in Hn. lia.
  - specialize (IH (n / 16) (S k)).
    rewrite (Nat2Z.inj_succ (S k)), Z.pow_succ_r in Hn by lia.
    assert (0 <= n / 16 < 16 ^ Z.of_nat (S k)).
    { split; [apply Z.div_pos; lia|apply Z.div_lt_upper_bound; lia]. }
    specialize (IH ltac:(assumption) ltac:(lia)). lia.
Qed.

Lemma lower_hex_digit c : lower_hex c = true -> hex_digit c = true.
Proof. unfold lower_hex, hex_digit. intros ->. reflexivity. Qed.

(** [toString(16)] of a 16-bit word is a word of the IPv6 grammar that
    denotes it. *)
Lemma toString16_word w :
  0 <= w <= 65535 -> hex_word (toString16 w) = true /\ hex_number (toString16 w) = w.
Proof.
  intros Hw. destruct (toString16_spec w ltac:(lia)) as (Hp & Hz & Hl).
  assert (hex_word (toString16 w) = true) as Hword.
  { unfold hex_word. rewrite !andb_true_iff, !Z.leb_le. split; [split|].
    - apply forallb_Forall. eapply Forall_impl; [exact Hl|]. apply lower_hex_digit.
    - unfold len. destruct (toString16 w); [discriminate Hp|simpl; lia].
    - unfold len, toString16.
      pose proof (toString16_loop_length (S (Z.to_nat (Z.log2 w))) w 4
                    ltac:(simpl; lia) ltac:(lia)). lia. }
  split; [exact Hword|]. apply parseInt16_hex_word in Hword. congruence.
Qed.

Lemma hex_word_no_colon w : hex_word w = true -> (":"%char : ascii) ∉ w.
Proof.
  intros H Hin. apply hex_word_digits in H. rewrite forallb_forall in H.
  apply list_elem_of_In, H in Hin. discriminate Hin.
Qed.

Lemma hex_word_not_nil w : hex_word w = true -> w <> [].
Proof. intros H ->. discriminate H. Qed.

Lemma hex_word_no_dot w : hex_word w = true -> ("."%char : ascii) ∉ w.
Proof.
  intros H Hin. apply hex_word_digits in H. rewrite forallb_forall in H.
  apply list_elem_of_In, H in Hin. discriminate Hin.
Qed.

(** A string without colons separates them. *)
Lemma colons_separate_word w t :
  (":"%char : ascii) ∉ w -> w <> [] -> colons_separate t = true ->
  colons_separate (w ++ t) = true.
Proof.
  induction w as [|c w IH]; intros Hc Hne Ht; [congruence|].
  apply not_elem_of_cons in Hc as [Hcc Hc].
  simpl. destruct (Ascii.eqb_spec c ":") as [E|_]; [congruence|]. simpl.
  destruct w as [|c' w]; [exact Ht|]. apply IH; [exact Hc|discriminate|exact Ht].
Qed.

Lemma head_not_colon w t :
  (":"%char : ascii) ∉ w -> w <> [] -> exists c r, w ++ t = c :: r /\ c <> ":"%char.
Proof.
  destruct w as [|c w]; [congruence|]. intros Hc _.
  apply not_elem_of_cons in Hc as [Hcc _]. exists c, (w ++ t). split; [reflexivity|congruence].
Qed.

(** The colon-joined text of words: colons are separated, and the text does
    not begin with one. *)
Lemma join_words_separate ws :
  forallb hex_word ws = true ->
  colons_separate (join (js ":") ws) = true /\
  (ws <> [] -> exists c r, join (js ":") ws = c :: r /\ c <> ":"%char).
Proof.
  induction ws as [|w ws IH]; intros Hws; [split; [reflexivity|congruence]|].
  simpl in Hws. apply andb_true_iff in Hws as [Hw Hws]. specialize (IH Hws).
  destruct IH as [IH1 IH2].
  pose proof (hex_word_no_colon w Hw) as Hc. pose proof (hex_word_not_nil w Hw) as Hn.
  destruct ws as [|w' ws].
  - simpl. split.
    + rewrite <- (app_nil_r w). apply colons_separate_word; auto.
    + intros _. rewrite <- (app_nil_r w). apply head_not_colon; auto.
  - change (join (js ":") (w :: w' :: ws)) with (w ++ js ":" ++ join (js ":") (w' :: ws)).
    split; [|intros _; apply head_not_colon; auto].
    apply colons_separate_word; auto.
    destruct (IH2 ltac:(discriminate)) as (c & r & E & Hcr). rewrite E in *.
    simpl. simpl in IH1. destruct (Ascii.eqb_spec c ":") as [->|_]; [congruence|].
    simpl. exact IH1.
Qed.

Lemma occurrences_separate s :
  colons_separate s = true -> occurrences (js "::") s = 0%nat.
Proof.
  change (js "::") with [":"%char; ":"%char].
  induction s as [|c s IH]; [reflexivity|]. intros H.
  cbn [colons_separate] in H. apply andb_true_iff in H as [Hc Hs].
  cbn [occurrences starts_with]. rewrite (IH Hs).
  destruct (Ascii.eqb_spec ":" c) as [<-|_]; [|reflexivity].
  rewrite Ascii.eqb_refl in Hc. cbn [negb orb] in Hc. destruct s as [|c' s]; [reflexivity|].
  cbn [andb]. rewrite Ascii.eqb_sym.
  destruct (Ascii.eqb c' ":"); [discriminate Hc|reflexivity].
Qed.

Lemma occurrences_one h t :
  colons_separate h = true -> colons_separate t = true ->
  (t = [] \/ exists c r, t = c :: r /\ c <> ":"%char) ->
  occurrences (js "::") (h ++ js "::" ++ t) = 1%nat.
Proof.
  intros Hh Ht Hhead. pose proof (occurrences_separate t Ht) as Ht0.
  change (js "::") with [":"%char; ":"%char] in *. induction h as [|c h IH].
  - cbn [app occurrences starts_with]. rewrite !Ascii.eqb_refl.
    cbn [andb]. rewrite Ht0.
    destruct Hhead as [->|(c & r & -> & Hc)]; [reflexivity|].
    destruct (Ascii.eqb_spec ":" c) as [E|_]; [congruence|]. reflexivity.
  - cbn [colons_separate] in Hh. apply andb_true_iff in Hh as [Hc Hh].
    change ((c :: h) ++ [":"%char; ":"%char] ++ t)
      with (c :: (h ++ [":"%char; ":"%char] ++ t)).
    cbn [occurrences]. rewrite (IH Hh).
    assert (starts_with [":"%char; ":"%char] (c :: h ++ [":"%char; ":"%char] ++ t) = false)
      as ->; [|reflexivity].
    cbn [starts_with].
    destruct (Ascii.eqb_spec ":" c) as [<-|_]; [|reflexivity].
    rewrite Ascii.eqb_refl in Hc. cbn [negb orb] in Hc. destruct h as [|c' h]; [discriminate Hc|].
    cbn [starts_with app andb]. rewrite Ascii.eqb_sym.
    destruct (Ascii.eqb c' ":"); [discriminate Hc|reflexivity].
Qed.

Lemma words_join ws :
  forallb hex_word ws = true -> words (join (js ":") ws) = ws.
Proof.
  intros Hws. destruct ws as [|w ws]; [reflexivity|].
  destruct (join_words_separate _ Hws) as [_ Hhead].
  destruct (Hhead ltac:(discriminate)) as (c & r & E & _).
  unfold words. rewrite E, <- E. apply (split_join ":"%char); [discriminate|].
  apply forallb_Forall in Hws. eapply Forall_impl; [exact Hws|].
  intros x. apply hex_word_no_colon.
Qed.

Lemma final_segment_suffix s : exists p, s = p ++ final_segment s.
Proof.
  destruct (lastIndexOf_colon s) as [(_ & _ & -> & _)|(p & seg & -> & _ & _ & -> & _)].
  - exists []. reflexivity.
  - exists (p ++ js ":"). rewrite <- app_assoc. reflexivity.
Qed.

Lemma not_dotted_quad_without_dot s : ("."%char : ascii) ∉ s -> is_dotted_quad s = false.
Proof. intros H. unfold is_dotted_quad. rewrite split_absent by exact H. reflexivity. Qed.

Lemma final_segment_without_dot s :
  ("."%char : ascii) ∉ s -> is_dotted_quad (final_segment s) = false.
Proof.
  intros H. apply not_dotted_quad_without_dot. destruct (final_segment_suffix s) as [p E].
  intros Hin. apply H. rewrite E. apply elem_of_app. right. exact Hin.
Qed.

Lemma canonical_no_dot s :
  Forall (fun c => lower_hex_or_colon c = true) s -> ("."%char : ascii) ∉ s.
Proof. intros H Hin. rewrite Forall_forall in H. apply H in Hin. discriminate Hin. Qed.

Lemma zero_run_replicate (ws : list Z) s n :
  zero_run ws s n -> take n (drop s ws) = replicate n 0.
Proof.
  revert s; induction n as [|n IH]; intros s Hz; [apply take_0|].
  pose proof (Hz s ltac:(lia)) as H0.
  assert (drop s ws = 0 :: drop (S s) ws) as E.
  { symmetry. apply drop_S in H0. symmetry. exact H0. }
  rewrite E. simpl. f_equal. apply IH. intros i Hi. apply Hz. lia.
Qed.

Lemma hex_words_of_numbers l :
  Forall (fun x => 0 <= x <= 65535) l ->
  forallb hex_word (toString16 <$> l) = true /\ hex_number <$> (toString16 <$> l) = l.
Proof.
  intros Hl. split.
  - apply forallb_Forall, Forall_fmap. eapply Forall_impl; [exact Hl|].
    intros x Hx. simpl. apply toString16_word. exact Hx.
  - rewrite <- list_fmap_compose. apply fmap_fixed. eapply Forall_impl; [exact Hl|].
    intros x Hx. simpl. apply toString16_word. exact Hx.
Qed.

Lemma IPv6_format_parse (a : IPv6) :
  wf6 a -> IPv6_parse (IPv6_toString a) = Some a.
Proof.
  intros Ha. apply items_ok_spec in Ha as [Hlen Hr]. destruct a as [ws]. simpl in *.
  assert (Forall (fun x => 0 <= x) ws) as Hpos.
  { eapply Forall_impl; [exact Hr|]. simpl. intros; lia. }
  pose proof (formatIPv6_chars _ Hpos) as Hchars.
  unfold IPv6_toString. simpl _words. rewrite (toLowerCase_id _ Hchars).
  rewrite IPv6_parse_final, parseIPv4Bytes_spec.
  rewrite (final_segment_without_dot _ (canonical_no_dot _ Hchars)).
  destruct (formatIPv6_spec ws Hlen) as [[_ E]|(s & n & (Hz & Hn & _) & E)]; rewrite E.
  - destruct (hex_words_of_numbers ws Hr) as [Hw Hv].
    destruct (join_words_separate _ Hw) as [Hsep _].
    rewrite parseIPv6Words_plain by (apply occurrences_separate; exact Hsep).
    rewrite (split_join ":"%char).
    + rewrite length_fmap, Hlen, Hw, Hv. reflexivity.
    + destruct ws; [discriminate Hlen|discriminate].
    + apply forallb_Forall in Hw. eapply Forall_impl; [exact Hw|].
      intros x. apply hex_word_no_colon.
  - destruct (zero_run_bound ws s n Hz) as [?|Hsn]; [lia|].
    destruct (hex_words_of_numbers (take s ws) (Forall_take _ _ _ Hr)) as [Hwh Hvh].
    destruct (hex_words_of_numbers (drop (s + n) ws) (Forall_drop _ _ _ Hr)) as [Hwt Hvt].
    destruct (join_words_separate _ Hwh) as [Hseph _].
    destruct (join_words_separate _ Hwt) as [Hsept Hheadt].
    rewrite (parseIPv6Words_compressed _ (join (js ":") (toString16 <$> take s ws))
               (join (js ":") (toString16 <$> drop (s + n) ws))); [|
      apply occurrences_one; [exact Hseph|exact Hsept|] | reflexivity].
    + rewrite !words_join by assumption. rewrite Hwh, Hwt, Hvh, Hvt.
      rewrite !length_fmap, length_take, length_drop.
      replace (s `min` length ws + (length ws - (s + n)))%nat with (8 - n)%nat by lia.
      destruct (Nat.leb_spec (8 - n) 7); [|lia]. simpl. do 2 f_equal.
      replace (8 - s `min` length ws - (length ws - (s + n)))%nat with n by lia.
      rewrite <- (zero_run_replicate ws s n Hz).
      rewrite <- (take_drop s ws) at 4. f_equal.
      rewrite <- (take_drop n (drop s ws)) at 2. f_equal.
      rewrite drop_drop. reflexivity.
    + destruct (toString16 <$> drop (s + n) ws) as [|w l] eqn:Ed; [left; reflexivity|right].
      apply Hheadt. discriminate.
Qed.

(** X3: the text that [toString] writes for a well-formed IPv6 address parses
    back to that address. *)
Theorem IPv6_toString_parse (a : IPv6) :
  wf6 a -> IPv6_parse (IPv6_toString a) = Some a.
Proof. exact (IPv6_format_parse a). Qed.

Lemma IPv6_toString_parse_witness :
  wf6 (mkIPv6 [1; 0; 0; 0; 5; 0; 0; 0]) /\
  IPv6_parse (IPv6_toString (mkIPv6 [1; 0; 0; 0; 5; 0; 0; 0]))
  = Some (mkIPv6 [1; 0; 0; 0; 5; 0; 0; 0]).
Proof.
  split; [reflexivity|].
  apply (IPv6_toString_parse (mkIPv6 [1; 0; 0; 0; 5; 0; 0; 0])). reflexivity.
Defined.
(** ** The facade: canonical texts and the two grammars *)

Lemma dotted_quad_no_colon s : is_dotted_quad s = true -> (":"%char : ascii) ∉ s.
Proof.
  intros H. apply is_dotted_quad_spec in H as (g1 & g2 & g3 & g4 & H1 & H2 & H3 & H4 & ->).
  apply octet_text_no_colon in H1, H2, H3, H4.
  repeat (rewrite elem_of_app || rewrite elem_of_cons). intros [?|[E|[?|[E|[?|[E|?]]]]]];
    try contradiction; discriminate E.
Qed.

Lemma IPv6_parse_no_colon s : (":"%char : ascii) ∉ s -> IPv6_parse s = None.
Proof.
  intros Hc. unfold IPv6_parse.
  destruct (lastIndexOf_colon s) as [(_ & -> & _)|(p & seg & -> & _)]; [reflexivity|].
  exfalso. apply Hc. apply elem_of_app. right. left.
Qed.

(** X4: no text is accepted by both [IPv4.parse] and [IPv6.parse], so the
    order in which [IP.parse] tries them does not matter. *)
Theorem IP_parse_dispatch (s : jstr) :
  (IPv4_parse s = None \/ IPv6_parse s = None) /\
  (forall a, IP_parse s = Some (V4 a) <-> IPv4_parse s = Some a) /\
  (forall b, IP_parse s = Some (V6 b) <-> IPv6_parse s = Some b).
Proof.
  assert (IPv4_parse s = None \/ IPv6_parse s = None) as Hd.
  { rewrite IPv4_parse_spec. destruct (is_dotted_quad s) eqn:E; [right|left; reflexivity].
    apply IPv6_parse_no_colon, dotted_quad_no_colon, E. }
  split; [exact Hd|]. unfold IP_parse. split.
  - intros a. destruct (IPv4_parse s) as [a'|].
    + split; intros H; inversion H; reflexivity.
    + destruct (IPv6_parse s); simpl; split; discriminate.
  - intros b. destruct (IPv4_parse s) as [a'|].
    + destruct Hd as [Hd|Hd]; [discriminate Hd|]. rewrite Hd. split; discriminate.
    + destruct (IPv6_parse s) as [b'|]; simpl; split; intros H; inversion H; reflexivity.
Qed.

Lemma IP_format_parse (x : IP) : wf x -> IP_parse (IP_toString x) = Some x.
Proof.
  destruct x as [x|x]; intros Hx; simpl in *; unfold IP_parse.
  - rewrite IPv4_format_parse by exact Hx. reflexivity.
  - assert (IPv4_parse (IPv6_toString x) = None) as ->.
    { rewrite IPv4_parse_spec, not_dotted_quad_without_dot; [reflexivity|].
      apply canonical_no_dot. unfold IPv6_toString.
      apply items_ok_spec in Hx as [_ Hr].
      assert (Forall (fun x => 0 <= x) (_words x)) as Hpos.
      { eapply Forall_impl; [exact Hr|]. simpl. intros; lia. }
      rewrite (toLowerCase_id _ (formatIPv6_chars _ Hpos)).
      apply formatIPv6_chars, Hpos. }
    rewrite IPv6_format_parse by exact Hx. reflexivity.
Qed.

(** X5: the canonical text of a well-formed address of either family parses
    back to that address, so different addresses have different texts. *)
Theorem IP_toString_parse (a b : IP) :
  wf a -> wf b ->
  IP_parse (IP_toString a) = Some a /\
  (IP_toString a = IP_toString b -> a = b).
Proof.
  intros Ha Hb. split; [apply IP_format_parse, Ha|].
  intros E. pose proof (IP_format_parse a Ha) as H1.
  rewrite E, (IP_format_parse b Hb) in H1. congruence.
Qed.

Lemma IP_toString_parse_witness :
  wf (V4 (mkIPv4 [1; 2; 3; 4])) /\ wf (V6 (mkIPv6 [0; 0; 0; 0; 0; 0; 0; 1])) /\
  IP_parse (IP_toString (V4 (mkIPv4 [1; 2; 3; 4]))) = Some (V4 (mkIPv4 [1; 2; 3; 4])).
Proof.
  split; [reflexivity|]. split; [reflexivity|].
  apply (IP_toString_parse (V4 (mkIPv4 [1; 2; 3; 4])) (V6 (mkIPv6 [0; 0; 0; 0; 0; 0; 0; 1])));
    reflexivity.
Defined.

Lemma digit_address_char c : is_digit c = true -> address_char c = true.
Proof. unfold address_char, hex_digit. intros ->. reflexivity. Qed.

Lemma hex_or_colon_address_char c : hex_or_colon c = true -> address_char c = true.
Proof.
  unfold address_char, hex_or_colon. intros H. apply orb_true_iff in H as [-> | ->];
    [reflexivity|]. rewrite orb_true_r. reflexivity.
Qed.

Lemma dotted_quad_chars s : is_dotted_quad s = true -> Forall (fun c => address_char c = true) s.
Proof.
  intros H. apply is_dotted_quad_spec in H as (g1 & g2 & g3 & g4 & H1 & H2 & H3 & H4 & ->).
  assert (forall g, octet_text g = true -> Forall (fun c => address_char c = true) g) as Hg.
  { intros g Hg. eapply Forall_impl; [apply octet_text_digits, Hg|]. apply digit_address_char. }
  repeat (apply Forall_app; split; [apply Hg; assumption|]; apply Forall_cons; split;
          [reflexivity|]).
  apply Hg, H4.
Qed.

Lemma forallb_hex_or_colon_chars s :
  forallb hex_or_colon s = true -> Forall (fun c => address_char c = true) s.
Proof.
  intros H. apply forallb_Forall in H. eapply Forall_impl; [exact H|].
  apply hex_or_colon_address_char.
Qed.

Lemma IP_parse_chars s a : IP_parse s = Some a -> Forall (fun c => address_char c = true) s.
Proof.
  unfold IP_parse. rewrite IPv4_parse_spec.
  destruct (is_dotted_quad s) eqn:E; [intros _; apply dotted_quad_chars, E|].
  rewrite IPv6_parse_final, parseIPv4Bytes_spec.
  destruct (is_dotted_quad (final_segment s)) eqn:E4.
  - destruct (parseIPv6Words _) as [ws|] eqn:Hws; [|discriminate]. intros _.
    apply parseIPv6Words_regex in Hws as [Hc _].
    rewrite forallb_app in Hc. apply andb_true_iff in Hc as [Hc _].
    destruct (lastIndexOf_colon s) as [(_ & _ & Ef & Eu)|(p & seg & Es & _ & _ & Ef & Eu)].
    + rewrite <- Ef. apply dotted_quad_chars, E4.
    + rewrite Ef in E4. rewrite Eu in Hc. rewrite Es.
      replace (p ++ ":"%char :: seg) with ((p ++ js ":") ++ seg)
        by (rewrite <- app_assoc; reflexivity).
      apply Forall_app. split; [apply forallb_hex_or_colon_chars, Hc|].
      apply dotted_quad_chars, E4.
  - destruct (parseIPv6Words s) as [ws|] eqn:Hws; [|discriminate]. intros _.
    apply parseIPv6Words_regex in Hws as [Hc _]. apply forallb_hex_or_colon_chars, Hc.
Qed.

Lemma chars_exclude (c : ascii) (s : jstr) :
  address_char c = false -> Forall (fun c => address_char c = true) s -> c ∉ s.
Proof. intros Hc H Hin. rewrite Forall_forall in H. apply H in Hin. congruence. Qed.

(** X6: a text that [IP.parse] accepts consists of hexadecimal digits, colons
    and dots; the address it gives is well-formed, and is what [IP.parse]
    gives for the canonical text of that address. *)
Theorem IP_parse_sound (s : jstr) (a : IP) :
  IP_parse s = Some a ->
  Forall (fun c => address_char c = true) s /\ wf a /\
  IP_parse (IP_toString a) = Some a.
Proof.
  intros H. split; [exact (IP_parse_chars s a H)|].
  pose proof (IP_parse_wf s a H) as Ha. split; [exact Ha|].
  apply IP_format_parse, Ha.
Qed.

Lemma IP_parse_sound_witness :
  IP_parse (js "2001:DB8:0:0:0:0:192.0.2.1")
  = Some (V6 (mkIPv6 [8193; 3512; 0; 0; 0; 0; 49152; 513])) /\
  IP_toString (V6 (mkIPv6 [8193; 3512; 0; 0; 0; 0; 49152; 513])) = js "2001:db8::c000:201" /\
  IP_parse (js "2001:db8::c000:201")
  = Some (V6 (mkIPv6 [8193; 3512; 0; 0; 0; 0; 49152; 513])).
Proof.
  split; [reflexivity|]. split; [reflexivity|].
  apply (IP_parse_sound (js "2001:DB8:0:0:0:0:192.0.2.1")
           (V6 (mkIPv6 [8193; 3512; 0; 0; 0; 0; 49152; 513]))). reflexivity.
Defined.
(** ** The order of addresses and their values *)

Lemma be_value_cons w x (l : list Z) :
  0 <= w -> be_value w (x :: l) = x * (2 ^ w) ^ Z.of_nat (length l) + be_value w l.
Proof.
  intros Hw. change (x :: l) with ([x] ++ l). rewrite be_value_app by exact Hw.
  unfold be_value at 1. simpl. reflexivity.
Qed.

Lemma cmp_be_value w (l r : list Z) :
  0 <= w -> length l = length r ->
  Forall (fun x => 0 <= x <= 2 ^ w - 1) l -> Forall (fun x => 0 <= x <= 2 ^ w - 1) r ->
  cmpSameLengthArrays l r =
    match be_value w l ?= be_value w r with Lt => -1 | Eq => 0 | Gt => 1 end.
Proof.
  intros Hw. revert r; induction l as [|x l IH]; intros [|y r] Hlen Hl Hr;
    try discriminate Hlen; [reflexivity|].
  apply Forall_cons in Hl as [Hx Hl]. apply Forall_cons in Hr as [Hy Hr].
  simpl in Hlen. injection Hlen as Hlen.
  pose proof (be_value_range w Hw l Hl) as Rl. pose proof (be_value_range w Hw r Hr) as Rr.
  rewrite !be_value_cons by exact Hw. rewrite <- Hlen in *.
  assert (1 <= (2 ^ w) ^ Z.of_nat (length l)) as HP.
  { pose proof (B_pos w Hw). pose proof (Z.pow_pos_nonneg (2 ^ w) (Z.of_nat (length l))). lia. }
  cbn [cmpSameLengthArrays]. destruct (Z.eqb_spec x y) as [->|Hxy]; cbn [negb].
  - rewrite IH by assumption. rewrite Z.add_compare_mono_l. reflexivity.
  - destruct (Z.ltb_spec x y) as [Hlt|Hge].
    + assert (x * (2 ^ w) ^ Z.of_nat (length l) + be_value w l
              < y * (2 ^ w) ^ Z.of_nat (length l) + be_value w r) as H by nia.
      apply Z.compare_lt_iff in H. rewrite H. reflexivity.
    + assert (y * (2 ^ w) ^ Z.of_nat (length l) + be_value w r
              < x * (2 ^ w) ^ Z.of_nat (length l) + be_value w l) as H by nia.
      apply Z.compare_gt_iff in H. rewrite H. reflexivity.
Qed.

(** X7: within one family [IP.cmp] is the order of the addresses read as
    big-endian numbers. *)
Theorem IP_cmp_value (a b : IP) :
  wf a -> wf b -> IP_version a = IP_version b ->
  IP_cmp a b = Normal (match value a ?= value b with Lt => -1 | Eq => 0 | Gt => 1 end).
Proof.
  intros Ha Hb Hv. apply wf_items in Ha as [La Ra]. apply wf_items in Hb as [Lb Rb].
  destruct a as [a|a], b as [b|b]; try discriminate Hv;
    unfold item_width, item_count in *; simpl in *; f_equal;
    [apply (cmp_be_value 8)|apply (cmp_be_value 16)]; try assumption; lia.
Qed.

Lemma IP_cmp_value_witness :
  wf (V4 (mkIPv4 [9; 255; 255; 255])) /\ wf (V4 (mkIPv4 [10; 0; 0; 0])) /\
  IP_cmp (V4 (mkIPv4 [9; 255; 255; 255])) (V4 (mkIPv4 [10; 0; 0; 0])) = Normal (-1).
Proof.
  split; [reflexivity|]. split; [reflexivity|].
  apply (IP_cmp_value (V4 (mkIPv4 [9; 255; 255; 255])) (V4 (mkIPv4 [10; 0; 0; 0])));
    reflexivity.
Defined.

(** ** [_next] keeps addresses well-formed *)

(** While the loop runs, only the item it is about to read can exceed the
    maximum, and by one at most. *)
Lemma next_loop_range top n (a a' : list Z) :
  0 <= top -> (n <= length a)%nat ->
  (forall i x, a !! i = Some x -> 0 <= x <= top \/ (S i = n /\ x = top + 1)) ->
  next_loop top n a = Some a' ->
  length a' = length a /\ Forall (fun x => 0 <= x <= top) a'.
Proof.
  intros Htop. revert a; induction n as [|i IH]; intros a Hn Hinv.
  - intros [= <-]. split; [reflexivity|]. apply Forall_lookup. intros i x Hx.
    destruct (Hinv i x Hx) as [?|[? _]]; [assumption|discriminate].
  - rewrite next_loop_S.
    destruct (a !! i) as [b|] eqn:Hb; [|apply lookup_ge_None in Hb; lia].
    assert (item a i = b) as -> by (unfold item; rewrite Hb; reflexivity).
    assert (0 <= b <= top + 1) as Rb by (destruct (Hinv i b Hb) as [?|[_ ?]]; lia).
    destruct ((b =? top) && (Z.of_nat i =? 0)) eqn:E1; [discriminate|].
    destruct (Z.ltb_spec b top) as [Hlt|Hge].
    + intros [= <-]. split; [apply length_insert|].
      apply Forall_lookup. intros j x Hx.
      destruct (decide (i = j)) as [<-|Hij].
      * rewrite list_lookup_insert_eq in Hx by lia. injection Hx as <-. lia.
      * rewrite list_lookup_insert_ne in Hx by exact Hij.
        destruct (Hinv j x Hx) as [?|[? _]]; [assumption|congruence].
    + assert (forall j x, <[i := 0]> a !! j = Some x -> 0 <= x <= top) as H1.
      { intros j x Hx. destruct (decide (i = j)) as [<-|Hij].
        - rewrite list_lookup_insert_eq in Hx by lia. injection Hx as <-. lia.
        - rewrite list_lookup_insert_ne in Hx by exact Hij.
          destruct (Hinv j x Hx) as [?|[? _]]; [assumption|congruence]. }
      destruct i as [|j].
      * intros H. apply IH in H.
        -- rewrite length_insert in H. exact H.
        -- lia.
        -- intros k x Hx. left. eapply H1, Hx.
      * intros H. apply IH in H.
        -- rewrite !length_insert in H. exact H.
        -- rewrite !length_insert. lia.
        -- intros k x Hx. destruct (decide (j = k)) as [<-|Hjk].
           ++ rewrite list_lookup_insert_eq in Hx by (rewrite length_insert; lia).
              injection Hx as <-.
              destruct (<[S j := 0]> a !! j) as [y|] eqn:Hy.
              ** unfold item. rewrite Hy. simpl. specialize (H1 j y Hy).
                 destruct (Z.eq_dec y top); [right; split; [reflexivity|lia]|left; lia].
              ** apply lookup_ge_None in Hy. rewrite length_insert in Hy. lia.
           ++ rewrite list_lookup_insert_ne in Hx by exact Hjk. left. eapply H1, Hx.
Qed.

Lemma IP_next_preserves_wf (a a' : IP) :
  wf a -> IP_next a = Some a' -> wf a' /\ IP_version a' = IP_version a.
Proof.
  intros Ha. pose proof Ha as Hi. apply wf_items in Hi as [Hl Hr].
  destruct a as [[a]|[a]]; unfold item_width, item_count in *; simpl in *;
    unfold IPv4_next, IPv6_next; simpl.
  - destruct (next_loop 255 (length a) a) as [r|] eqn:E; [|discriminate].
    intros [= <-]. split; [|reflexivity].
    apply next_loop_range in E as [L R]; [| lia | lia |].
    + apply (wf_with_items (V4 (mkIPv4 a))); [unfold item_count; simpl in *; lia|exact R].
    + intros i x Hx. left. rewrite Forall_lookup in Hr. apply (Hr i x Hx).
  - destruct (next_loop 65535 (length a) a) as [r|] eqn:E; [|discriminate].
    intros [= <-]. split; [|reflexivity].
    apply next_loop_range in E as [L R]; [| lia | lia |].
    + apply (wf_with_items (V6 (mkIPv6 a))); [unfold item_count; simpl in *; lia|exact R].
    + intros i x Hx. left. rewrite Forall_lookup in Hr. apply (Hr i x Hx).
Qed.

(** X8: the successor of a well-formed address, when there is one, is a
    well-formed address of the same family. *)
Theorem IP_next_wf (a a' : IP) :
  wf a -> IP_next a = Some a' -> wf a' /\ IP_version a' = IP_version a.
Proof. exact (IP_next_preserves_wf a a'). Qed.

Lemma IP_next_wf_witness :
  wf (V4 (mkIPv4 [1; 255; 255; 255])) /\
  IP_next (V4 (mkIPv4 [1; 255; 255; 255])) = Some (V4 (mkIPv4 [3; 0; 0; 0])) /\
  wf (V4 (mkIPv4 [3; 0; 0; 0])).
Proof.
  split; [reflexivity|]. split; [reflexivity|].
  apply (IP_next_wf (V4 (mkIPv4 [1; 255; 255; 255])) (V4 (mkIPv4 [3; 0; 0; 0])));
    reflexivity.
Defined.
(** ** The block of a prefix *)

Lemma floor_mod m x : 0 < m -> (x - x mod m) mod m = 0.
Proof.
  intros Hm. rewrite (Z.div_mod x m) at 1 by lia.
  replace (m * (x / m) + x mod m - x mod m) with ((x / m) * m) by lia.
  apply Z.mod_mul. lia.
Qed.

Lemma ceil_mod m x : 0 < m -> (x - x mod m + (m - 1)) mod m = m - 1.
Proof.
  intros Hm. rewrite (Z.div_mod x m) at 1 by lia.
  replace (m * (x / m) + x mod m - x mod m + (m - 1)) with ((m - 1) + (x / m) * m) by lia.
  rewrite Z_mod_plus_full. apply Z.mod_small. lia.
Qed.

Lemma mod_shift V x M B :
  0 < M -> 0 <= x < B -> (V * B + x) mod (M * B) = (V mod M) * B + x.
Proof.
  intros HM Hx. symmetry. apply (Z.mod_unique _ _ (V / M)).
  - left. pose proof (Z.mod_pos_bound V M HM). nia.
  - rewrite (Z.div_mod V M) at 1 by lia. lia.
Qed.

Section Block.

Variable W : Z.
Hypothesis HW : W = 8 \/ W = 16.

Lemma mask_items a bits i x :
  Forall (fun x => 0 <= x <= 2 ^ W - 1) a -> a !! i = Some x ->
  exists m, 0 < m /\
    mask a bits W 0 !! i = Some (x - x mod m) /\
    mask a bits W 1 !! i = Some (x - x mod m + (m - 1)).
Proof.
  intros Ha Hi. destruct (mask_spec W HW a bits i x Ha Hi) as [H0 H1].
  eexists. split; [|split; [exact H0|exact H1]].
  apply Z.pow_pos_nonneg; [lia|]. unfold clamp. lia.
Qed.

Lemma mask_bounds a bits :
  Forall (fun x => 0 <= x <= 2 ^ W - 1) a ->
  Forall2 Z.le (mask a bits W 0) a /\ Forall2 Z.le a (mask a bits W 1).
Proof.
  intros Ha. split; apply Forall2_same_length_lookup;
    (split; [rewrite mask_length; reflexivity|]).
  - intros i y x Hy Hx. destruct (mask_items a bits i x Ha Hx) as (m & Hm & H0 & _).
    rewrite H0 in Hy. injection Hy as <-. pose proof (Z.mod_pos_bound x m Hm). lia.
  - intros i x y Hx Hy. destruct (mask_items a bits i x Ha Hx) as (m & Hm & _ & H1).
    rewrite H1 in Hy. injection Hy as <-. pose proof (Z.mod_pos_bound x m Hm). lia.
Qed.

Lemma mask_mask a bits v :
  Forall (fun x => 0 <= x <= 2 ^ W - 1) a -> v = 0 \/ v = 1 ->
  mask (mask a bits W v) bits W 0 = mask a bits W 0 /\
  mask (mask a bits W v) bits W 1 = mask a bits W 1.
Proof.
  intros Ha Hv.
  assert (Forall (fun x => 0 <= x <= 2 ^ W - 1) (mask a bits W v)) as Hm.
  { destruct (mask_in_range W HW a bits Ha) as (H0 & H1 & _). destruct Hv as [->| ->]; assumption. }
  assert (forall i, mask (mask a bits W v) bits W 0 !! i = mask a bits W 0 !! i /\
                    mask (mask a bits W v) bits W 1 !! i = mask a bits W 1 !! i) as H.
  { intros i. destruct (a !! i) as [x|] eqn:Hx.
    - destruct (mask_spec W HW a bits i x Ha Hx) as [H0 H1].
      set (m := 2 ^ clamp ((Z.of_nat i + 1) * W - bits) 0 W) in *.
      assert (0 < m) as Hpos by (apply Z.pow_pos_nonneg; [lia|]; unfold clamp; lia).
      destruct Hv as [->| ->].
      + destruct (mask_spec W HW _ bits i _ Hm H0) as [-> ->]. fold m.
        rewrite H0, H1, floor_mod by exact Hpos. split; f_equal; lia.
      + destruct (mask_spec W HW _ bits i _ Hm H1) as [-> ->]. fold m.
        rewrite H0, H1, ceil_mod by exact Hpos. split; f_equal; lia.
    - rewrite !(mask_lookup W HW), Hx. split; reflexivity. }
  split; apply list_eq; intros i; apply H.
Qed.

Lemma mask_snoc l x bits :
  0 <= x <= 2 ^ W - 1 ->
  let lb := clamp ((Z.of_nat (length l) + 1) * W - bits) 0 W in
  mask (l ++ [x]) bits W 0 = mask l bits W 0 ++ [x - x mod 2 ^ lb] /\
  mask (l ++ [x]) bits W 1 = mask l bits W 1 ++ [x - x mod 2 ^ lb + (2 ^ lb - 1)].
Proof.
  intros Hx lb. unfold mask. cbv zeta. rewrite !imap_app. cbn [imap].
  rewrite Nat.add_0_r, (item_mask_value W HW), (leftBits_clamp W HW). fold lb.
  assert (0 <= lb <= W) by (unfold lb, clamp; lia).
  rewrite (mask_item_first W HW), (mask_item_last W HW) by lia. split; reflexivity.
Qed.

Lemma mask_value (a : list Z) bits :
  Forall (fun x => 0 <= x <= 2 ^ W - 1) a ->
  let h := clamp (Z.of_nat (length a) * W - bits) 0 (Z.of_nat (length a) * W) in
  be_value W (mask a bits W 0) = be_value W a - be_value W a mod 2 ^ h /\
  be_value W (mask a bits W 1) = be_value W a - be_value W a mod 2 ^ h + (2 ^ h - 1).
Proof.
  assert (0 <= W) as HW0 by lia. assert (0 < 2 ^ W) as HB by (apply Z.pow_pos_nonneg; lia).
  induction a as [|x l IH] using rev_ind; intros Ha.
  - cbv zeta. change (Z.of_nat (length (@nil Z)) * W) with 0.
    replace (clamp (0 - bits) 0 0) with 0 by (unfold clamp; lia).
    split; reflexivity.
  - apply Forall_app in Ha as [Hl Hx]. apply Forall_cons in Hx as [Hx _].
    specialize (IH Hl). cbv zeta in IH. destruct IH as [IH0 IH1].
    destruct (mask_snoc l x bits Hx) as [-> ->].
    rewrite !be_value_snoc, IH0, IH1. rewrite length_app, Nat.add_1_r, Nat2Z.inj_succ.
    cbv zeta. unfold Z.succ.
    set (n := Z.of_nat (length l)). set (V := be_value W l).
    assert (0 <= n) as Hn by (unfold n; lia).
    pose proof (be_value_range W HW0 l Hl) as RV. fold V n in RV.
    set (d := (n + 1) * W - bits).
    replace (n * W - bits) with (d - W) by (unfold d; lia).
    destruct (Z.le_gt_cases d 0) as [Hd|Hd]; [|destruct (Z.le_gt_cases d W) as [Hd'|Hd']].
    + replace (clamp d 0 W) with 0 by (unfold clamp; lia).
      replace (clamp (d - W) 0 (n * W)) with 0 by (unfold clamp; nia).
      replace (clamp d 0 ((n + 1) * W)) with 0 by (unfold clamp; nia).
      change (2 ^ 0) with 1. rewrite !Z.mod_1_r. split; lia.
    + replace (clamp d 0 W) with d by (unfold clamp; lia).
      replace (clamp (d - W) 0 (n * W)) with 0 by (unfold clamp; nia).
      replace (clamp d 0 ((n + 1) * W)) with d by (unfold clamp; nia).
      change (2 ^ 0) with 1. rewrite !Z.mod_1_r.
      assert ((V * 2 ^ W + x) mod 2 ^ d = x mod 2 ^ d) as ->.
      { replace (2 ^ W) with (2 ^ (W - d) * 2 ^ d)
          by (rewrite <- Z.pow_add_r by lia; f_equal; lia).
        replace (V * (2 ^ (W - d) * 2 ^ d) + x) with (x + (V * 2 ^ (W - d)) * 2 ^ d) by lia.
        apply Z_mod_plus_full. }
      split; lia.
    + replace (clamp d 0 W) with W by (unfold clamp; lia).
      set (hl := clamp (d - W) 0 (n * W)).
      assert (0 <= hl) as Hhl by (unfold hl, clamp; nia).
      replace (clamp d 0 ((n + 1) * W)) with (hl + W) by (unfold hl, clamp; nia).
      rewrite Z.pow_add_r by lia.
      assert (0 < 2 ^ hl) as HM by (apply Z.pow_pos_nonneg; lia).
      rewrite (mod_shift V x (2 ^ hl) (2 ^ W)) by lia.
      rewrite (Z.mod_small x (2 ^ W)) by lia. split; lia.
Qed.

End Block.

(** X9: an address lies in each of its prefix ranges, whatever the prefix
    length: [cidr] does not throw, and [IP.cmp] puts the address between the
    first and the last address of the range. *)
Theorem IP_cidr_contains (a : IP) (bits : Z) :
  wf a ->
  exists first last c1 c2,
    IP_cidr a bits = Normal (mkIPRange first last (IP_version a)) /\
    wf first /\ wf last /\
    IP_version first = IP_version a /\ IP_version last = IP_version a /\
    IP_cmp first a = Normal c1 /\ c1 <= 0 /\
    IP_cmp a last = Normal c2 /\ c2 <= 0.
Proof.
  intros Ha. rewrite (IP_cidr_value a bits Ha).
  apply wf_items in Ha as [Hl Hr].
  destruct (mask_in_range _ (item_width_cases a) (items a) bits Hr) as (R0 & R1 & _).
  destruct (mask_bounds _ (item_width_cases a) (items a) bits Hr) as [B0 B1].
  apply cmp_pointwise_le in B0, B1.
  exists (with_items a (mask (items a) bits (item_width a) 0)),
    (with_items a (mask (items a) bits (item_width a) 1)),
    (cmpSameLengthArrays (mask (items a) bits (item_width a) 0) (items a)),
    (cmpSameLengthArrays (items a) (mask (items a) bits (item_width a) 1)).
  split; [reflexivity|].
  split; [apply wf_with_items; [rewrite mask_length; exact Hl|exact R0]|].
  split; [apply wf_with_items; [rewrite mask_length; exact Hl|exact R1]|].
  destruct a as [a|a]; simpl in *;
    (split; [reflexivity|]); (split; [reflexivity|]);
    (split; [reflexivity|]); (split; [exact B0|]); (split; [reflexivity|exact B1]).
Qed.

Lemma IP_cidr_contains_witness :
  wf (V4 (mkIPv4 [10; 1; 2; 3])) /\
  exists first last c1 c2,
    IP_cidr (V4 (mkIPv4 [10; 1; 2; 3])) 12 = Normal (mkIPRange first last 4) /\
    wf first /\ wf last /\
    IP_version first = 4 /\ IP_version last = 4 /\
    IP_cmp first (V4 (mkIPv4 [10; 1; 2; 3])) = Normal c1 /\ c1 <= 0 /\
    IP_cmp (V4 (mkIPv4 [10; 1; 2; 3])) last = Normal c2 /\ c2 <= 0.
Proof.
  split; [reflexivity|].
  apply (IP_cidr_contains (V4 (mkIPv4 [10; 1; 2; 3])) 12). reflexivity.
Defined.

(** X10: the prefix range of the first or the last address of a prefix range
    is that range again. *)
Theorem IP_cidr_idempotent (a : IP) (bits : Z) (r : IPRange) :
  wf a -> IP_cidr a bits = Normal r ->
  IP_cidr (IPRange_first r) bits = Normal r /\ IP_cidr (IPRange_last r) bits = Normal r.
Proof.
  intros Ha. rewrite (IP_cidr_value a bits Ha). intros [= <-]. cbn [IPRange_first IPRange_last].
  pose proof Ha as Hi. apply wf_items in Hi as [Hl Hr].
  destruct (mask_in_range _ (item_width_cases a) (items a) bits Hr) as (R0 & R1 & _).
  destruct (mask_mask _ (item_width_cases a) (items a) bits 0 Hr ltac:(auto)) as [E00 E01].
  destruct (mask_mask _ (item_width_cases a) (items a) bits 1 Hr ltac:(auto)) as [E10 E11].
  assert (wf (with_items a (mask (items a) bits (item_width a) 0))) as W0
    by (apply wf_with_items; [rewrite mask_length; exact Hl|exact R0]).
  assert (wf (with_items a (mask (items a) bits (item_width a) 1))) as W1
    by (apply wf_with_items; [rewrite mask_length; exact Hl|exact R1]).
  rewrite (IP_cidr_value _ bits W0), (IP_cidr_value _ bits W1).
  destruct a as [a|a]; unfold item_width in *; simpl in *;
    rewrite E00, E01, E10, E11; split; reflexivity.
Qed.

Lemma IP_cidr_idempotent_witness :
  wf (V4 (mkIPv4 [10; 1; 2; 3])) /\
  IP_cidr (V4 (mkIPv4 [10; 1; 2; 3])) 12
    = Normal (mkIPRange (V4 (mkIPv4 [10; 0; 0; 0])) (V4 (mkIPv4 [10; 15; 255; 255])) 4) /\
  IP_cidr (V4 (mkIPv4 [10; 0; 0; 0])) 12
    = Normal (mkIPRange (V4 (mkIPv4 [10; 0; 0; 0])) (V4 (mkIPv4 [10; 15; 255; 255])) 4) /\
  IP_cidr (V4 (mkIPv4 [10; 15; 255; 255])) 12
    = Normal (mkIPRange (V4 (mkIPv4 [10; 0; 0; 0])) (V4 (mkIPv4 [10; 15; 255; 255])) 4).
Proof.
  split; [reflexivity|]. split; [reflexivity|].
  apply (IP_cidr_idempotent (V4 (mkIPv4 [10; 1; 2; 3])) 12
           (mkIPRange (V4 (mkIPv4 [10; 0; 0; 0])) (V4 (mkIPv4 [10; 15; 255; 255])) 4));
    reflexivity.
Defined.

(** X11: read as numbers, the prefix range of an address is the aligned block
    of [2 ^ h] addresses around it, where [h] is the number of host bits
    [W * N - bits] brought into the interval from 0 to [W * N]. *)
Theorem IP_cidr_block (a : IP) (bits : Z) :
  wf a ->
  let h := clamp (item_width a * item_count a - bits) 0 (item_width a * item_count a) in
  exists r,
    IP_cidr a bits = Normal r /\
    value (IPRange_first r) = value a - value a mod 2 ^ h /\
    value (IPRange_last r) = value (IPRange_first r) + (2 ^ h - 1).
Proof.
  intros Ha h. rewrite (IP_cidr_value a bits Ha). eexists. split; [reflexivity|].
  cbn [IPRange_first IPRange_last].
  apply wf_items in Ha as [Hl Hr].
  pose proof (mask_value _ (item_width_cases a) (items a) bits Hr) as H. cbv zeta in H.
  assert (Z.of_nat (length (items a)) * item_width a = item_width a * item_count a) as E.
  { rewrite Hl. destruct a; unfold item_count; simpl; reflexivity. }
  rewrite E in H. fold h in H.
  destruct a as [a|a]; unfold item_width in *; simpl in *; lia.
Qed.

Lemma IP_cidr_block_witness :
  wf (V4 (mkIPv4 [10; 1; 2; 3])) /\
  exists r,
    IP_cidr (V4 (mkIPv4 [10; 1; 2; 3])) 12 = Normal r /\
    value (IPRange_first r) = 167838211 - 167838211 mod 2 ^ 20 /\
    value (IPRange_last r) = value (IPRange_first r) + (2 ^ 20 - 1).
Proof.
  split; [reflexivity|].
  apply (IP_cidr_block (V4 (mkIPv4 [10; 1; 2; 3])) 12). reflexivity.
Defined.

(** ** Prefix ranges partition a family *)

Lemma cmp_value_compare (a b : IP) :
  wf a -> wf b -> IP_version a = IP_version b ->
  cmp_value a b = match value a ?= value b with Lt => -1 | Eq => 0 | Gt => 1 end.
Proof.
  intros Ha Hb Hv. apply wf_items in Ha as [La Ra]. apply wf_items in Hb as [Lb Rb].
  destruct a as [a|a], b as [b|b]; try discriminate Hv;
    unfold item_width, item_count, cmp_value in *; simpl in *;
    [apply (cmp_be_value 8)|apply (cmp_be_value 16)]; try assumption; lia.
Qed.

Lemma cmp_value_le (a b : IP) :
  wf a -> wf b -> IP_version a = IP_version b ->
  (cmp_value a b <= 0 <-> value a <= value b).
Proof.
  intros Ha Hb Hv. rewrite cmp_value_compare by assumption.
  destruct (Z.compare_spec (value a) (value b)); lia.
Qed.

Lemma value_inj (a b : IP) :
  wf a -> wf b -> IP_version a = IP_version b -> value a = value b -> a = b.
Proof.
  intros Ha Hb Hv E. apply cmp_value_zero; [assumption..|].
  rewrite cmp_value_compare, E, Z.compare_refl by assumption. reflexivity.
Qed.

Lemma with_items_mask_wf a bits v :
  wf a -> v = 0 \/ v = 1 -> wf (with_items a (mask (items a) bits (item_width a) v)).
Proof.
  intros Ha Hv. apply wf_items in Ha as [Hl Hr].
  destruct (mask_in_range _ (item_width_cases a) (items a) bits Hr) as (R0 & R1 & _).
  apply wf_with_items; [rewrite mask_length; exact Hl|]. destruct Hv as [->| ->]; assumption.
Qed.

Lemma with_items_mask_bounds a bits :
  wf a ->
  cmp_value (with_items a (mask (items a) bits (item_width a) 0)) a <= 0 /\
  cmp_value a (with_items a (mask (items a) bits (item_width a) 1)) <= 0.
Proof.
  intros Ha. apply wf_items in Ha as [Hl Hr].
  destruct (mask_bounds _ (item_width_cases a) (items a) bits Hr) as [B0 B1].
  apply cmp_pointwise_le in B0, B1.
  destruct a as [a|a]; unfold cmp_value; simpl in *; auto.
Qed.

Lemma with_items_mask_value a bits :
  wf a ->
  let h := clamp (item_width a * item_count a - bits) 0 (item_width a * item_count a) in
  value (with_items a (mask (items a) bits (item_width a) 0)) = value a - value a mod 2 ^ h /\
  value (with_items a (mask (items a) bits (item_width a) 1))
  = value a - value a mod 2 ^ h + (2 ^ h - 1).
Proof.
  intros Ha h. apply wf_items in Ha as [Hl Hr].
  pose proof (mask_value _ (item_width_cases a) (items a) bits Hr) as H. cbv zeta in H.
  assert (Z.of_nat (length (items a)) * item_width a = item_width a * item_count a) as E.
  { rewrite Hl. destruct a; unfold item_count; simpl; reflexivity. }
  rewrite E in H. fold h in H.
  destruct a as [a|a]; unfold item_width in *; simpl in *; exact H.
Qed.

Lemma with_items_version a l : IP_version (with_items a l) = IP_version a.
Proof. destruct a; reflexivity. Qed.

Lemma with_items_same a b l : IP_version a = IP_version b -> with_items a l = with_items b l.
Proof. destruct a, b; try discriminate; reflexivity. Qed.

Lemma block_floor F m v : 0 < m -> F mod m = 0 -> F <= v <= F + (m - 1) -> v - v mod m = F.
Proof.
  intros Hm HF Hv. apply Z.mod_divide in HF as [q Hq]; [|lia].
  assert (v mod m = v - F) as ->; [|lia].
  symmetry. apply (Z.mod_unique _ _ q); [left; lia|lia].
Qed.

(** X12: two addresses of one family have the same prefix range exactly when
    one lies in the prefix range of the other: the prefix ranges of a given
    length partition the family. *)
Theorem IP_cidr_same_block (a b : IP) (bits : Z) (r : IPRange) :
  wf a -> wf b -> IP_version a = IP_version b -> IP_cidr a bits = Normal r ->
  (IP_cidr b bits = Normal r <->
   cmp_value (IPRange_first r) b <= 0 /\ cmp_value b (IPRange_last r) <= 0).
Proof.
  intros Ha Hb Hv. rewrite (IP_cidr_value a bits Ha), (IP_cidr_value b bits Hb).
  intros [= <-]. cbn [IPRange_first IPRange_last].
  assert (item_width b = item_width a) as EW by (unfold item_width; rewrite Hv; reflexivity).
  assert (item_count b = item_count a) as EN by (unfold item_count; rewrite Hv; reflexivity).
  pose proof (with_items_mask_value a bits Ha) as [Fa La].
  pose proof (with_items_mask_value b bits Hb) as [Fb Lb]. rewrite EW, EN in Fb, Lb.
  pose proof (with_items_mask_bounds b bits Hb) as [B0 B1]. rewrite EW in B0, B1.
  pose proof (with_items_mask_wf a bits 0 Ha ltac:(auto)) as W0a.
  pose proof (with_items_mask_wf a bits 1 Ha ltac:(auto)) as W1a.
  pose proof (with_items_mask_wf b bits 0 Hb ltac:(auto)) as W0b.
  pose proof (with_items_mask_wf b bits 1 Hb ltac:(auto)) as W1b. rewrite EW in W0b, W1b.
  set (h := clamp (item_width a * item_count a - bits) 0 (item_width a * item_count a)) in *.
  assert (0 < 2 ^ h) as Hm by (apply Z.pow_pos_nonneg; [lia|]; unfold h, clamp;
    destruct (item_width_cases a) as [-> | ->]; unfold item_count; destruct (_ =? _); lia).
  rewrite EW. split.
  - intros [= E0 E1 _]. rewrite <- E0, <- E1. split; assumption.
  - intros [H0 H1].
    apply cmp_value_le in H0; [|assumption|assumption|rewrite with_items_version; exact Hv].
    apply cmp_value_le in H1; [|assumption|assumption|rewrite with_items_version; congruence].
    assert (value b - value b mod 2 ^ h = value a - value a mod 2 ^ h) as E.
    { apply block_floor; [exact Hm|apply floor_mod, Hm|lia]. }
    assert (with_items b (mask (items b) bits (item_width a) 0)
            = with_items a (mask (items a) bits (item_width a) 0)) as ->.
    { apply value_inj; [assumption..| |lia]. rewrite !with_items_version. congruence. }
    assert (with_items b (mask (items b) bits (item_width a) 1)
            = with_items a (mask (items a) bits (item_width a) 1)) as ->.
    { apply value_inj; [assumption..| |lia]. rewrite !with_items_version. congruence. }
    rewrite Hv. reflexivity.
Qed.

Lemma IP_cidr_same_block_witness :
  wf (V4 (mkIPv4 [10; 1; 2; 3])) /\ wf (V4 (mkIPv4 [10; 14; 0; 9])) /\
  IP_cidr (V4 (mkIPv4 [10; 1; 2; 3])) 12
  = Normal (mkIPRange (V4 (mkIPv4 [10; 0; 0; 0])) (V4 (mkIPv4 [10; 15; 255; 255])) 4) /\
  (IP_cidr (V4 (mkIPv4 [10; 14; 0; 9])) 12
   = Normal (mkIPRange (V4 (mkIPv4 [10; 0; 0; 0])) (V4 (mkIPv4 [10; 15; 255; 255])) 4) <->
   cmp_value (V4 (mkIPv4 [10; 0; 0; 0])) (V4 (mkIPv4 [10; 14; 0; 9])) <= 0 /\
   cmp_value (V4 (mkIPv4 [10; 14; 0; 9])) (V4 (mkIPv4 [10; 15; 255; 255])) <= 0).
Proof.
  split; [reflexivity|]. split; [reflexivity|]. split; [reflexivity|].
  apply (IP_cidr_same_block (V4 (mkIPv4 [10; 1; 2; 3])) (V4 (mkIPv4 [10; 14; 0; 9])) 12
           (mkIPRange (V4 (mkIPv4 [10; 0; 0; 0])) (V4 (mkIPv4 [10; 15; 255; 255])) 4));
    reflexivity.
Defined.
(** ** [IPRange.parse] *)

Lemma index_from_absent (c : ascii) (s : jstr) pos : c ∉ s -> index_from [c] s pos = -1.
Proof.
  revert pos; induction s as [|d s IH]; intros pos Hc; [reflexivity|].
  apply not_elem_of_cons in Hc as [Hd Hs].
  cbn [index_from starts_with]. destruct (Ascii.eqb_spec c d) as [->|_]; [contradiction|].
  apply IH, Hs.
Qed.

Lemma indexOf_absent (c : ascii) (s : jstr) : c ∉ s -> indexOf s [c] 0 = -1.
Proof. intros H. rewrite indexOf_0. apply index_from_absent, H. Qed.

Lemma index_from_present (c : ascii) (s t : jstr) pos :
  0 <= pos -> 0 <= index_from [c] (s ++ c :: t) pos.
Proof.
  revert pos; induction s as [|d s IH]; intros pos Hpos.
  - cbn [app index_from starts_with]. rewrite Ascii.eqb_refl. exact Hpos.
  - cbn [app index_from starts_with]. destruct (Ascii.eqb c d); cbn [andb].
    + exact Hpos.
    + apply IH. lia.
Qed.

Lemma indexOf_present (c : ascii) (s t : jstr) : 0 <= indexOf (s ++ c :: t) [c] 0.
Proof. rewrite indexOf_0. apply index_from_present. lia. Qed.

Lemma run_Rep_elem p lo hi s caps x :
  x ∈ run (Rep p lo hi) s caps <->
  exists n : nat, (lo <= n <= span p hi s)%nat /\ x = (drop n s, caps).
Proof.
  cbn [run]. rewrite list_elem_of_fmap. split.
  - intros (n & -> & Hn). apply elem_of_reverse, elem_of_seq in Hn. exists n. split; [lia|reflexivity].
  - intros (n & Hn & ->). exists n. split; [reflexivity|].
    apply elem_of_reverse, elem_of_seq. lia.
Qed.

Lemma span_stop p (t d : jstr) c :
  Forall (fun c => p c = true) t -> p c = false -> span p None (t ++ c :: d) = length t.
Proof.
  intros Ht Hc. induction Ht as [|e t He _ IH].
  - cbn [app span]. rewrite Hc. reflexivity.
  - cbn [app span length fmap option_fmap option_map]. rewrite He, IH. reflexivity.
Qed.

Lemma span_all p (d : jstr) : Forall (fun c => p c = true) d -> span p None d = length d.
Proof.
  induction 1 as [|e d He _ IH]; [reflexivity|].
  cbn [span length fmap option_fmap option_map]. rewrite He, IH. reflexivity.
Qed.

(** [/^([^/]+)\/(\d+)$/] on an address text, a slash and digits. *)
Lemma match_anchored_CIDR_REGEX (t d : jstr) :
  t <> [] -> ("/"%char : ascii) ∉ t -> d <> [] -> Forall (fun c => is_digit c = true) d ->
  match_anchored CIDR_REGEX (t ++ "/"%char :: d) = Some [t; d].
Proof.
  intros Ht Hs Hd Hdig.
  assert (Forall (fun c => negb (Ascii.eqb c "/") = true) t) as Hns.
  { apply Forall_forall. intros c Hc. destruct (Ascii.eqb_spec c "/") as [->|_];
      [contradiction|reflexivity]. }
  assert (span (fun c => negb (Ascii.eqb c "/")) None (t ++ "/"%char :: d) = length t) as Hsp
    by (apply span_stop; [exact Hns|reflexivity]).
  assert (forall x, x ∈ run CIDR_REGEX (t ++ "/"%char :: d) [] ->
            exists v, v ∈ run (Rep is_digit 1 None) d [t] /\
                      x = (v.1, v.2 ++ [take (length d - length v.1) d])) as Hfwd.
  { intros x Hx. unfold CIDR_REGEX in Hx.
    apply run_Cat_elem in Hx as (y & Hy & Hx).
    apply run_Group_elem in Hy as (z & Hz & ->).
    apply run_Rep_elem in Hz as (n & Hn & ->). rewrite Hsp in Hn.
    cbn [fst snd] in Hx. apply run_Cat_elem in Hx as (u & Hu & Hx).
    unfold chr in Hu. apply run_Cls_elem in Hu as (c & s' & Es & Hc & ->).
    apply Ascii.eqb_eq in Hc. subst c. cbn [fst snd] in Hx.
    rewrite drop_app_le in Es by lia.
    destruct (drop n t) as [|e r] eqn:Er.
    - injection Es as <-. apply run_Group_elem in Hx as (v & Hv & ->).
      assert (length t <= n)%nat as Hge.
      { destruct (Nat.le_gt_cases (length t) n) as [H|H]; [exact H|].
        apply (f_equal length) in Er. rewrite length_drop in Er. simpl in Er. lia. }
      assert (n = length t) as -> by lia.
      assert (take (length (t ++ "/"%char :: d) - length (drop (length t) (t ++ "/"%char :: d)))
                (t ++ "/"%char :: d) = t) as E.
      { rewrite length_drop, length_app. cbn [length].
        replace (length t + S (length d) - (length t + S (length d) - length t))%nat
          with (length t) by lia.
        apply take_app_length. }
      rewrite E in Hv. exists v. split; [exact Hv|reflexivity].
    - exfalso. injection Es as -> _. apply Hs.
      rewrite <- (take_drop n t), Er. apply elem_of_app. right. left. }
  apply match_anchored_unique.
  - unfold CIDR_REGEX. apply run_Cat_elem. exists ("/"%char :: d, [t]). split.
    + apply run_Group_elem. exists ("/"%char :: d, []). split.
      * apply run_Rep_elem. exists (length t). rewrite Hsp. split.
        -- destruct t; [contradiction|simpl; lia].
        -- rewrite drop_app_le, drop_all by lia. reflexivity.
      * cbn [fst snd app]. rewrite length_app. cbn [length].
        replace (length t + S (length d) - S (length d))%nat with (length t) by lia.
        rewrite take_app_length. reflexivity.
    + cbn [fst snd]. apply run_Cat_elem. exists (d, [t]). split.
      * unfold chr. apply run_Cls_elem. exists "/"%char, d. auto.
      * cbn [fst snd]. apply run_Group_elem. exists ([], [t]). split.
        -- apply run_Rep_end. split; [reflexivity|]. split.
           ++ destruct d; [contradiction|simpl; lia].
           ++ apply span_all, Hdig.
        -- cbn [fst snd length app]. rewrite Nat.sub_0_r, firstn_all. reflexivity.
  - intros caps' Hc. apply Hfwd in Hc as (v & Hv & E).
    destruct v as [v1 v2]. cbn [fst snd] in E. injection E as E1 E2. subst v1.
    apply run_Rep_end in Hv as (-> & _ & _). subst caps'.
    cbn [length app]. rewrite Nat.sub_0_r, firstn_all. reflexivity.
Qed.

Lemma Number_digits d :
  d <> [] -> Forall (fun c => is_digit c = true) d -> Number d = Some (decimal d).
Proof.
  intros Hd Hdig. destruct d as [|c d]; [contradiction|].
  unfold Number. rewrite Number_loop_digits by exact Hdig. reflexivity.
Qed.

Lemma IP_parse_not_nil t a : IP_parse t = Some a -> t <> [].
Proof. intros H ->. discriminate H. Qed.

Lemma IP_parse_no_slash t a : IP_parse t = Some a -> ("/"%char : ascii) ∉ t.
Proof. intros H. apply chars_exclude; [reflexivity|]. eapply IP_parse_chars, H. Qed.

Lemma IP_parse_no_dash t a : IP_parse t = Some a -> ("-"%char : ascii) ∉ t.
Proof. intros H. apply chars_exclude; [reflexivity|]. eapply IP_parse_chars, H. Qed.

Lemma IPRange_new_ok a b :
  wf a -> wf b -> IP_version a = IP_version b ->
  exists r, IPRange_new a b = Normal r /\ range_ok r.
Proof.
  intros Ha Hb Hv. rewrite IPRange_new_same_version by exact Hv.
  pose proof (cmp_value_flip a b Ha Hb) as Hf.
  destruct (Z.gtb_spec (cmp_value a b) 0) as [Hgt|Hle]; eexists; (split; [reflexivity|]);
    unfold range_ok; cbn [IPRange_first IPRange_last IPRange_version]; repeat split;
    try assumption; try congruence; lia.
Qed.

Lemma IPRange_new_refl a :
  IPRange_new a a = Normal (mkIPRange a a (IP_version a)).
Proof.
  rewrite IPRange_new_same_version by reflexivity. destruct (cmp_value a a >? 0); reflexivity.
Qed.

Lemma IPRange_new_sym a b :
  wf a -> wf b -> IP_version a = IP_version b -> IPRange_new b a = IPRange_new a b.
Proof.
  intros Ha Hb Hv. rewrite !IPRange_new_same_version by congruence.
  pose proof (cmp_value_flip a b Ha Hb) as Hf.
  destruct (Z.gtb_spec (cmp_value a b) 0) as [Hgt|Hle],
           (Z.gtb_spec (cmp_value b a) 0) as [Hgt'|Hle']; try lia.
  - rewrite Hv. reflexivity.
  - rewrite Hv. reflexivity.
  - assert (a = b) as -> by (apply cmp_value_zero; [assumption..|lia]). reflexivity.
Qed.

Lemma IP_cidr_ok a bits : wf a -> exists r, IP_cidr a bits = Normal r /\ range_ok r.
Proof.
  intros Ha. rewrite (IP_cidr_value a bits Ha). eexists. split; [reflexivity|].
  apply wf_items in Ha as [Hl Hr].
  destruct (mask_in_range _ (item_width_cases a) (items a) bits Hr) as (R0 & R1 & Hle).
  apply cmp_pointwise_le in Hle.
  unfold range_ok. cbn [IPRange_first IPRange_last IPRange_version].
  split; [apply wf_with_items; [rewrite mask_length; exact Hl|exact R0]|].
  split; [apply wf_with_items; [rewrite mask_length; exact Hl|exact R1]|].
  destruct a as [a|a]; simpl in *; auto.
Qed.

(** X13: [IPRange.parse] never throws, and a range it returns holds two
    well-formed addresses of the version of the range, the first not above
    the last. *)
Theorem IPRange_parse_total (s : jstr) :
  exists r, IPRange_parse s = Normal r /\ forall rg, r = Some rg -> range_ok rg.
Proof.
  assert (forall a b, wf a -> wf b -> IP_version a = IP_version b ->
            exists r, Some <$> IPRange_new a b = Normal r /\
                      forall rg, r = Some rg -> range_ok rg) as Hnew.
  { intros a b Ha Hb Hv. destruct (IPRange_new_ok a b Ha Hb Hv) as (r & -> & Hr).
    eexists. split; [reflexivity|]. intros rg [= <-]. exact Hr. }
  assert (exists r, Normal (@None IPRange) = Normal r /\ forall rg, r = Some rg -> range_ok rg)
    as Hnone by (eexists; split; [reflexivity|discriminate]).
  unfold IPRange_parse. destruct (indexOf s (js "/") 0 >=? 0).
  - destruct (match_anchored CIDR_REGEX s) as [groups|]; [|exact Hnone].
    destruct (IP_parse _) as [ip|] eqn:Hip; [|exact Hnone].
    destruct (Number _) as [bits|]; [|exact Hnone].
    destruct (_ || _); [exact Hnone|].
    destruct (IP_cidr_ok ip bits (IP_parse_wf _ _ Hip)) as (r & -> & Hr).
    eexists. split; [reflexivity|]. intros rg [= <-]. exact Hr.
  - destruct (indexOf s (js "-") 0 >=? 0).
    + destruct (len (split "-" s) >? 2); [exact Hnone|].
      destruct (IP_parse (default [] (split "-" s !! 0%nat))) as [[a|a]|] eqn:Ha;
        destruct (IP_parse (default [] (split "-" s !! 1%nat))) as [[b|b]|] eqn:Hb;
        try exact Hnone;
        (apply Hnew; [exact (IP_parse_wf _ _ Ha)|exact (IP_parse_wf _ _ Hb)|reflexivity]).
    + destruct (IP_parse s) as [[a|a]|] eqn:Ha; try exact Hnone;
        (apply Hnew; [exact (IP_parse_wf _ _ Ha)|exact (IP_parse_wf _ _ Ha)|reflexivity]).
Qed.

(** X14: the text of a single address is read as the range from that address
    to itself. *)
Theorem IPRange_parse_address (s : jstr) (a : IP) :
  IP_parse s = Some a ->
  IPRange_parse s = Normal (Some (mkIPRange a a (IP_version a))).
Proof.
  intros H. unfold IPRange_parse.
  change (js "/") with ["/"%char]. change (js "-") with ["-"%char].
  rewrite (indexOf_absent _ _ (IP_parse_no_slash _ _ H)).
  rewrite (indexOf_absent _ _ (IP_parse_no_dash _ _ H)).
  change (-1 >=? 0) with false. cbv beta iota. rewrite H.
  destruct a as [a|a]; rewrite IPRange_new_refl; reflexivity.
Qed.

Lemma IPRange_parse_address_witness :
  IP_parse (js "::1") = Some (V6 (mkIPv6 [0; 0; 0; 0; 0; 0; 0; 1])) /\
  IPRange_parse (js "::1")
  = Normal (Some (mkIPRange (V6 (mkIPv6 [0; 0; 0; 0; 0; 0; 0; 1]))
                            (V6 (mkIPv6 [0; 0; 0; 0; 0; 0; 0; 1])) 6)).
Proof.
  split; [reflexivity|].
  apply (IPRange_parse_address (js "::1") (V6 (mkIPv6 [0; 0; 0; 0; 0; 0; 0; 1]))).
  reflexivity.
Defined.

(** X15: an address text, a slash and a non-empty string of decimal digits,
    leading zeros allowed, is read as the prefix range of that address, and
    as null when the number exceeds the bit length of the address. *)
Theorem IPRange_parse_cidr (t d : jstr) (a : IP) :
  IP_parse t = Some a -> d <> [] -> Forall (fun c => is_digit c = true) d ->
  IPRange_parse (t ++ "/"%char :: d) =
    if decimal d >? item_width a * item_count a then Normal None
    else Some <$> IP_cidr a (decimal d).
Proof.
  intros Ht Hd Hdig. unfold IPRange_parse. change (js "/") with ["/"%char].
  destruct (Z.geb_spec (indexOf (t ++ "/"%char :: d) ["/"%char] 0) 0) as [_|Hlt];
    [|pose proof (indexOf_present "/" t d); lia].
  rewrite match_anchored_CIDR_REGEX;
    [|exact (IP_parse_not_nil _ _ Ht)|exact (IP_parse_no_slash _ _ Ht)|exact Hd|exact Hdig].
  cbv beta iota zeta. cbn [lookup list_lookup default id]. rewrite Ht, (Number_digits d Hd Hdig).
  destruct a as [a|a]; unfold item_width, item_count; cbn [IP_version Z.eqb andb orb];
    [change (8 * 4) with 32|change (16 * 8) with 128];
    destruct (decimal d >? _); reflexivity.
Qed.

Lemma IPRange_parse_cidr_witness :
  IP_parse (js "10.1.2.3") = Some (V4 (mkIPv4 [10; 1; 2; 3])) /\
  IPRange_parse (js "10.1.2.3/012")
  = Normal (Some (mkIPRange (V4 (mkIPv4 [10; 0; 0; 0])) (V4 (mkIPv4 [10; 15; 255; 255])) 4)).
Proof.
  split; [reflexivity|].
  apply (IPRange_parse_cidr (js "10.1.2.3") (js "012") (V4 (mkIPv4 [10; 1; 2; 3])));
    [reflexivity|discriminate|repeat constructor].
Defined.

(** X16: two address texts joined by a dash are read as the range between the
    two addresses when they are of one family and as null otherwise, and the
    order of the two texts does not matter. *)
Theorem IPRange_parse_dash (t1 t2 : jstr) (a b : IP) :
  IP_parse t1 = Some a -> IP_parse t2 = Some b ->
  IPRange_parse (t1 ++ "-"%char :: t2) =
    (if IP_version a =? IP_version b then Some <$> IPRange_new a b else Normal None) /\
  IPRange_parse (t2 ++ "-"%char :: t1) = IPRange_parse (t1 ++ "-"%char :: t2).
Proof.
  assert (forall t1 t2 a b, IP_parse t1 = Some a -> IP_parse t2 = Some b ->
            IPRange_parse (t1 ++ "-"%char :: t2) =
            if IP_version a =? IP_version b then Some <$> IPRange_new a b else Normal None) as H.
  { clear. intros t1 t2 a b H1 H2. unfold IPRange_parse.
    change (js "/") with ["/"%char]. change (js "-") with ["-"%char].
    rewrite (indexOf_absent "/" (t1 ++ "-"%char :: t2)).
    2:{ intros Hin. apply elem_of_app in Hin as [Hin|Hin].
        - exact (IP_parse_no_slash _ _ H1 Hin).
        - apply elem_of_cons in Hin as [Hin|Hin]; [discriminate Hin|].
          exact (IP_parse_no_slash _ _ H2 Hin). }
    change (-1 >=? 0) with false. cbv beta iota.
    destruct (Z.geb_spec (indexOf (t1 ++ "-"%char :: t2) ["-"%char] 0) 0) as [_|Hlt];
      [|pose proof (indexOf_present "-" t1 t2); lia].
    rewrite split_app by exact (IP_parse_no_dash _ _ H1).
    rewrite split_absent by exact (IP_parse_no_dash _ _ H2).
    change (len [t1; t2] >? 2) with false. cbv beta iota.
    cbn [lookup list_lookup default id]. rewrite H1, H2.
    destruct a as [a|a], b as [b|b]; reflexivity. }
  intros H1 H2. split; [apply H; assumption|].
  rewrite (H t1 t2 a b H1 H2), (H t2 t1 b a H2 H1), (Z.eqb_sym (IP_version b)).
  destruct (Z.eqb_spec (IP_version a) (IP_version b)) as [Hv|_]; [|reflexivity].
  rewrite (IPRange_new_sym a b); [reflexivity|exact (IP_parse_wf _ _ H1)
    |exact (IP_parse_wf _ _ H2)|exact Hv].
Qed.

Lemma IPRange_parse_dash_witness :
  IP_parse (js "2.2.3.4") = Some (V4 (mkIPv4 [2; 2; 3; 4])) /\
  IP_parse (js "1.2.3.4") = Some (V4 (mkIPv4 [1; 2; 3; 4])) /\
  IPRange_parse (js "2.2.3.4-1.2.3.4")
  = Normal (Some (mkIPRange (V4 (mkIPv4 [1; 2; 3; 4])) (V4 (mkIPv4 [2; 2; 3; 4])) 4)) /\
  IPRange_parse (js "1.2.3.4-2.2.3.4") = IPRange_parse (js "2.2.3.4-1.2.3.4").
Proof.
  split; [reflexivity|]. split; [reflexivity|].
  apply (IPRange_parse_dash (js "2.2.3.4") (js "1.2.3.4")
           (V4 (mkIPv4 [2; 2; 3; 4])) (V4 (mkIPv4 [1; 2; 3; 4]))); reflexivity.
Defined.

(** ** The three forms of a range text *)

Lemma span_None_full p (s : jstr) :
  span p None s = length s -> Forall (fun c => p c = true) s.
Proof.
  induction s as [|c s IH]; [constructor|].
  cbn [span length fmap option_fmap option_map]. destruct (p c) eqn:E; [|discriminate].
  intros [= H]. constructor; [exact E|apply IH, H].
Qed.

Lemma match_anchored_CIDR_REGEX_inv (s : jstr) (groups : list jstr) :
  match_anchored CIDR_REGEX s = Some groups ->
  exists t d, s = t ++ "/"%char :: d /\ groups = [t; d] /\ t <> [] /\ d <> [] /\
              Forall (fun c => is_digit c = true) d.
Proof.
  intros H. apply match_anchored_Some in H. unfold CIDR_REGEX in H.
  apply run_Cat_elem in H as (y & Hy & H).
  apply run_Group_elem in Hy as (z & Hz & ->).
  apply run_Rep_elem in Hz as (n & Hn & ->). cbn [fst snd app] in H.
  apply run_Cat_elem in H as (u & Hu & H).
  unfold chr in Hu. apply run_Cls_elem in Hu as (c & d & Es & Hc & ->).
  apply Ascii.eqb_eq in Hc. subst c. cbn [fst snd] in H.
  apply run_Group_elem in H as (v & Hv & E). destruct v as [v1 v2]. cbn [fst snd] in E.
  injection E as <- ->. apply run_Rep_end in Hv as (-> & Hd & Hsp).
  pose proof (span_le_length (fun c => negb (Ascii.eqb c "/")) None s) as Hle.
  exists (take n s), d. split; [|split; [|split; [|split]]].
  - rewrite <- Es. symmetry. apply take_drop.
  - cbn [length app]. rewrite Nat.sub_0_r, firstn_all, length_drop.
    replace (length s - (length s - n))%nat with n by lia. reflexivity.
  - intros E. apply (f_equal length) in E. rewrite length_take in E. simpl in E. lia.
  - intros ->. simpl in Hd. lia.
  - apply span_None_full, Hsp.
Qed.

(** X17: [IPRange.parse] returns a range for three forms of text only: an
    address; an address, a slash and a decimal prefix length within the bit
    length of the address; and two addresses of one family joined by a
    dash. *)
Theorem IPRange_parse_forms (s : jstr) (r : IPRange) :
  IPRange_parse s = Normal (Some r) ->
  (exists a, IP_parse s = Some a /\ r = mkIPRange a a (IP_version a)) \/
  (exists t d a,
      s = t ++ "/"%char :: d /\ IP_parse t = Some a /\ d <> [] /\
      Forall (fun c => is_digit c = true) d /\
      decimal d <= item_width a * item_count a /\ IP_cidr a (decimal d) = Normal r) \/
  (exists t1 t2 a b,
      s = t1 ++ "-"%char :: t2 /\ IP_parse t1 = Some a /\ IP_parse t2 = Some b /\
      IP_version a = IP_version b /\ IPRange_new a b = Normal r).
Proof.
  assert (forall c : completion IPRange, Some <$> c = Normal (Some r) -> c = Normal r) as Hsome.
  { intros [x|e] E; [|discriminate E]. injection E as <-. reflexivity. }
  unfold IPRange_parse. destruct (indexOf s (js "/") 0 >=? 0).
  - destruct (match_anchored CIDR_REGEX s) as [groups|] eqn:Hm; [|discriminate].
    apply match_anchored_CIDR_REGEX_inv in Hm as (t & d & -> & -> & Ht & Hd & Hdig).
    cbv beta iota zeta. cbn [lookup list_lookup default id].
    destruct (IP_parse t) as [a|] eqn:Ha; [|discriminate].
    rewrite (Number_digits d Hd Hdig). intros H. right. left. exists t, d, a.
    split; [reflexivity|]. split; [exact Ha|]. split; [exact Hd|]. split; [exact Hdig|].
    destruct a as [a|a]; unfold item_width, item_count in *; cbn [IP_version] in *;
      change (4 =? 4) with true in *; change (4 =? 6) with false in *;
      change (6 =? 4) with false in *; change (6 =? 6) with true in *;
      cbn [andb orb] in *; [change (8 * 4) with 32|change (16 * 8) with 128];
      (match type of H with context [ ?x >? ?y ] => destruct (Z.gtb_spec x y) end);
      try discriminate H; (split; [lia|apply Hsome, H]).
  - destruct (indexOf s (js "-") 0 >=? 0).
    + destruct (len (split "-" s) >? 2) eqn:Hlen; [discriminate|].
      pose proof (join_split "-" s) as Hj.
      destruct (split "-" s) as [|t1 [|t2 [|t3 ps]]] eqn:Hs.
      * destruct (split_not_nil _ _ Hs).
      * cbn [lookup list_lookup default id]. destruct (IP_parse t1) as [[a|a]|]; discriminate.
      * cbn [lookup list_lookup default id]. cbn [join app] in Hj.
        destruct (IP_parse t1) as [[a|a]|] eqn:Ha; destruct (IP_parse t2) as [[b|b]|] eqn:Hb;
          try discriminate; intros H; right; right;
          eexists t1, t2, _, _; (split; [symmetry; exact Hj|]);
          (split; [exact Ha|]); (split; [exact Hb|]); (split; [reflexivity|]);
          apply Hsome, H.
      * exfalso. unfold len in Hlen. cbn [length] in Hlen.
        destruct (Z.gtb_spec (Z.of_nat (S (S (S (length ps))))) 2); [discriminate|lia].
    + destruct (IP_parse s) as [[a|a]|] eqn:Ha; try discriminate;
        rewrite IPRange_new_refl; intros [= <-]; left; eexists; (split; [reflexivity|reflexivity]).
Qed.

Lemma IPRange_parse_forms_witness :
  IPRange_parse (js "::/127")
  = Normal (Some (mkIPRange (V6 (mkIPv6 [0; 0; 0; 0; 0; 0; 0; 0]))
                            (V6 (mkIPv6 [0; 0; 0; 0; 0; 0; 0; 1])) 6)) /\
  ((exists a, IP_parse (js "::/127") = Some a /\
      mkIPRange (V6 (mkIPv6 [0; 0; 0; 0; 0; 0; 0; 0]))
                (V6 (mkIPv6 [0; 0; 0; 0; 0; 0; 0; 1])) 6 = mkIPRange a a (IP_version a)) \/
   (exists t d a,
      js "::/127" = t ++ "/"%char :: d /\ IP_parse t = Some a /\ d <> [] /\
      Forall (fun c => is_digit c = true) d /\
      decimal d <= item_width a * item_count a /\
      IP_cidr a (decimal d)
      = Normal (mkIPRange (V6 (mkIPv6 [0; 0; 0; 0; 0; 0; 0; 0]))
                          (V6 (mkIPv6 [0; 0; 0; 0; 0; 0; 0; 1])) 6)) \/
   (exists t1 t2 a b,
      js "::/127" = t1 ++ "-"%char :: t2 /\ IP_parse t1 = Some a /\ IP_parse t2 = Some b /\
      IP_version a = IP_version b /\
      IPRange_new a b
      = Normal (mkIPRange (V6 (mkIPv6 [0; 0; 0; 0; 0; 0; 0; 0]))
                          (V6 (mkIPv6 [0; 0; 0; 0; 0; 0; 0; 1])) 6))).
Proof.
  split; [reflexivity|].
  apply (IPRange_parse_forms (js "::/127")
           (mkIPRange (V6 (mkIPv6 [0; 0; 0; 0; 0; 0; 0; 0]))
                      (V6 (mkIPv6 [0; 0; 0; 0; 0; 0; 0; 1])) 6)). reflexivity.
Defined.
(** ** The enumeration of a range *)

Lemma ips_take_invariant (r : IPRange) (n : nat) (ip : option IP) :
  (forall a, ip = Some a -> wf a /\ IP_version a = IPRange_version r) ->
  exists l,
    ips_take n r ip = Normal l /\
    Forall (fun a => wf a /\ IP_version a = IPRange_version r /\
                     cmp_value a (IPRange_last r) <= 0) l /\
    (forall i a b, l !! i = Some a -> l !! S i = Some b -> IP_next a = Some b) /\
    (forall a, head l = Some a -> ip = Some a).
Proof.
  revert ip; induction n as [|n IH]; intros ip Hip.
  - exists []. split; [reflexivity|]. split; [constructor|]. split; intros; discriminate.
  - cbn [ips_take]. destruct ip as [a|]; cbn [ips_pull].
    + rewrite cmp_value_eq. cbn [mbind completion_bind].
      destruct (Z.leb_spec (cmp_value a (IPRange_last r)) 0) as [Hle|Hgt].
      * cbn [mbind completion_bind]. destruct (Hip a eq_refl) as [Ha Hv].
        destruct (IH (IP_next a)) as (l & -> & Hall & Hchain & Hhead).
        { intros a' Ha'. destruct (IP_next_preserves_wf a a' Ha Ha') as [? ?]. split; congruence. }
        exists (a :: l). cbn [mbind completion_bind]. split; [reflexivity|].
        split; [constructor; auto|]. split.
        -- intros [|i] x y Hx Hy; simpl in Hx, Hy.
           ++ injection Hx as <-. apply Hhead. destruct l; [discriminate|].
              simpl in *. congruence.
           ++ eapply Hchain; eassumption.
        -- intros x [= <-]. reflexivity.
      * exists []. split; [reflexivity|]. split; [constructor|]. split; intros; discriminate.
    + exists []. split; [reflexivity|]. split; [constructor|]. split; intros; discriminate.
Qed.

(** X18: however many addresses are pulled from the enumeration of a range
    that satisfies the invariant, no pull throws; the addresses begin with
    the first address of the range, each is the [_next] of the one before,
    and each is a well-formed address of the version of the range that is
    not above the last address. *)
Theorem ips_take_sound (r : IPRange) (n : nat) :
  range_ok r ->
  exists l,
    ips_take n r (ips_start r) = Normal l /\
    Forall (fun a => wf a /\ IP_version a = IPRange_version r /\
                     cmp_value a (IPRange_last r) <= 0) l /\
    (forall i a b, l !! i = Some a -> l !! S i = Some b -> IP_next a = Some b) /\
    (n <> 0%nat -> head l = Some (IPRange_first r)).
Proof.
  intros (Hf & Hl & Vf & Vl & Hle).
  destruct (ips_take_invariant r n (ips_start r)) as (l & El & Hall & Hchain & Hhead).
  { intros a [= <-]. auto. }
  exists l. split; [exact El|]. split; [exact Hall|]. split; [exact Hchain|].
  intros Hn. destruct n as [|n]; [contradiction|].
  cbn [ips_take ips_start ips_pull] in El. rewrite cmp_value_eq in El.
  cbn [mbind completion_bind] in El.
  destruct (Z.leb_spec (cmp_value (IPRange_first r) (IPRange_last r)) 0) as [_|Hgt]; [|lia].
  cbn [mbind completion_bind] in El.
  destruct (ips_take n r _) as [l'|e]; cbn [mbind completion_bind] in El; [|discriminate].
  injection El as <-. reflexivity.
Qed.

Lemma ips_take_sound_witness :
  range_ok (mkIPRange (V4 (mkIPv4 [1; 2; 3; 254])) (V4 (mkIPv4 [1; 2; 5; 1])) 4) /\
  exists l,
    ips_take 5 (mkIPRange (V4 (mkIPv4 [1; 2; 3; 254])) (V4 (mkIPv4 [1; 2; 5; 1])) 4)
      (ips_start (mkIPRange (V4 (mkIPv4 [1; 2; 3; 254])) (V4 (mkIPv4 [1; 2; 5; 1])) 4))
    = Normal l /\
    Forall (fun a => wf a /\ IP_version a = 4 /\
                     cmp_value a (V4 (mkIPv4 [1; 2; 5; 1])) <= 0) l /\
    (forall i a b, l !! i = Some a -> l !! S i = Some b -> IP_next a = Some b) /\
    (5%nat <> 0%nat -> head l = Some (V4 (mkIPv4 [1; 2; 3; 254]))).
Proof.
  split.
  - unfold range_ok. simpl. repeat split; vm_compute; discriminate.
  - apply (ips_take_sound
             (mkIPRange (V4 (mkIPv4 [1; 2; 3; 254])) (V4 (mkIPv4 [1; 2; 5; 1])) 4) 5).
    unfold range_ok. simpl. repeat split; vm_compute; discriminate.
Defined.

Lemma cmp_app_same (l u v : list Z) :
  cmpSameLengthArrays (l ++ u) (l ++ v) = cmpSameLengthArrays u v.
Proof.
  induction l as [|x l IH]; [reflexivity|].
  cbn [app cmpSameLengthArrays]. rewrite Z.eqb_refl. exact IH.
Qed.

Lemma cmp_last_item (l : list Z) x y :
  cmpSameLengthArrays (l ++ [x]) (l ++ [y]) = if x =? y then 0 else if x <? y then -1 else 1.
Proof.
  rewrite cmp_app_same. cbn [cmpSameLengthArrays].
  destruct (x =? y); reflexivity.
Qed.

Lemma IP_cmp_with_items fam u v :
  IP_cmp (with_items fam u) (with_items fam v) = Normal (cmpSameLengthArrays u v).
Proof. destruct fam; reflexivity. Qed.

Lemma IP_next_with_items fam (l : list Z) x :
  x < 2 ^ item_width fam - 1 ->
  IP_next (with_items fam (l ++ [x])) = Some (with_items fam (l ++ [x + 1])).
Proof.
  destruct fam as [a|a]; unfold item_width; cbn [IP_version Z.eqb with_items IP_next];
    intros Hx; unfold IPv4_next, IPv6_next; cbn [_bytes _words];
    rewrite next_loop_no_carry by exact Hx; reflexivity.
Qed.

Lemma ips_all_last_item fam (l : list Z) (y : Z) (k : nat) :
  forall (x : Z) (fuel : nat) first v,
    x + Z.of_nat k = y -> y < 2 ^ item_width fam - 1 -> (S (S k) <= fuel)%nat ->
    ips_all fuel (mkIPRange first (with_items fam (l ++ [y])) v)
      (Some (with_items fam (l ++ [x])))
    = Normal (Some ((fun i => with_items fam (l ++ [x + Z.of_nat i])) <$> seq 0 (S k))).
Proof.
  induction k as [|k IH]; intros x fuel first v Hxy Hy Hfuel.
  - destruct fuel as [|[|fuel]]; try lia.
    cbn [ips_all ips_pull IPRange_last]. rewrite IP_cmp_with_items, cmp_last_item.
    replace x with y by lia. rewrite Z.eqb_refl.
    cbn [mbind completion_bind Z.leb Z.compare]. rewrite IP_next_with_items by exact Hy.
    cbn [ips_all ips_pull IPRange_last mbind completion_bind].
    rewrite IP_cmp_with_items, cmp_last_item.
    destruct (Z.eqb_spec (y + 1) y) as [E|_]; [lia|].
    destruct (Z.ltb_spec (y + 1) y) as [E|_]; [lia|].
    cbn [mbind completion_bind Z.leb Z.compare option_map fmap list_fmap seq].
    rewrite Z.add_0_r. reflexivity.
  - destruct fuel as [|fuel]; [lia|].
    cbn [ips_all ips_pull IPRange_last]. rewrite IP_cmp_with_items, cmp_last_item.
    destruct (Z.eqb_spec x y) as [E|_]; [lia|].
    destruct (Z.ltb_spec x y) as [_|E]; [|lia].
    cbn [mbind completion_bind Z.leb Z.compare]. rewrite IP_next_with_items by lia.
    rewrite (IH (x + 1)) by lia.
    cbn [mbind completion_bind option_map]. do 2 f_equal.
    change (seq 0 (S (S k))) with (0%nat :: seq 1 (S k)).
    rewrite <- (fmap_S_seq 0 (S k)), fmap_cons, <- list_fmap_compose.
    rewrite Z.add_0_r. f_equal. apply list_fmap_ext. intros _ i _. cbn [compose].
    do 3 f_equal. lia.
Qed.

(** X19: a range whose two ends differ in the last item only, that of the last
    address being below the maximum, is enumerated exactly: every address
    from the first to the last once, in ascending order. *)
Theorem ips_within_last_item (fam : IP) (l : list Z) (x y : Z) (fuel : nat) :
  x <= y < 2 ^ item_width fam - 1 -> (Z.to_nat (y - x) + 2 <= fuel)%nat ->
  ips fuel (mkIPRange (with_items fam (l ++ [x])) (with_items fam (l ++ [y])) (IP_version fam))
  = Normal (Some ((fun i => with_items fam (l ++ [x + Z.of_nat i]))
                    <$> seq 0 (S (Z.to_nat (y - x))))).
Proof.
  intros Hxy Hfuel. unfold ips, ips_start. cbn [IPRange_first].
  apply ips_all_last_item; lia.
Qed.

Lemma ips_within_last_item_witness :
  1 <= 4 < 2 ^ item_width (V4 (mkIPv4 [])) - 1 /\ (Z.to_nat (4 - 1) + 2 <= 10)%nat /\
  ips 10 (mkIPRange (V4 (mkIPv4 [10; 0; 0; 1])) (V4 (mkIPv4 [10; 0; 0; 4])) 4)
  = Normal (Some [V4 (mkIPv4 [10; 0; 0; 1]); V4 (mkIPv4 [10; 0; 0; 2]);
                  V4 (mkIPv4 [10; 0; 0; 3]); V4 (mkIPv4 [10; 0; 0; 4])]).
Proof.
  split; [unfold item_width; simpl; lia|]. split; [simpl; lia|].
  apply (ips_within_last_item (V4 (mkIPv4 [])) [10; 0; 0] 1 4 10);
    [unfold item_width; simpl; lia|simpl; lia].
Defined.
(** ** The case of letters *)

Section CaseMap.

Variable f : ascii -> ascii.
Hypothesis f_colon : forall c, Ascii.eqb (f c) ":" = Ascii.eqb c ":".
Hypothesis f_dot : forall c, Ascii.eqb (f c) "." = Ascii.eqb c ".".
Hypothesis f_digit : forall c, is_digit (f c) = is_digit c.
Hypothesis f_digit_id : forall c, is_digit c = true -> f c = c.
Hypothesis f_hex : forall c, hex_digit (f c) = hex_digit c.
Hypothesis f_value : forall c, default 0 (hex_value (f c)) = default 0 (hex_value c).






















End CaseMap.


